(** * He Tu / Luo Shu geometry and animation core: a shallow embedding

    The definitions below transcribe the TypeScript sources
    ([constants.ts], [types.ts], [App.tsx], [components/HeTuScene.tsx],
    [components/LoShuScene.tsx]).

    Conventions of the embedding:
    - a JavaScript [number] that carries a coordinate, an angle or a time
      is a real number ([R], exact arithmetic); [Math.sqrt], [Math.sin],
      [Math.cos], [Math.acos], [Math.PI] are the functions of the
      standard library of reals;
    - a [number] that carries a group value or an [indexOf] result is an
      integer ([Z]); loop counters and array indices are [nat];
    - a [Record<string, GalaxyPointConfig>] is a [gmap string _], the map of
      the own properties of the object: reading [obj[k]] is the lookup of
      [k] for every key that is not a property name inherited from
      [Object.prototype] ([ownKey] below);
    - a [Record<number, _>] filled at run time is a [gmap Z _]: a number is
      turned into its decimal string when used as a key and [parseInt]
      gives it back, for the integers that are exact as numbers
      ([safeInteger] below);
    - an array is a [list]; [push] appends at the end. *)

From Stdlib Require Import Reals Lra Lia ZArith List String Ascii.
From Stdlib Require Import Permutation Sorted DecimalString RNsatz.
From stdpp Require Import gmap strings.
Import ListNotations.

Open Scope Z_scope.
Open Scope R_scope.
Open Scope string_scope.
Open Scope list_scope.

(** ** types.ts *)

Inductive Polarity : Set := YANG | YIN.

Inductive Group : Set := north | south | east | west | center.

Module HeTuPoint.
Record t : Type := mk {
  id : string;
  x : R;
  y : R;
  z : R;
  polarity : Polarity;
  group : Group;
  numberValue : Z
}.
End HeTuPoint.
Abbreviation HeTuPoint := HeTuPoint.t.

Inductive AnimationState : Set :=
| STATIC | MORPHING | RUNNING | RETURNING | PAUSED
| HELIX_MORPHING | HELIX_RUNNING | HELIX_PAUSED.

Inductive GalaxyPointType : Set := CORE | RING | ARM.

Module GalaxyPointConfig.
Record t : Type := mk {
  type : GalaxyPointType;
  r : R;
  thetaStart : R;
  speedFactor : R;
  zAmp : R;
  zFreq : R;
  yOffset : option R          (* [yOffset?: number], [None] is undefined *)
}.
End GalaxyPointConfig.
Abbreviation GalaxyPointConfig := GalaxyPointConfig.t.

Module LoShuPointData.
Record t : Type := mk {
  id : string;
  numberValue : Z;
  polarity : Polarity;
  planePos : R * R * R;
  spherePos : R * R * R;
  trigram : option string;
  direction : option string
}.
End LoShuPointData.
Abbreviation LoShuPointData := LoShuPointData.t.

Definition Polarity_eqb (a b : Polarity) : bool :=
  match a, b with YANG, YANG | YIN, YIN => true | _, _ => false end.

Definition Group_eqb (a b : Group) : bool :=
  match a, b with
  | north, north | south, south | east, east | west, west | center, center => true
  | _, _ => false
  end.

(** ** JavaScript helpers *)

(** Template-literal rendering of a small non-negative counter. *)
Definition showNat (n : nat) : string := NilZero.string_of_uint (Nat.to_uint n).

(** Template-literal rendering of an integer-valued number. *)
Definition showZ (n : Z) : string := NilZero.string_of_int (Z.to_int n).

(** [for (let i = 0; i < n; i++) points.push(f(i))]: the pushed elements. *)
Definition forPush {A : Type} (n : nat) (f : nat -> A) : list A := List.map f (seq 0 n).

(** [Array.prototype.includes] on an array of group values. *)
Definition includes (sequence : list Z) (v : Z) : bool := existsb (Z.eqb v) sequence.

(** [Array.prototype.indexOf]: first position of [v], or [-1]. *)
Fixpoint indexOfFrom (sequence : list Z) (v : Z) (k : Z) : Z :=
  match sequence with
  | [] => (-1)%Z
  | w :: rest => if (w =? v)%Z then k else indexOfFrom rest v (k + 1)%Z
  end.

Definition indexOf (sequence : list Z) (v : Z) : Z := indexOfFrom sequence v 0%Z.

(** [String.prototype.localeCompare] on the identifiers of the catalog
    (lower-case letters, digits and hyphens, any two of them differing first
    at two digits or two letters): the lexicographic order of the characters,
    reported as a negative, zero or positive number. On other strings the
    collation of the host may differ from it (upper case, accents,
    canonically equivalent strings), so what depends on the order of the
    identifiers is stated for the points of the catalog. *)
Definition localeCompare (a b : string) : Z :=
  match String.compare a b with
  | Lt => (-1)%Z
  | Eq => 0%Z
  | Gt => 1%Z
  end.

(** [Array.prototype.sort(compareFn)]: the sort is stable, so for a consistent
    comparator its result is the stable sorted arrangement; it is computed
    here by stable insertion. [compareFn a b > 0] puts [a] after [b]. *)
Fixpoint sortInsert {A : Type} (compareFn : A -> A -> Z) (a : A) (l : list A) : list A :=
  match l with
  | [] => [a]
  | b :: rest =>
      if (compareFn a b <=? 0)%Z then a :: b :: rest
      else b :: sortInsert compareFn a rest
  end.

Definition arraySort {A : Type} (compareFn : A -> A -> Z) (l : list A) : list A :=
  fold_right (sortInsert compareFn) [] l.

(** [array.forEach((p, i) => ...)] with the mutated locals threaded as a state. *)
Fixpoint forEachFrom {A S : Type} (body : S -> A -> nat -> S) (l : list A) (i : nat) (s : S) : S :=
  match l with
  | [] => s
  | p :: rest => forEachFrom body rest (Datatypes.S i) (body s p i)
  end.

Definition forEach {A S : Type} (l : list A) (body : S -> A -> nat -> S) (s : S) : S :=
  forEachFrom body l 0%nat s.

(** ** constants.ts: cubic structure *)

Definition L : R := 20.
Definition Z_HEAVEN : R := - L / 2.
Definition Z_EARTH : R := L / 2.
Definition Z_CENTER : R := 0.

Definition SPACING : R := 1.2.
Definition EDGE_MARGIN : R := 2.0.

Definition TOP_Y : R := L / 2 - EDGE_MARGIN.
Definition BOTTOM_Y : R := - (L / 2 - EDGE_MARGIN).
Definition LEFT_X : R := - (L / 2 - EDGE_MARGIN).
Definition RIGHT_X : R := L / 2 - EDGE_MARGIN.

Definition createPoint (id : string) (x y z : R) (polarity : Polarity)
    (group : Group) (numberValue : Z) : HeTuPoint :=
  HeTuPoint.mk id x y z polarity group numberValue.

Definition CENTER_ROW_Y : R := 3 * SPACING.

Definition generateHeTuPoints : list HeTuPoint :=
  (* 1. heaven layer *)
  forPush 7 (fun i =>
    let x := (INR i - 3) * SPACING in
    createPoint ("heaven-7-" +:+ showNat i) x TOP_Y Z_HEAVEN YANG south 7)
  ++ [createPoint "heaven-1-0" 0 BOTTOM_Y Z_HEAVEN YANG north 1]
  ++ forPush 9 (fun i =>
    let y := (INR i - 4) * SPACING in
    createPoint ("heaven-9-" +:+ showNat i) RIGHT_X y Z_HEAVEN YANG west 9)
  ++ forPush 3 (fun i =>
    let y := (INR i - 1) * SPACING in
    createPoint ("heaven-3-" +:+ showNat i) LEFT_X y Z_HEAVEN YANG east 3)
  (* 2. earth layer *)
  ++ forPush 2 (fun i =>
    let x := (INR i - 0.5) * SPACING in
    createPoint ("earth-2-" +:+ showNat i) x TOP_Y Z_EARTH YIN south 2)
  ++ forPush 6 (fun i =>
    let x := (INR i - 2.5) * SPACING in
    createPoint ("earth-6-" +:+ showNat i) x BOTTOM_Y Z_EARTH YIN north 6)
  ++ forPush 8 (fun i =>
    let y := (INR i - 3.5) * SPACING in
    createPoint ("earth-8-" +:+ showNat i) LEFT_X y Z_EARTH YIN east 8)
  ++ forPush 4 (fun i =>
    let y := (INR i - 1.5) * SPACING in
    createPoint ("earth-4-" +:+ showNat i) RIGHT_X y Z_EARTH YIN west 4)
  (* 3. center pivot layer *)
  ++ [createPoint "center-5-mid" 0 0 Z_CENTER YANG center 5;
      createPoint "center-5-top" 0 SPACING Z_CENTER YANG center 5;
      createPoint "center-5-btm" 0 (- SPACING) Z_CENTER YANG center 5;
      createPoint "center-5-lft" (- SPACING) 0 Z_CENTER YANG center 5;
      createPoint "center-5-rgt" SPACING 0 Z_CENTER YANG center 5]
  ++ forPush 5 (fun i =>
    let x := (INR i - 2) * SPACING in
    createPoint ("center-10-top-" +:+ showNat i) x CENTER_ROW_Y Z_CENTER YIN center 10)
  ++ forPush 5 (fun i =>
    let x := (INR i - 2) * SPACING in
    createPoint ("center-10-btm-" +:+ showNat i) x (- CENTER_ROW_Y) Z_CENTER YIN center 10).

Definition CUBE_SIZE : R := L.

(** ** constants.ts: sorting helper *)

Definition descendingGroups : list Z := [4; 6; 9]%Z.

Definition compareHeTuPoints (sequence : list Z) (a b : HeTuPoint) : Z :=
  let idxA := indexOf sequence (HeTuPoint.numberValue a) in
  let idxB := indexOf sequence (HeTuPoint.numberValue b) in
  if negb (idxA =? idxB)%Z then (idxA - idxB)%Z
  else if includes descendingGroups (HeTuPoint.numberValue a)
       then localeCompare (HeTuPoint.id b) (HeTuPoint.id a)
       else localeCompare (HeTuPoint.id a) (HeTuPoint.id b).

Definition sortHeTuPoints (points : list HeTuPoint) (sequence : list Z) : list HeTuPoint :=
  let filtered := List.filter (fun p => includes sequence (HeTuPoint.numberValue p)) points in
  arraySort (compareHeTuPoints sequence) filtered.

(** ** constants.ts: galaxy animation configuration *)

(** [Math.atan2(y, x)] on real arguments. *)
Definition atan2 (y x : R) : R :=
  if Rlt_dec 0 x then atan (y / x)
  else if Rlt_dec x 0 then
    (if Rle_dec 0 y then atan (y / x) + PI else atan (y / x) - PI)
  else if Rlt_dec 0 y then PI / 2
  else if Rlt_dec y 0 then - (PI / 2)
  else 0.

Definition isCenter (pol : Polarity) (p : HeTuPoint) : bool :=
  Group_eqb (HeTuPoint.group p) center && Polarity_eqb (HeTuPoint.polarity p) pol.

Definition ringRadius : R := 2.5.

Definition yangSequenceValues : list Z := [1; 3; 7; 9]%Z.
Definition yinSequenceValues : list Z := [2; 4; 6; 8]%Z.

Definition SPIRAL_START_R : R := 5.8.
Definition SPIRAL_GROWTH_PER_RAD : R := 2.8.
Definition DOT_ARC_SPACING : R := 0.8.
Definition GROUP_ARC_GAP : R := 1.8.

(** The locals mutated by the [forEach] of [createSpiralArm]. *)
Record SpiralLoop : Type := mkSpiralLoop {
  sl_map : gmap string GalaxyPointConfig;
  sl_currentPhi : R;
  sl_lastNumberVal : Z
}.

Definition spiralGap (lastNumberVal : Z) (p : HeTuPoint) : R :=
  if negb (lastNumberVal =? -1)%Z
  then (if negb (HeTuPoint.numberValue p =? lastNumberVal)%Z
        then GROUP_ARC_GAP else DOT_ARC_SPACING)
  else 0.

Definition spiralPhi (currentPhi : R) (lastNumberVal : Z) (p : HeTuPoint) (i : nat) : R :=
  let r := SPIRAL_START_R + SPIRAL_GROWTH_PER_RAD * currentPhi in
  let gap := spiralGap lastNumberVal p in
  if (0 <? i)%nat then currentPhi + gap / r else currentPhi.

Definition spiralConfig (armOffsetAngle currentPhi : R) : GalaxyPointConfig :=
  let finalR := SPIRAL_START_R + SPIRAL_GROWTH_PER_RAD * currentPhi in
  let finalTheta := armOffsetAngle - currentPhi in
  GalaxyPointConfig.mk ARM finalR finalTheta 0.8 (0.0 + currentPhi * 0.2) 1 None.

Definition spiralBody (armOffsetAngle : R) (s : SpiralLoop) (p : HeTuPoint) (i : nat)
    : SpiralLoop :=
  let currentPhi := spiralPhi (sl_currentPhi s) (sl_lastNumberVal s) p i in
  mkSpiralLoop
    (<[HeTuPoint.id p := spiralConfig armOffsetAngle currentPhi]> (sl_map s))
    currentPhi
    (HeTuPoint.numberValue p).

Definition createSpiralArm (points : list HeTuPoint) (targetSequence : list Z)
    (armOffsetAngle : R) (map : gmap string GalaxyPointConfig)
    : gmap string GalaxyPointConfig :=
  let armPoints := sortHeTuPoints points targetSequence in
  sl_map (forEach armPoints (spiralBody armOffsetAngle) (mkSpiralLoop map 0 (-1))).

Definition coreConfig (p : HeTuPoint) (yOffset : option R) : GalaxyPointConfig :=
  let r := sqrt (HeTuPoint.x p * HeTuPoint.x p + HeTuPoint.y p * HeTuPoint.y p) in
  let theta := atan2 (HeTuPoint.y p) (HeTuPoint.x p) in
  GalaxyPointConfig.mk CORE r theta 0 0 0 yOffset.

Definition ringConfig (count : nat) (i : nat) (yOffset : option R) : GalaxyPointConfig :=
  let angle := INR i / INR count * PI * 2 in
  GalaxyPointConfig.mk RING ringRadius angle 0 0 0 yOffset.

(** The center assembly shared by both maps: CORE entries, then RING entries. *)
Definition centerAssembly (points : list HeTuPoint) (yOffset : option R)
    (map : gmap string GalaxyPointConfig) : gmap string GalaxyPointConfig :=
  let centerCore := List.filter (isCenter YANG) points in
  let map := forEach centerCore
               (fun map p _ => <[HeTuPoint.id p := coreConfig p yOffset]> map) map in
  let earthPoints := List.filter (isCenter YIN) points in
  forEach earthPoints
    (fun map p i => <[HeTuPoint.id p := ringConfig (length earthPoints) i yOffset]> map) map.

Definition generateGalaxyMap (points : list HeTuPoint) : gmap string GalaxyPointConfig :=
  let map := centerAssembly points None ∅ in
  let map := createSpiralArm points yangSequenceValues (- PI / 2) map in
  createSpiralArm points yinSequenceValues (PI / 2) map.

(** ** constants.ts: helix animation configuration *)

Definition HELIX_R_BOTTOM : R := 5.5.
Definition HELIX_R_TOP : R := 15.0.
Definition HELIX_DOT_STEP : R := 0.8.
Definition HELIX_GROUP_GAP : R := 3.5.
Definition RAD_PER_UNIT_HEIGHT : R := 0.35.

(** The height accumulated when the loop reaches [p]; both passes of
    [assignHelixPosition] advance by this rule. *)
Definition helixAdvance (h : R) (lastVal : Z) (p : HeTuPoint) : R :=
  if negb (lastVal =? -1)%Z
  then (if negb (HeTuPoint.numberValue p =? lastVal)%Z
        then h + HELIX_GROUP_GAP else h + HELIX_DOT_STEP)
  else h.

(** First pass: total height of a strand. *)
Definition helixTotalHeight (strandPoints : list HeTuPoint) : R :=
  fst (forEach strandPoints
         (fun (s : R * Z) p _ => (helixAdvance (fst s) (snd s) p, HeTuPoint.numberValue p))
         (0, (-1)%Z)).

Record HelixLoop : Type := mkHelixLoop {
  hl_map : gmap string GalaxyPointConfig;
  hl_currentH : R;
  hl_lastNumberVal : Z
}.

Definition helixConfig (totalH phaseOffset speedDir currentH : R) : GalaxyPointConfig :=
  let startY := - totalH / 2 in
  let progress := if Rlt_dec 0 totalH then currentH / totalH else 0.5 in
  let currentR := HELIX_R_BOTTOM + (HELIX_R_TOP - HELIX_R_BOTTOM) * progress in
  let finalY := startY + currentH in
  let angle := phaseOffset + currentH * RAD_PER_UNIT_HEIGHT in
  GalaxyPointConfig.mk ARM currentR angle speedDir 0 0 (Some finalY).

Definition helixBody (totalH phaseOffset speedDir : R) (s : HelixLoop) (p : HeTuPoint)
    (_ : nat) : HelixLoop :=
  let currentH := helixAdvance (hl_currentH s) (hl_lastNumberVal s) p in
  mkHelixLoop
    (<[HeTuPoint.id p := helixConfig totalH phaseOffset speedDir currentH]> (hl_map s))
    currentH
    (HeTuPoint.numberValue p).

Definition assignHelixPosition (points : list HeTuPoint) (sequence : list Z)
    (phaseOffset speedDir : R) (map : gmap string GalaxyPointConfig)
    : gmap string GalaxyPointConfig :=
  let strandPoints := sortHeTuPoints points sequence in
  let totalH := helixTotalHeight strandPoints in
  hl_map (forEach strandPoints (helixBody totalH phaseOffset speedDir)
            (mkHelixLoop map 0 (-1))).

Definition generateHelixMap (points : list HeTuPoint) : gmap string GalaxyPointConfig :=
  let map := centerAssembly points (Some 0) ∅ in
  let map := assignHelixPosition points [1; 3; 7; 9]%Z 0 (-1.0) map in
  assignHelixPosition points [2; 4; 6; 8]%Z PI (-1.0) map.

(** ** three.js vectors, as far as the sources use them *)

Module Vector3.
Record t : Type := mk { x : R; y : R; z : R }.
End Vector3.
Abbreviation Vector3 := Vector3.t.

(** ** components/HeTuScene.tsx: the interpolation engine *)

Definition SPIN_SIGN : R := -1.
Definition GLOBAL_SPEED : R := 1.0.

Definition getTargetPosition (gConfig : GalaxyPointConfig) (time : R) : Vector3 :=
  let thetaNow := GalaxyPointConfig.thetaStart gConfig
                  + SPIN_SIGN * GalaxyPointConfig.speedFactor gConfig * time in
  match GalaxyPointConfig.yOffset gConfig with
  | Some yOffset =>
      let x := GalaxyPointConfig.r gConfig * cos thetaNow in
      let z := GalaxyPointConfig.r gConfig * sin thetaNow in
      let y := yOffset in
      Vector3.mk x y z
  | None =>
      match GalaxyPointConfig.type gConfig with
      | CORE | RING =>
          let tx := GalaxyPointConfig.r gConfig * cos (GalaxyPointConfig.thetaStart gConfig) in
          let ty := GalaxyPointConfig.r gConfig * sin (GalaxyPointConfig.thetaStart gConfig) in
          Vector3.mk tx ty 0
      | ARM =>
          let x := GalaxyPointConfig.r gConfig * cos thetaNow in
          let y := GalaxyPointConfig.r gConfig * sin thetaNow in
          let z := sin (thetaNow * GalaxyPointConfig.zFreq gConfig)
                   * GalaxyPointConfig.zAmp gConfig in
          Vector3.mk x y z
      end
  end.

Inductive Mode : Set := GALAXY | HELIX | NONE.

(** The [mesh.position.set(...)] of the per-frame update of [AnimatedPoints],
    for a point whose config has been looked up. *)
Definition blendPosition (pt : HeTuPoint) (gConfig : GalaxyPointConfig)
    (time morph : R) : Vector3 :=
  let cx := HeTuPoint.x pt in
  let cy := HeTuPoint.y pt in
  let cz := HeTuPoint.z pt in
  let v := getTargetPosition gConfig time in
  let tx := Vector3.x v in
  let ty := Vector3.y v in
  let tz := Vector3.z v in
  Vector3.mk (cx + (tx - cx) * morph) (cy + (ty - cy) * morph) (cz + (tz - cz) * morph).

(** One iteration of [points.forEach] in the frame callback. Reading a field
    of an absent map entry throws; that outcome is [None]. (The lookup is
    that of the own properties: it is the code's for identifiers that are
    not property names inherited from [Object.prototype]; the catalog has no
    other.) *)
Definition updatePoint (mode : Mode) (galaxyMap helixMap : gmap string GalaxyPointConfig)
    (time morph : R) (pt : HeTuPoint) : option Vector3 :=
  let lookup :=
    match mode with
    | HELIX => helixMap !! HeTuPoint.id pt
    | _ => galaxyMap !! HeTuPoint.id pt
    end in
  match lookup with
  | Some gConfig => Some (blendPosition pt gConfig time morph)
  | None => None
  end.

(** [a < b] on numbers, as a boolean. *)
Definition Rltb (a b : R) : bool := if Rlt_dec a b then true else false.

(** The methods of [THREE.Vector3] that the sources call (three.js is a
    library the repository depends on). *)
Module V3.
Definition lengthSq (v : Vector3) : R :=
  Vector3.x v * Vector3.x v + Vector3.y v * Vector3.y v + Vector3.z v * Vector3.z v.

Definition length (v : Vector3) : R := sqrt (lengthSq v).

Definition multiplyScalar (v : Vector3) (s : R) : Vector3 :=
  Vector3.mk (Vector3.x v * s) (Vector3.y v * s) (Vector3.z v * s).

Definition divideScalar (v : Vector3) (s : R) : Vector3 := multiplyScalar v (1 / s).

(** [divideScalar(this.length() || 1)] *)
Definition normalize (v : Vector3) : Vector3 :=
  divideScalar v (if Req_dec_T (length v) 0 then 1 else length v).

Definition dot (a b : Vector3) : R :=
  Vector3.x a * Vector3.x b + Vector3.y a * Vector3.y b + Vector3.z a * Vector3.z b.

Definition add (a b : Vector3) : Vector3 :=
  Vector3.mk (Vector3.x a + Vector3.x b) (Vector3.y a + Vector3.y b)
             (Vector3.z a + Vector3.z b).

Definition lerp (a v : Vector3) (alpha : R) : Vector3 :=
  Vector3.mk (Vector3.x a + (Vector3.x v - Vector3.x a) * alpha)
             (Vector3.y a + (Vector3.y v - Vector3.y a) * alpha)
             (Vector3.z a + (Vector3.z v - Vector3.z a) * alpha).
End V3.

(** [THREE.Quaternion], as far as [generateLoShuPoints] uses it. *)
Module Quaternion.
Record t : Type := mk { x : R; y : R; z : R; w : R }.

Definition identity : t := mk 0 0 0 1.

Definition length (q : t) : R := sqrt (x q * x q + y q * y q + z q * z q + w q * w q).

Definition normalize (q : t) : t :=
  let l := length q in
  if Req_dec_T l 0 then mk 0 0 0 1
  else let l := 1 / l in mk (x q * l) (y q * l) (z q * l) (w q * l).

(** [Number.EPSILON] *)
Definition EPSILON : R := / IZR (2 ^ 52).

Definition setFromUnitVectors (vFrom vTo : Vector3) : t :=
  let r := V3.dot vFrom vTo + 1 in
  normalize
    (if Rltb r EPSILON then
       if Rltb (Rabs (Vector3.z vFrom)) (Rabs (Vector3.x vFrom))
       then mk (- Vector3.y vFrom) (Vector3.x vFrom) 0 0
       else mk 0 (- Vector3.z vFrom) (Vector3.y vFrom) 0
     else
       mk (Vector3.y vFrom * Vector3.z vTo - Vector3.z vFrom * Vector3.y vTo)
          (Vector3.z vFrom * Vector3.x vTo - Vector3.x vFrom * Vector3.z vTo)
          (Vector3.x vFrom * Vector3.y vTo - Vector3.y vFrom * Vector3.x vTo)
          r).

(** [Vector3.applyQuaternion] *)
Definition applyTo (v : Vector3) (q : t) : Vector3 :=
  let vx := Vector3.x v in
  let vy := Vector3.y v in
  let vz := Vector3.z v in
  let tx := 2 * (y q * vz - z q * vy) in
  let ty := 2 * (z q * vx - x q * vz) in
  let tz := 2 * (x q * vy - y q * vx) in
  Vector3.mk (vx + w q * tx + y q * tz - z q * ty)
             (vy + w q * ty + z q * tx - x q * tz)
             (vz + w q * tz + x q * ty - y q * tx).
End Quaternion.

(** ** constants.ts: Lo Shu constants and generation *)

Definition LOSHU_GRID_SIZE : R := 12.
Definition SPHERE_RADIUS : R := 18.

(** [obj[n]] for an object literal with number keys: the entry of key [n],
    [None] (undefined) when there is none. *)
Definition lookupKey {A : Type} (entries : list (Z * A)) (n : Z) : option A :=
  match List.find (fun e => (fst e =? n)%Z) entries with
  | Some e => Some (snd e)
  | None => None
  end.

Definition TRIGRAMS (n : Z) : option string :=
  lookupKey [(1, "坎"); (2, "坤"); (3, "震"); (4, "巽"); (5, "中"); (6, "乾"); (7, "兑");
             (8, "艮"); (9, "离")]%Z n.

Definition DIRECTIONS (n : Z) : option string :=
  lookupKey [(1, "北"); (2, "西南"); (3, "东"); (4, "东南"); (5, "中"); (6, "西北");
             (7, "西"); (8, "东北"); (9, "南")]%Z n.

(** [const D = R * 0.577] with [R = SPHERE_RADIUS] *)
Definition D : R := SPHERE_RADIUS * 0.577.
Definition D_CROSS : R := SPHERE_RADIUS * 0.707.

(** The object literal [LOSHU_ANCHORS], in the order of its keys in the source. *)
Definition LOSHU_ANCHORS_entries : list (Z * Vector3) :=
  [ (9%Z, Vector3.mk 0 SPHERE_RADIUS 0);
    (1%Z, Vector3.mk 0 (- SPHERE_RADIUS) 0);
    (3%Z, Vector3.mk (- D_CROSS) 0 (- D_CROSS));
    (7%Z, Vector3.mk D_CROSS 0 D_CROSS);
    (4%Z, Vector3.mk (- D) D (- D));
    (2%Z, Vector3.mk D D D);
    (8%Z, Vector3.mk (- D) (- D) (- D));
    (6%Z, Vector3.mk D (- D) D);
    (5%Z, Vector3.mk 0 0 0) ].

(** [LOSHU_ANCHORS[n]] *)
Definition LOSHU_ANCHORS (n : Z) : option Vector3 := lookupKey LOSHU_ANCHORS_entries n.

Definition rotate2D (x y angleRad : R) : R * R :=
  let cos := cos angleRad in
  let sin := sin angleRad in
  (x * cos - y * sin, x * sin + y * cos).

(** *** Path generation *)

Definition getPos (radiusScale : R) (anchor : Vector3) : Vector3 :=
  if Rltb (V3.lengthSq anchor) 0.1 then Vector3.mk 0 0 0
  else V3.multiplyScalar (V3.normalize anchor) (SPHERE_RADIUS * radiusScale).

(** The spherical branch of the inner loop, before it is scaled back. *)
Definition slerpVec (nStart nEnd : Vector3) (t : R) : Vector3 :=
  let dot := Rmax (-1) (Rmin 1 (V3.dot nStart nEnd)) in
  let theta := acos dot in
  if Rltb (Rabs theta) 0.0001 then V3.lerp nStart nEnd t
  else
    let sinTheta := sin theta in
    let w1 := sin ((1 - t) * theta) / sinTheta in
    let w2 := sin (t * theta) / sinTheta in
    V3.add (V3.multiplyScalar nStart w1) (V3.multiplyScalar nEnd w2).

(** The vector pushed by iteration [j] of the inner loop of a leg. *)
Definition legSample (startAnchor endAnchor : Vector3) (radiusScale : R)
    (segmentsPerLeg j : nat) : Vector3 :=
  let isStartCenter := Rltb (V3.lengthSq startAnchor) 0.1 in
  let isEndCenter := Rltb (V3.lengthSq endAnchor) 0.1 in
  let vStart := getPos radiusScale startAnchor in
  let vEnd := getPos radiusScale endAnchor in
  let t := INR j / INR segmentsPerLeg in
  if isStartCenter || isEndCenter then V3.lerp vStart vEnd t
  else
    let nStart := V3.normalize vStart in
    let nEnd := V3.normalize vEnd in
    let vec := slerpVec nStart nEnd t in
    V3.multiplyScalar (V3.normalize vec) (SPHERE_RADIUS * radiusScale).

(** The outer loop over the legs; [None] when an anchor is undefined (the
    method call on it throws). *)
Fixpoint energyLegs (sequence : list Z) (radiusScale : R) (segmentsPerLeg : nat)
    : option (list Vector3) :=
  match sequence with
  | startNum :: ((endNum :: _) as rest) =>
      match LOSHU_ANCHORS startNum, LOSHU_ANCHORS endNum with
      | Some startAnchor, Some endAnchor =>
          match energyLegs rest radiusScale segmentsPerLeg with
          | Some more =>
              Some (forPush segmentsPerLeg
                      (legSample startAnchor endAnchor radiusScale segmentsPerLeg) ++ more)
          | None => None
          end
      | _, _ => None
      end
  | _ => Some []
  end.

Definition generateLoShuEnergyPath (sequence : list Z) (radiusScale : R)
    (segmentsPerLeg : nat) : option (list Vector3) :=
  match energyLegs sequence radiusScale segmentsPerLeg with
  | Some points =>
      match List.last (List.map LOSHU_ANCHORS sequence) None with
      | Some lastAnchor => Some (points ++ [getPos radiusScale lastAnchor])
      | None => None
      end
  | None => None
  end.

(** The default arguments of [generateLoShuEnergyPath]. *)
Definition defaultEnergySequence : list Z := [1; 2; 3; 4; 5; 6; 7; 8; 9; 1]%Z.
Definition defaultRadiusScale : R := 1.15.
Definition defaultSegmentsPerLeg : nat := 64.

(** *** Dot generation *)

Definition gap : R := 1.3.

(** Step 1 of [generateLoShuPoints]: the pattern in 2D local space. *)
Definition loShuOffsets (num : Z) : list (R * R) :=
  if (num =? 1)%Z then [(0, 0)]
  else if (num =? 2)%Z then [(- gap / 1.5, - gap / 1.5); (gap / 1.5, gap / 1.5)]
  else if (num =? 3)%Z then [(0, gap); (0, 0); (0, - gap)]
  else if (num =? 4)%Z then
    [(0, gap * 1.2); (gap * 1.2, 0); (0, - gap * 1.2); (- gap * 1.2, 0)]
  else if (num =? 5)%Z then
    [(0, 0); (0, gap * 0.6); (0, - gap * 0.6); (- gap * 0.6, 0); (gap * 0.6, 0)]
  else if (num =? 6)%Z then
    let w := gap * 0.8 in
    let h := gap * 0.8 in
    let raw := [(- w, h * 2); (w, h * 2); (w, 0); (w, - h * 2); (- w, - h * 2); (- w, 0)] in
    List.map (fun o => rotate2D (fst o) (snd o) (PI / 4)) raw
  else if (num =? 7)%Z then
    (* for (k = 3; k >= -3; k--) *)
    List.map (fun k => (0, IZR k * gap * 0.6)) [3; 2; 1; 0; -1; -2; -3]%Z
  else if (num =? 8)%Z then
    let w := gap * 0.8 in
    let h := gap * 0.6 in
    let raw := [(- w, h * 3); (w, h * 3); (w, h); (w, - h); (w, - h * 3);
                (- w, - h * 3); (- w, - h); (- w, h)] in
    List.map (fun o => rotate2D (fst o) (snd o) (- PI / 4)) raw
  else if (num =? 9)%Z then
    (* for (k = -4; k <= 4; k++) *)
    List.map (fun k => (IZR k * gap * 0.6, 0)) [-4; -3; -2; -1; 0; 1; 2; 3; 4]%Z
  else [].

Definition memZ (n : Z) (l : list Z) : bool := existsb (Z.eqb n) l.

(** Steps 2 and 3: the sphere position of one offset. *)
Definition loShuSpherePos (num : Z) (anchorPos : Vector3) (off : R * R) : Vector3 :=
  let isCenter := (num =? 5)%Z in
  let quaternion :=
    if negb isCenter then
      let targetNormal := V3.normalize anchorPos in
      Quaternion.setFromUnitVectors (Vector3.mk 0 0 1) targetNormal
    else Quaternion.identity in
  if isCenter then Vector3.mk (fst off) (snd off) 0
  else
    let localVec := Vector3.mk (fst off) (snd off) SPHERE_RADIUS in
    let localVec := V3.multiplyScalar (V3.normalize localVec) SPHERE_RADIUS in
    Quaternion.applyTo localVec quaternion.

Definition loShuPoint (num : Z) (anchorPos : Vector3) (off : R * R) (i : nat)
    : LoShuPointData :=
  let isYang := negb (num mod 2 =? 0)%Z in
  let spherePosVec := loShuSpherePos num anchorPos off in
  let gx : R := if memZ num [3; 4; 8]%Z then -1 else if memZ num [7; 2; 6]%Z then 1 else 0 in
  let gy : R := if memZ num [9; 4; 2]%Z then 1 else if memZ num [1; 8; 6]%Z then -1 else 0 in
  let planeBaseX := gx * LOSHU_GRID_SIZE in
  let planeBaseY := gy * LOSHU_GRID_SIZE in
  let planePos := (planeBaseX + fst off, planeBaseY + snd off, 0) in
  LoShuPointData.mk
    ("ls-" +:+ showZ num +:+ "-" +:+ showNat i)
    num
    (if isYang then YANG else YIN)
    planePos
    (Vector3.x spherePosVec, Vector3.y spherePosVec, Vector3.z spherePosVec)
    (if (i =? 0)%nat then TRIGRAMS num else None)
    (if (i =? 0)%nat then DIRECTIONS num else None).

(** The points pushed for one number; [None] when its anchor is undefined. *)
Definition loShuGroup (num : Z) : option (list LoShuPointData) :=
  match LOSHU_ANCHORS num with
  | Some anchorPos =>
      Some (forEach (loShuOffsets num)
              (fun points off i => points ++ [loShuPoint num anchorPos off i]) [])
  | None => None
  end.

Definition loShuNumbers : list Z := [1; 2; 3; 4; 5; 6; 7; 8; 9]%Z.

Definition generateLoShuPoints : option (list LoShuPointData) :=
  forEach loShuNumbers
    (fun points num _ =>
       match points, loShuGroup num with
       | Some points, Some group => Some (points ++ group)
       | _, _ => None
       end)
    (Some []).

(** ** App.tsx: the He Tu animation state machine *)

Inductive LastMode : Set := LAST_GALAXY | LAST_HELIX.

(** The three functional updates handed to [setTimeout]:
    [curr => curr === MORPHING ? RUNNING : curr] and its two siblings. *)
Inductive TimerCallback : Set :=
| advanceToRunning | advanceToHelixRunning | advanceToStatic.

Definition AnimationState_eqb (a b : AnimationState) : bool :=
  match a, b with
  | STATIC, STATIC | MORPHING, MORPHING | RUNNING, RUNNING | RETURNING, RETURNING
  | PAUSED, PAUSED | HELIX_MORPHING, HELIX_MORPHING | HELIX_RUNNING, HELIX_RUNNING
  | HELIX_PAUSED, HELIX_PAUSED => true
  | _, _ => false
  end.

Definition runTimerCallback (cb : TimerCallback) (curr : AnimationState) : AnimationState :=
  match cb with
  | advanceToRunning => if AnimationState_eqb curr MORPHING then RUNNING else curr
  | advanceToHelixRunning =>
      if AnimationState_eqb curr HELIX_MORPHING then HELIX_RUNNING else curr
  | advanceToStatic => if AnimationState_eqb curr RETURNING then STATIC else curr
  end.

(** The He Tu part of the component state, the timers the browser holds for
    it (in the order they were set, each with the time it is due, in
    milliseconds) and the browser clock. Every delay is the same constant, so
    the order of setting is the order of firing. *)
Record App : Type := mkApp {
  animState : AnimationState;
  lastMode : LastMode;
  timers : list (nat * TimerCallback);
  clock : nat
}.

Definition MORPH_MS : nat := 1000.

Definition setAnimState (s : AnimationState) (app : App) : App :=
  mkApp s (lastMode app) (timers app) (clock app).

Definition setLastMode (m : LastMode) (app : App) : App :=
  mkApp (animState app) m (timers app) (clock app).

Definition setTimeout (cb : TimerCallback) (delay : nat) (app : App) : App :=
  mkApp (animState app) (lastMode app) (timers app ++ [((clock app + delay)%nat, cb)])
        (clock app).

Definition isHelixState (s : AnimationState) : bool :=
  match s with HELIX_RUNNING | HELIX_PAUSED | HELIX_MORPHING => true | _ => false end.

Definition isGalaxyState (s : AnimationState) : bool :=
  match s with RUNNING | PAUSED | MORPHING => true | _ => false end.

Definition handleGalaxyClick (app : App) : App :=
  if isHelixState (animState app) then
    setTimeout advanceToRunning MORPH_MS (setAnimState MORPHING (setLastMode LAST_GALAXY app))
  else
    let app' := setLastMode LAST_GALAXY app in
    match animState app with
    | STATIC | RETURNING => setTimeout advanceToRunning MORPH_MS (setAnimState MORPHING app')
    | RUNNING => setAnimState PAUSED app'
    | PAUSED => setAnimState RUNNING app'
    | _ => app'
    end.

Definition handleHelixClick (app : App) : App :=
  if isGalaxyState (animState app) then
    setTimeout advanceToHelixRunning MORPH_MS
      (setAnimState HELIX_MORPHING (setLastMode LAST_HELIX app))
  else
    let app' := setLastMode LAST_HELIX app in
    match animState app with
    | STATIC | RETURNING =>
        setTimeout advanceToHelixRunning MORPH_MS (setAnimState HELIX_MORPHING app')
    | HELIX_RUNNING => setAnimState HELIX_PAUSED app'
    | HELIX_PAUSED => setAnimState HELIX_RUNNING app'
    | _ => app'
    end.

Definition handleReset (app : App) : App :=
  if negb (AnimationState_eqb (animState app) STATIC) then
    let app' :=
      if isHelixState (animState app) then setLastMode LAST_HELIX app
      else setLastMode LAST_GALAXY app in
    setTimeout advanceToStatic MORPH_MS (setAnimState RETURNING app')
  else app.

Definition isDue (now : nat) (t : nat * TimerCallback) : bool := (fst t <=? now)%nat.

(** [ms] milliseconds pass with no user input: the timers that have become
    due run, in order, and leave the queue. *)
Definition elapse (ms : nat) (app : App) : App :=
  let now := (clock app + ms)%nat in
  let due := List.filter (isDue now) (timers app) in
  mkApp (fold_left (fun s t => runTimerCallback (snd t) s) due (animState app))
        (lastMode app)
        (List.filter (fun t => negb (isDue now t)) (timers app))
        now.

(** The initial state of the component. *)
Definition initialApp : App := mkApp STATIC LAST_GALAXY [] 0.

(** ** JavaScript objects used as maps *)

(** The property names every plain object inherits from [Object.prototype]:
    reading one of them from an object that has no own property of the name
    gives the inherited value and not [undefined], and assigning to
    [__proto__] creates no own property. *)
Definition objectPrototypeKeys : list string :=
  [ "constructor"; "hasOwnProperty"; "isPrototypeOf"; "propertyIsEnumerable";
    "toLocaleString"; "toString"; "valueOf"; "__proto__"; "__defineGetter__";
    "__defineSetter__"; "__lookupGetter__"; "__lookupSetter__" ].

(** The key is not an inherited property name: on such keys an object used
    as a map is the map of its own properties. *)
Definition ownKey (k : string) : bool :=
  negb (existsb (String.eqb k) objectPrototypeKeys).

(** [Number.isSafeInteger]: the integers that are exact as numbers; used as a
    key, such a number is its decimal string, which [parseInt] reads back. *)
Definition safeInteger (n : Z) : bool := (Z.abs n <? 2 ^ 53)%Z.

(** ** App.tsx: the rest of the component state *)

Definition getGalaxyButtonText (app : App) : string :=
  match animState app, lastMode app with
  | RETURNING, LAST_GALAXY => "归位中..."
  | MORPHING, _ => "演化中..."
  | RUNNING, _ => "暂停阴阳"
  | PAUSED, _ => "继续阴阳"
  | _, _ => "阴阳"
  end.

Definition getHelixButtonText (app : App) : string :=
  match animState app, lastMode app with
  | RETURNING, LAST_HELIX => "归位中..."
  | HELIX_MORPHING, _ => "演化中..."
  | HELIX_RUNNING, _ => "暂停双螺旋"
  | HELIX_PAUSED, _ => "继续双螺旋"
  | _, _ => "双螺旋"
  end.

(** A user intent on the He Tu controls, or time passing. *)
Inductive Event : Set :=
| GalaxyClick | HelixClick | ResetClick | Wait (ms : nat).

Definition step (app : App) (e : Event) : App :=
  match e with
  | GalaxyClick => handleGalaxyClick app
  | HelixClick => handleHelixClick app
  | ResetClick => handleReset app
  | Wait ms => elapse ms app
  end.

Definition runEvents (events : list Event) (app : App) : App := fold_left step events app.

Inductive LoShuMorphState : Set := PLANE | SPHERE | PROJECTION.

Inductive LayerKey : Set := dots | numbers | trigrams | directions | lines.

Module LoShuLayerState.
Record t : Type := mk {
  dots : bool;
  numbers : bool;
  trigrams : bool;
  directions : bool;
  lines : bool
}.
End LoShuLayerState.
Abbreviation LoShuLayerState := LoShuLayerState.t.

(** [layers[key]] *)
Definition getLayer (layers : LoShuLayerState) (key : LayerKey) : bool :=
  match key with
  | dots => LoShuLayerState.dots layers
  | numbers => LoShuLayerState.numbers layers
  | trigrams => LoShuLayerState.trigrams layers
  | directions => LoShuLayerState.directions layers
  | lines => LoShuLayerState.lines layers
  end.

(** [{ ...prev, [key]: value }] *)
Definition setLayer (layers : LoShuLayerState) (key : LayerKey) (value : bool)
    : LoShuLayerState :=
  match key with
  | dots => LoShuLayerState.mk value (LoShuLayerState.numbers layers)
              (LoShuLayerState.trigrams layers) (LoShuLayerState.directions layers)
              (LoShuLayerState.lines layers)
  | numbers => LoShuLayerState.mk (LoShuLayerState.dots layers) value
                 (LoShuLayerState.trigrams layers) (LoShuLayerState.directions layers)
                 (LoShuLayerState.lines layers)
  | trigrams => LoShuLayerState.mk (LoShuLayerState.dots layers)
                  (LoShuLayerState.numbers layers) value
                  (LoShuLayerState.directions layers) (LoShuLayerState.lines layers)
  | directions => LoShuLayerState.mk (LoShuLayerState.dots layers)
                    (LoShuLayerState.numbers layers) (LoShuLayerState.trigrams layers)
                    value (LoShuLayerState.lines layers)
  | lines => LoShuLayerState.mk (LoShuLayerState.dots layers)
               (LoShuLayerState.numbers layers) (LoShuLayerState.trigrams layers)
               (LoShuLayerState.directions layers) value
  end.

(** The Lo Shu part of the component state. *)
Record LoShuApp : Type := mkLoShuApp {
  lsMorph : LoShuMorphState;
  lsRunning : bool;
  lsSphereRotating : bool;
  lsLayers : LoShuLayerState
}.

Definition defaultLayers : LoShuLayerState := LoShuLayerState.mk true false false false false.

Definition initialLoShuApp : LoShuApp := mkLoShuApp PLANE false false defaultLayers.

Definition toggleLayer (key : LayerKey) (s : LoShuApp) : LoShuApp :=
  mkLoShuApp (lsMorph s) (lsRunning s) (lsSphereRotating s)
    (setLayer (lsLayers s) key (negb (getLayer (lsLayers s) key))).

Definition handleLoShuReset (s : LoShuApp) : LoShuApp :=
  mkLoShuApp PLANE false false (LoShuLayerState.mk true false false false false).

(** The click handler of the morph button. *)
Definition toggleMorph (s : LoShuApp) : LoShuApp :=
  mkLoShuApp (match lsMorph s with PLANE => SPHERE | _ => PLANE end)
    (lsRunning s) (lsSphereRotating s) (lsLayers s).

(** The click handlers of the flying-star and the run button; the buttons are
    disabled in PLANE. *)
Definition toggleRunning (s : LoShuApp) : LoShuApp :=
  mkLoShuApp (lsMorph s) (negb (lsRunning s)) (lsSphereRotating s) (lsLayers s).

Definition toggleSphereRotating (s : LoShuApp) : LoShuApp :=
  mkLoShuApp (lsMorph s) (lsRunning s) (negb (lsSphereRotating s)) (lsLayers s).

(** The clicks on the Lo Shu controls. *)
Inductive LoShuEvent : Set :=
  | MorphClick | FlyingStarClick | RunClick | LayerClick (key : LayerKey) | LoShuResetClick.

(** One click; the flying-star and the run button are disabled in PLANE, and
    a disabled button does not react. *)
Definition loShuStep (s : LoShuApp) (e : LoShuEvent) : LoShuApp :=
  match e with
  | MorphClick => toggleMorph s
  | FlyingStarClick => match lsMorph s with PLANE => s | _ => toggleRunning s end
  | RunClick => match lsMorph s with PLANE => s | _ => toggleSphereRotating s end
  | LayerClick key => toggleLayer key s
  | LoShuResetClick => handleLoShuReset s
  end.

Definition runLoShuEvents (events : list LoShuEvent) (s : LoShuApp) : LoShuApp :=
  fold_left loShuStep events s.

(** ** components/HeTuScene.tsx: the connecting line and the frame loop *)

Definition SEGMENTS_PER_LINK : nat := 16.

(** An entry [{ pA, pB, t }] of the vertex map of [PointLine]. *)
Record LineVertex : Type := mkLineVertex {
  lv_pA : HeTuPoint;
  lv_pB : HeTuPoint;
  lv_t : R
}.

(** The entries pushed by the two nested loops over the links. *)
Fixpoint linkVertices (sortedPoints : list HeTuPoint) : list LineVertex :=
  match sortedPoints with
  | pA :: ((pB :: _) as rest) =>
      forPush SEGMENTS_PER_LINK
        (fun j => mkLineVertex pA pB (INR j / INR SEGMENTS_PER_LINK))
      ++ linkVertices rest
  | _ => []
  end.

(** [vertexMap]: the entries of the links, then the entry of the last point.
    With no point at all, [last] is undefined and the last entry holds
    undefined points: that entry is [None]. *)
Definition vertexMap (sortedPoints : list HeTuPoint) : list (option LineVertex) :=
  List.map Some (linkVertices sortedPoints)
  ++ [match List.last (List.map Some sortedPoints) None with
      | Some last => Some (mkLineVertex last last 0)
      | None => None
      end].

(** [totalVertices], the length of the array the line is created with. *)
Definition totalVertices (sortedPoints : list HeTuPoint) : Z :=
  ((Z.of_nat (List.length sortedPoints) - 1) * Z.of_nat SEGMENTS_PER_LINK + 1)%Z.

(** [a ?? d] on an optional number. *)
Definition orElse (a : option R) (d : R) : R :=
  match a with Some v => v | None => d end.

(** [modeRef.current === 'HELIX']. *)
Definition isHelixMode (mode : Mode) : bool :=
  match mode with HELIX => true | _ => false end.

(** The three numbers pushed for one vertex by the frame callback of
    [PointLine]; [None] when a config is absent from its map (reading its
    fields throws). *)
Definition linePosition (isHelix : bool) (galaxyMap helixMap : gmap string GalaxyPointConfig)
    (time morph : R) (v : LineVertex) : option Vector3 :=
  let pA := lv_pA v in
  let pB := lv_pB v in
  let t := lv_t v in
  let cx := HeTuPoint.x pA + (HeTuPoint.x pB - HeTuPoint.x pA) * t in
  let cy := HeTuPoint.y pA + (HeTuPoint.y pB - HeTuPoint.y pA) * t in
  let cz := HeTuPoint.z pA + (HeTuPoint.z pB - HeTuPoint.z pA) * t in
  let target :=
    if isHelix then
      match helixMap !! HeTuPoint.id pA, helixMap !! HeTuPoint.id pB with
      | Some confA, Some confB =>
          let r := GalaxyPointConfig.r confA
                   + (GalaxyPointConfig.r confB - GalaxyPointConfig.r confA) * t in
          let yA := orElse (GalaxyPointConfig.yOffset confA) 0 in
          let yB := orElse (GalaxyPointConfig.yOffset confB) 0 in
          let y := yA + (yB - yA) * t in
          let thetaA := GalaxyPointConfig.thetaStart confA in
          let thetaB := GalaxyPointConfig.thetaStart confB in
          let theta := thetaA + (thetaB - thetaA) * t in
          let thetaNow := theta + SPIN_SIGN * GalaxyPointConfig.speedFactor confA * time in
          Some (Vector3.mk (r * cos thetaNow) y (r * sin thetaNow))
      | _, _ => None
      end
    else
      match galaxyMap !! HeTuPoint.id pA, galaxyMap !! HeTuPoint.id pB with
      | Some confA, Some confB =>
          let vA := getTargetPosition confA time in
          let vB := getTargetPosition confB time in
          Some (Vector3.mk (Vector3.x vA + (Vector3.x vB - Vector3.x vA) * t)
                           (Vector3.y vA + (Vector3.y vB - Vector3.y vA) * t)
                           (Vector3.z vA + (Vector3.z vB - Vector3.z vA) * t))
      | _, _ => None
      end in
  match target with
  | Some tv =>
      Some (Vector3.mk (cx + (Vector3.x tv - cx) * morph)
                       (cy + (Vector3.y tv - cy) * morph)
                       (cz + (Vector3.z tv - cz) * morph))
  | None => None
  end.

(** The refs of [AnimatedPoints]. [easing.damp] keeps the velocity of the
    damped value on the ref object it damps. *)
Record FrameRefs : Type := mkFrameRefs {
  timeRef : R;
  morphRef : R;
  morphVelocity : R;
  modeRef : Mode
}.

Definition isRunningState (s : AnimationState) : bool :=
  match s with RUNNING | HELIX_RUNNING => true | _ => false end.

Section Frame.
(** [easing.damp] of the maath library, as the function from the current
    value and velocity, the target, the smooth time and the frame delta to the
    new value and velocity. *)
Variable damp : R * R -> R -> R -> R -> R * R.

(** Steps 1 and 2 of the frame callback of [AnimatedPoints]. *)
Definition frameStep (refs : FrameRefs) (frame : AnimationState * R) : FrameRefs :=
  let animState := fst frame in
  let delta := snd frame in
  let modeAndTarget :=
    match animState with
    | STATIC | RETURNING => (modeRef refs, 0)
    | HELIX_MORPHING | HELIX_RUNNING | HELIX_PAUSED => (HELIX, 1)
    | _ => (GALAXY, 1)
    end in
  let morph := damp (morphRef refs, morphVelocity refs) (snd modeAndTarget) 0.8 delta in
  let time :=
    if isRunningState animState then timeRef refs + delta * GLOBAL_SPEED
    else timeRef refs in
  mkFrameRefs time (fst morph) (snd morph) (fst modeAndTarget).

Definition runFrames (frames : list (AnimationState * R)) (refs : FrameRefs) : FrameRefs :=
  fold_left frameStep frames refs.
End Frame.

(** The refs at mount. *)
Definition initialRefs : FrameRefs := mkFrameRefs 0 0 0 NONE.

(** ** components/LoShuScene.tsx: the dots and the centers of their groups *)

(** [new THREE.Vector3(...pos)] *)
Definition vec3 (pos : R * R * R) : Vector3 :=
  Vector3.mk (fst (fst pos)) (snd (fst pos)) (snd pos).

(** The position the frame callback of [DotGroup] sets the mesh of a point
    to, at the morph level [m]. *)
Definition dotPosition (pt : LoShuPointData) (m : R) : Vector3 :=
  let cx := fst (fst (LoShuPointData.planePos pt)) in
  let cy := snd (fst (LoShuPointData.planePos pt)) in
  let cz := snd (LoShuPointData.planePos pt) in
  let tx := fst (fst (LoShuPointData.spherePos pt)) in
  let ty := snd (fst (LoShuPointData.spherePos pt)) in
  let tz := snd (LoShuPointData.spherePos pt) in
  Vector3.mk (cx + (tx - cx) * m) (cy + (ty - cy) * m) (cz + (tz - cz) * m).

(** An entry of [centers] in [useGroupCenters]. *)
Record GroupCenter : Type := mkGroupCenter {
  gc_plane : Vector3;
  gc_sphere : Vector3;
  gc_trigram : option string;
  gc_direction : option string
}.

(** The body of [points.forEach] in [useGroupCenters], on the two records
    [centers] and [counts]. The entry of the group is present when it is
    updated, the branch before creates it. *)
Definition addToCenter (s : gmap Z GroupCenter * gmap Z nat) (pt : LoShuPointData)
    : gmap Z GroupCenter * gmap Z nat :=
  let n := LoShuPointData.numberValue pt in
  let centers := fst s in
  let counts := snd s in
  let created :=
    match centers !! n with
    | None =>
        (<[n := mkGroupCenter (Vector3.mk 0 0 0) (Vector3.mk 0 0 0)
                  (LoShuPointData.trigram pt) (LoShuPointData.direction pt)]> centers,
         <[n := 0%nat]> counts)
    | Some _ => (centers, counts)
    end in
  (alter (fun c => mkGroupCenter
                     (V3.add (gc_plane c) (vec3 (LoShuPointData.planePos pt)))
                     (V3.add (gc_sphere c) (vec3 (LoShuPointData.spherePos pt)))
                     (gc_trigram c) (gc_direction c))
         n (fst created),
   alter Datatypes.S n (snd created)).

(** [useGroupCenters]: the sums, then the division of every entry by the
    count of its group (every entry of [centers] has one). The keys are the
    group values: the code goes through their decimal strings and
    [parseInt], which gives a safe integer back. *)
Definition useGroupCenters (points : list LoShuPointData) : gmap Z GroupCenter :=
  let sums := forEach points (fun s pt _ => addToCenter s pt) (∅, ∅) in
  map_imap
    (fun k c =>
       match snd sums !! k with
       | Some count =>
           Some (mkGroupCenter (V3.divideScalar (gc_plane c) (INR count))
                               (V3.divideScalar (gc_sphere c) (INR count))
                               (gc_trigram c) (gc_direction c))
       | None => None
       end)
    (fst sums).

(** The position the frame callback of [SingleLabel] sets the label of a
    group to, at the morph level [m]. *)
Definition labelPosition (data : GroupCenter) (m : R) : Vector3 :=
  let p := gc_plane data in
  let s := gc_sphere data in
  let dir := V3.normalize s in
  let spherePos := V3.multiplyScalar dir 23 in
  Vector3.mk (Vector3.x p + (Vector3.x spherePos - Vector3.x p) * m)
             (Vector3.y p + (Vector3.y spherePos - Vector3.y p) * m)
             (Vector3.z p + (Vector3.z spherePos - Vector3.z p) * m).

(** *** The path of [EnergySystem] *)

(** [a.addScaledVector(v, s)] *)
Definition addScaledVector (a v : Vector3) (s : R) : Vector3 :=
  Vector3.mk (Vector3.x a + Vector3.x v * s) (Vector3.y a + Vector3.y v * s)
             (Vector3.z a + Vector3.z v * s).

Definition energySegments : nat := 12.

(** [createArc]: a quadratic Bezier curve, each point pushed out to the
    radius [R * 1.05]; the loop runs for [i <= segments]. *)
Definition createArc (start end_ control : Vector3) : list Vector3 :=
  forPush (Datatypes.S energySegments)
    (fun i =>
       let t := INR i / INR energySegments in
       let p := addScaledVector
                  (addScaledVector
                     (addScaledVector (Vector3.mk 0 0 0) start ((1 - t) * (1 - t)))
                     control (2 * (1 - t) * t))
                  end_ (t * t) in
       V3.multiplyScalar (V3.normalize p) (SPHERE_RADIUS * 1.05)).

Definition getShortestPathControl (s e : Vector3) (scale : R) : Vector3 :=
  V3.multiplyScalar (V3.normalize (V3.add s e)) (SPHERE_RADIUS * scale).

(** The straight legs of the dive, by [lerpVectors]. *)
Definition diveLeg (a b : Vector3) : list Vector3 :=
  forPush (Datatypes.S energySegments)
    (fun i => V3.lerp a b (INR i / INR energySegments)).

(** [addPoints]: all the points for the first piece, all but the first for
    the following ones. *)
Definition addPoints (fullPath pts : list Vector3) : list Vector3 :=
  if (0 <? List.length fullPath)%nat then fullPath ++ List.tl pts else fullPath ++ pts.

(** [pathPoints] of [EnergySystem]: empty without the centers of 1 and 9;
    [None] when the center of another number is read and is undefined. *)
Definition energyPathPoints (centers : gmap Z GroupCenter) : option (list Vector3) :=
  match centers !! 1%Z, centers !! 9%Z with
  | Some c1, Some c9 =>
      match centers !! 2%Z, centers !! 3%Z, centers !! 4%Z, centers !! 5%Z,
            centers !! 6%Z, centers !! 7%Z, centers !! 8%Z with
      | Some c2, Some c3, Some c4, Some c5, Some c6, Some c7, Some c8 =>
          let R := SPHERE_RADIUS in
          let fullPath := [] in
          let fullPath := addPoints fullPath
            (createArc (gc_sphere c1) (gc_sphere c2) (Vector3.mk 0 0 (R * 1.8))) in
          let fullPath := addPoints fullPath
            (createArc (gc_sphere c2) (gc_sphere c3)
               (Vector3.mk (R * 1.5) (R * 0.6) (- R * 1.5))) in
          let fullPath := addPoints fullPath
            (createArc (gc_sphere c3) (gc_sphere c4)
               (getShortestPathControl (gc_sphere c3) (gc_sphere c4) 1.2)) in
          let fullPath := addPoints fullPath (diveLeg (gc_sphere c4) (gc_sphere c5)) in
          let fullPath := addPoints fullPath (diveLeg (gc_sphere c5) (gc_sphere c6)) in
          let fullPath := addPoints fullPath
            (createArc (gc_sphere c6) (gc_sphere c7)
               (getShortestPathControl (gc_sphere c6) (gc_sphere c7) 1.2)) in
          let fullPath := addPoints fullPath
            (createArc (gc_sphere c7) (gc_sphere c8)
               (Vector3.mk (R * 1.5) (- R * 1.2) (- R * 1.5))) in
          let fullPath := addPoints fullPath
            (createArc (gc_sphere c8) (gc_sphere c9)
               (Vector3.mk (- R * 1.8) 0 (- R * 0.5))) in
          let fullPath := addPoints fullPath
            (createArc (gc_sphere c9) (gc_sphere c1)
               (Vector3.mk (R * 1.6) 0 (- R * 1.2))) in
          Some fullPath
      | _, _, _, _, _, _, _ => None
      end
  | _, _ => Some []
  end.

(** * Vocabulary of the properties *)

(** ** Sorting *)

(** [a] may stand before [b] for the comparator. *)
Definition cmpLe {A : Type} (compareFn : A -> A -> Z) (a b : A) : Prop :=
  (compareFn a b <= 0)%Z.

(** The group value of the point occurs in the sequence. *)
Definition inSequence (sequence : list Z) (p : HeTuPoint) : Prop :=
  includes sequence (HeTuPoint.numberValue p) = true.

(** The points the filter of [sortHeTuPoints] keeps. *)
Definition keepInSequence (sequence : list Z) (points : list HeTuPoint) : list HeTuPoint :=
  List.filter (fun p => includes sequence (HeTuPoint.numberValue p)) points.

(** The identifiers of the points of group [v], in the order of the list. *)
Definition groupIds (v : Z) (l : list HeTuPoint) : list string :=
  List.map HeTuPoint.id (List.filter (fun p => (HeTuPoint.numberValue p =? v)%Z) l).

(** The strict order the identifiers of group [v] are expected in:
    descending in the lexicographic order of the characters for the groups 4,
    6 and 9, ascending for every other group. *)
Definition idBefore (v : Z) (a b : string) : Prop :=
  if includes [4; 6; 9]%Z v then String.compare a b = Gt else String.compare a b = Lt.

(** The position of the group of a point in the sequence does not decrease. *)
Definition positionLe (sequence : list Z) (a b : HeTuPoint) : Prop :=
  (indexOf sequence (HeTuPoint.numberValue a)
   <= indexOf sequence (HeTuPoint.numberValue b))%Z.

(** ** Catalogs *)

(** The points of group [v] of a He Tu catalog, in catalog order. *)
Definition heTuGroup (v : Z) (points : list HeTuPoint) : list HeTuPoint :=
  List.filter (fun p => (HeTuPoint.numberValue p =? v)%Z) points.

(** Group [v] has exactly [n] points, all of them on the layer [z = layer]
    and in the structural zone [g]. *)
Definition groupOnLayer (points : list HeTuPoint) (v : Z) (n : nat) (layer : R) (g : Group)
    : Prop :=
  List.length (heTuGroup v points) = n
  /\ List.Forall (fun p => HeTuPoint.z p = layer /\ HeTuPoint.group p = g)
       (heTuGroup v points).

(** Group [v] consists of a row of [n] points at height [rowY] followed by a
    row of [n] points at height [- rowY]. *)
Definition twoRows (points : list HeTuPoint) (v : Z) (n : nat) (rowY : R) : Prop :=
  exists top btm : list HeTuPoint,
    heTuGroup v points = top ++ btm
    /\ List.length top = n /\ List.length btm = n
    /\ List.Forall (fun p => HeTuPoint.y p = rowY) top
    /\ List.Forall (fun p => HeTuPoint.y p = - rowY) btm.

(** The points of group [v] of a Lo Shu catalog, in catalog order. *)
Definition loShuGroupOf (v : Z) (points : list LoShuPointData) : list LoShuPointData :=
  List.filter (fun p => (LoShuPointData.numberValue p =? v)%Z) points.

(** The group values of a Lo Shu catalog, each listed once, in catalog order. *)
Definition loShuGroupValues (points : list LoShuPointData) : list Z :=
  List.nodup Z.eq_dec (List.map LoShuPointData.numberValue points).

(** The sphere positions of the points of group [v], in catalog order. *)
Definition groupSpherePositions (v : Z) (points : list LoShuPointData) : list (R * R * R) :=
  List.map LoShuPointData.spherePos (loShuGroupOf v points).

(** ** The animation maps as lists of entries *)

(** The entries are written into the map one after the other. *)
Definition insertAll {V : Type} (entries : list (string * V)) (m : gmap string V)
    : gmap string V :=
  fold_left (fun m e => <[fst e := snd e]> m) entries m.

(** The entries of the first [forEach] of the center assembly. *)
Definition coreEntries (points : list HeTuPoint) (yOffset : option R)
    : list (string * GalaxyPointConfig) :=
  List.map (fun p => (HeTuPoint.id p, coreConfig p yOffset))
           (List.filter (isCenter YANG) points).

(** The entries of the second [forEach] of the center assembly, from index [i]. *)
Fixpoint ringEntriesFrom (count : nat) (yOffset : option R) (l : list HeTuPoint) (i : nat)
    : list (string * GalaxyPointConfig) :=
  match l with
  | [] => []
  | p :: rest =>
      (HeTuPoint.id p, ringConfig count i yOffset)
      :: ringEntriesFrom count yOffset rest (Datatypes.S i)
  end.

(** The entries of the ring. *)
Definition ringEntries (points : list HeTuPoint) (yOffset : option R)
    : list (string * GalaxyPointConfig) :=
  let earthPoints := List.filter (isCenter YIN) points in
  ringEntriesFrom (List.length earthPoints) yOffset earthPoints 0.

(** The accumulated angle at each point of an arm, in traversal order. *)
Fixpoint spiralPhisFrom (l : list HeTuPoint) (i : nat) (currentPhi : R) (lastNumberVal : Z)
    : list R :=
  match l with
  | [] => []
  | p :: rest =>
      let phi := spiralPhi currentPhi lastNumberVal p i in
      phi :: spiralPhisFrom rest (Datatypes.S i) phi (HeTuPoint.numberValue p)
  end.

(** The angles accumulated by the loop of [createSpiralArm]. *)
Definition spiralPhis (armPoints : list HeTuPoint) : list R :=
  spiralPhisFrom armPoints 0 0 (-1).

(** The accumulated height at each point of a strand, in traversal order. *)
Fixpoint helixHeightsFrom (l : list HeTuPoint) (currentH : R) (lastNumberVal : Z) : list R :=
  match l with
  | [] => []
  | p :: rest =>
      let h := helixAdvance currentH lastNumberVal p in
      h :: helixHeightsFrom rest h (HeTuPoint.numberValue p)
  end.

(** The heights accumulated by the second loop of [assignHelixPosition]. *)
Definition helixHeights (strandPoints : list HeTuPoint) : list R :=
  helixHeightsFrom strandPoints 0 (-1).

(** One entry per point of a traversal, from the value accumulated there. *)
Definition traversalEntries (config : R -> GalaxyPointConfig) (l : list HeTuPoint)
    (values : list R) : list (string * GalaxyPointConfig) :=
  List.map (fun pv => (HeTuPoint.id (fst pv), config (snd pv))) (List.combine l values).

(** The entries written by [createSpiralArm]. *)
Definition spiralEntries (points : list HeTuPoint) (targetSequence : list Z)
    (armOffsetAngle : R) : list (string * GalaxyPointConfig) :=
  let armPoints := sortHeTuPoints points targetSequence in
  traversalEntries (spiralConfig armOffsetAngle) armPoints (spiralPhis armPoints).

(** The entries written by [assignHelixPosition]. *)
Definition helixEntries (points : list HeTuPoint) (sequence : list Z)
    (phaseOffset speedDir : R) : list (string * GalaxyPointConfig) :=
  let strandPoints := sortHeTuPoints points sequence in
  traversalEntries (helixConfig (helixTotalHeight strandPoints) phaseOffset speedDir)
    strandPoints (helixHeights strandPoints).

(** All the entries of [generateGalaxyMap], in the order they are written. *)
Definition galaxyEntries (points : list HeTuPoint) : list (string * GalaxyPointConfig) :=
  (coreEntries points None ++ ringEntries points None)
  ++ spiralEntries points yangSequenceValues (- PI / 2)
  ++ spiralEntries points yinSequenceValues (PI / 2).

(** All the entries of [generateHelixMap], in the order they are written. *)
Definition helixMapEntries (points : list HeTuPoint) : list (string * GalaxyPointConfig) :=
  (coreEntries points (Some 0) ++ ringEntries points (Some 0))
  ++ helixEntries points [1; 3; 7; 9]%Z 0 (-1.0)
  ++ helixEntries points [2; 4; 6; 8]%Z PI (-1.0).

(** The point belongs to the arm of the sequence. *)
Definition inArm (sequence : list Z) (p : HeTuPoint) : bool :=
  includes sequence (HeTuPoint.numberValue p).

(** ** Spiral arms *)





(** The group value of the point is not the sentinel [-1] of the loops. *)
Definition validGroup (p : HeTuPoint) : Prop := HeTuPoint.numberValue p <> (-1)%Z.




(** ** Helix strands *)

(** The height step between two consecutive points of a strand. *)
Definition strandStep (prev q : HeTuPoint) : R :=
  if (HeTuPoint.numberValue q =? HeTuPoint.numberValue prev)%Z
  then HELIX_DOT_STEP else HELIX_GROUP_GAP.

(** The accumulated height along a strand: 0 at its first point, then one
    step more at each point. *)
Fixpoint strandHeightsAfter (prev : HeTuPoint) (h : R) (rest : list HeTuPoint) : list R :=
  match rest with
  | [] => []
  | q :: rest' =>
      let h' := h + strandStep prev q in
      h' :: strandHeightsAfter q h' rest'
  end.

(** The accumulated heights of a whole strand. *)
Definition strandHeights (strand : list HeTuPoint) : list R :=
  match strand with
  | [] => []
  | p :: rest => 0 :: strandHeightsAfter p 0 rest
  end.

(** The law of one strand. Each point carries a config with speed factor
    [-1.0], start angle [phaseOffset + h * RAD_PER_UNIT_HEIGHT] and vertical
    offset [- totalHeight / 2 + h], for its accumulated height [h]; the first
    point has the start angle [phaseOffset] and the offset [- totalHeight / 2];
    the first and the last offset are opposite. *)
Definition strandLaw (points : list HeTuPoint) (sequence : list Z) (phaseOffset : R) : Prop :=
  let strand := sortHeTuPoints points sequence in
  let hs := strandHeights strand in
  let totalHeight := List.last hs 0 in
  let ys := List.map (fun h => - totalHeight / 2 + h) hs in
  let thetas := List.map (fun h => phaseOffset + h * RAD_PER_UNIT_HEIGHT) hs in
  List.Forall2
    (fun p h => exists gConfig,
         generateHelixMap points !! HeTuPoint.id p = Some gConfig
         /\ GalaxyPointConfig.speedFactor gConfig = -1.0
         /\ GalaxyPointConfig.thetaStart gConfig = phaseOffset + h * RAD_PER_UNIT_HEIGHT
         /\ GalaxyPointConfig.yOffset gConfig = Some (- totalHeight / 2 + h))
    strand hs
  /\ List.hd phaseOffset thetas = phaseOffset
  /\ List.hd (- totalHeight / 2) ys = - totalHeight / 2
  /\ List.hd 0 ys = - List.last ys 0.

(** ** Coverage of the catalog *)

(** The kind of entry a point is given: the center points of polarity YANG
    the core, those of polarity YIN the ring, the other points an arm. *)
Definition expectedType (p : HeTuPoint) : GalaxyPointType :=
  if isCenter YANG p then CORE else if isCenter YIN p then RING else ARM.

(** The points of the center layer lie outside both arm sequences, the
    other points inside one of them. *)
Definition armsCoverFaces (points : list HeTuPoint) : bool :=
  List.forallb
    (fun p =>
       if Group_eqb (HeTuPoint.group p) center
       then negb (inArm yangSequenceValues p || inArm yinSequenceValues p)
       else inArm yangSequenceValues p || inArm yinSequenceValues p)
    points.

(** ** Timers *)

(** The callbacks of the due timers run in order. *)
Definition runDue (due : list (nat * TimerCallback)) (s : AnimationState) : AnimationState :=
  fold_left (fun s t => runTimerCallback (snd t) s) due s.

(** ** Vectors and anchors of the energy path *)

(** The center of the sphere. *)
Definition v3zero : Vector3 := Vector3.mk 0 0 0.

(** The opposite vector. *)
Definition v3neg (v : Vector3) : Vector3 :=
  Vector3.mk (- Vector3.x v) (- Vector3.y v) (- Vector3.z v).

(** The anchors of the numbers 9 and 1, the two poles. *)
Definition anchor9 : Vector3 := Vector3.mk 0 SPHERE_RADIUS 0.

Definition anchor1 : Vector3 := Vector3.mk 0 (- SPHERE_RADIUS) 0.

(** A vector of length 1. *)
Definition isUnit (v : Vector3) : Prop := V3.lengthSq v = 1.

(** Two numbers that are not of strictly opposite signs, and not both zero. *)
Definition sameSide (p q : R) : Prop :=
  (0 <= p /\ 0 < q) \/ (0 < p /\ 0 <= q) \/ (p <= 0 /\ q < 0) \/ (p < 0 /\ q <= 0).

(** ** The state machine as a whole *)

(** The states in which no timed transition is under way. *)
Definition settled (s : AnimationState) : bool :=
  match s with
  | MORPHING | HELIX_MORPHING | RETURNING => false
  | _ => true
  end.

(** The callback that ends the timed transition of a state. *)
Definition pendingCallback (s : AnimationState) : option TimerCallback :=
  match s with
  | MORPHING => Some advanceToRunning
  | HELIX_MORPHING => Some advanceToHelixRunning
  | RETURNING => Some advanceToStatic
  | _ => None
  end.

(** The timers are due within the next [MORPH_MS] milliseconds, they are
    queued in the order they are due, and the timer that ends the timed
    transition under way, if any, is the last of the queue. *)
Definition timersOk (app : App) : Prop :=
  List.Forall (fun t => (clock app < fst t <= clock app + MORPH_MS)%nat) (timers app)
  /\ StronglySorted (fun a b => (fst a <= fst b)%nat) (timers app)
  /\ forall cb, pendingCallback (animState app) = Some cb ->
       exists q d, timers app = q ++ [(d, cb)].

(** Entering a timed transition: the state is set and its timer is queued. *)
Definition enterTimed (cb : TimerCallback) (s : AnimationState) (m : LastMode) (app : App)
    : App :=
  setTimeout cb MORPH_MS (setAnimState s (setLastMode m app)).

(** ** Targets and frames *)

(** The static cube position of a point. *)
Definition staticPosition (pt : HeTuPoint) : Vector3 :=
  Vector3.mk (HeTuPoint.x pt) (HeTuPoint.y pt) (HeTuPoint.z pt).

(** The squared distance of a position from the z axis, and from the y axis. *)
Definition distSqFromZ (v : Vector3) : R := Vector3.x v * Vector3.x v + Vector3.y v * Vector3.y v.
Definition distSqFromY (v : Vector3) : R := Vector3.x v * Vector3.x v + Vector3.z v * Vector3.z v.

(** The mode a state makes the frame callback target, if any. *)
Definition modeOfState (s : AnimationState) : option Mode :=
  match s with
  | STATIC | RETURNING => None
  | HELIX_MORPHING | HELIX_RUNNING | HELIX_PAUSED => Some HELIX
  | _ => Some GALAXY
  end.

(** The mode of the last frame that targets one, [mode] when there is none. *)
Definition lastTargetedMode (frames : list (AnimationState * R)) (mode : Mode) : Mode :=
  fold_left (fun m f => match modeOfState (fst f) with Some m' => m' | None => m end)
            frames mode.

(** The sum of the deltas of the frames rendered in a running state. *)
Fixpoint runningTime (frames : list (AnimationState * R)) : R :=
  match frames with
  | [] => 0
  | f :: rest => (if isRunningState (fst f) then snd f else 0) + runningTime rest
  end.

(** The group value of the point is in neither arm sequence. *)
Definition outsideArms (p : HeTuPoint) : bool :=
  negb (inArm yangSequenceValues p || inArm yinSequenceValues p).

(** The point is given an entry by the map generators: it belongs to the
    center group or to one of the two arm sequences. *)
Definition hasConfig (p : HeTuPoint) : bool :=
  Group_eqb (HeTuPoint.group p) center
  || inArm yangSequenceValues p || inArm yinSequenceValues p.

(** Some point of the list with identifier [k] is given an entry. *)
Definition configuredId (points : list HeTuPoint) (k : string) : Prop :=
  exists p, List.In p points /\ HeTuPoint.id p = k /\ hasConfig p = true.

(** The motion of an arm of the galaxy. Seen along the z axis the target
    of the config turns with time, at [omega] radians per unit of time: its x
    and y are those at time 0, rotated. Its height swings meanwhile: z is
    [zAmp] times the sine of the angle the target has reached. *)
Definition turnsAndSwings (gConfig : GalaxyPointConfig) (omega : R) : Prop :=
  forall time,
    let v0 := getTargetPosition gConfig 0 in
    let v := getTargetPosition gConfig time in
    (Vector3.x v, Vector3.y v) = rotate2D (Vector3.x v0) (Vector3.y v0) (omega * time)
    /\ Vector3.z v
       = GalaxyPointConfig.zAmp gConfig
         * sin (GalaxyPointConfig.thetaStart gConfig + omega * time).

(** The height of the target of the config is not the same at all times. *)
Definition heightVaries (gConfig : GalaxyPointConfig) : Prop :=
  exists t1 t2,
    Vector3.z (getTargetPosition gConfig t1) <> Vector3.z (getTargetPosition gConfig t2).

(** The target of a config turns about the y axis with time, at [omega]
    radians per unit of time: its x and z are those at time 0, rotated, and
    its height y does not change. *)
Definition turnsAboutY (gConfig : GalaxyPointConfig) (omega : R) : Prop :=
  forall time,
    let v0 := getTargetPosition gConfig 0 in
    let v := getTargetPosition gConfig time in
    (Vector3.x v, Vector3.z v) = rotate2D (Vector3.x v0) (Vector3.z v0) (omega * time)
    /\ Vector3.y v = Vector3.y v0.

(** The point lies in the cube drawn by [CubeBoundary], faces included. *)
Definition insideCube (p : HeTuPoint) : Prop :=
  - (CUBE_SIZE / 2) <= HeTuPoint.x p <= CUBE_SIZE / 2
  /\ - (CUBE_SIZE / 2) <= HeTuPoint.y p <= CUBE_SIZE / 2
  /\ - (CUBE_SIZE / 2) <= HeTuPoint.z p <= CUBE_SIZE / 2.


(** ** The radii of the helix *)

(** The radius law of one strand: the points of the strand carry, in
    traversal order, strictly increasing radii between [HELIX_R_BOTTOM] and
    [HELIX_R_TOP]; a strand of two points or more starts on the bottom radius
    and ends on the top radius, a strand of one point has the radius half way
    between the two. *)
Definition strandRadiusLaw (points : list HeTuPoint) (sequence : list Z) : Prop :=
  exists radii : list R,
    List.Forall2
      (fun p r => exists gConfig,
           generateHelixMap points !! HeTuPoint.id p = Some gConfig
           /\ GalaxyPointConfig.r gConfig = r)
      (sortHeTuPoints points sequence) radii
    /\ StronglySorted Rlt radii
    /\ List.Forall (fun r => HELIX_R_BOTTOM <= r <= HELIX_R_TOP) radii
    /\ match radii with
       | [] => True
       | [r] => r = (HELIX_R_BOTTOM + HELIX_R_TOP) / 2
       | r :: _ => r = HELIX_R_BOTTOM /\ List.last radii 0 = HELIX_R_TOP
       end.


(** ** The numbers of the energy path *)

(** The number has an anchor: it is one of 1 .. 9. *)
Definition anchored (n : Z) : Prop := (1 <= n <= 9)%Z.


(** ** The dots of the Lo Shu and the centers of their groups *)

(** The sum of a list of vectors, and their centroid. *)
Definition sumVec (l : list Vector3) : Vector3 := fold_left V3.add l (Vector3.mk 0 0 0).

Definition centroid (l : list Vector3) : Vector3 :=
  V3.divideScalar (sumVec l) (INR (List.length l)).

(** The center of a group of points: the centroids of its plane and of its
    sphere positions, with the trigram and the direction of its first point;
    no center for an empty group. *)
Definition groupCenterOf (group : list LoShuPointData) : option GroupCenter :=
  match group with
  | [] => None
  | p :: _ =>
      Some (mkGroupCenter
              (centroid (List.map (fun q => vec3 (LoShuPointData.planePos q)) group))
              (centroid (List.map (fun q => vec3 (LoShuPointData.spherePos q)) group))
              (LoShuPointData.trigram p) (LoShuPointData.direction p))
  end.

(** The cell of a number in the Lo Shu square: column and row, each -1, 0 or 1. *)
Definition loShuSquare : list (Z * (R * R)) :=
  [ (4%Z, (-1, 1)); (9%Z, (0, 1));  (2%Z, (1, 1));
    (3%Z, (-1, 0)); (5%Z, (0, 0));  (7%Z, (1, 0));
    (8%Z, (-1, -1)); (1%Z, (0, -1)); (6%Z, (1, -1)) ].

(** The sum of the squares of the components of a quaternion is 1. *)
Definition unitQuaternion (q : Quaternion.t) : Prop :=
  Quaternion.x q * Quaternion.x q + Quaternion.y q * Quaternion.y q
  + Quaternion.z q * Quaternion.z q + Quaternion.w q * Quaternion.w q = 1.

(** [pos] lies on the sphere, at the angular distance from the direction of
    [anchor] that the offset [off] has from the axis of its local frame: its
    component along the anchor is [R * R / |(off, R)|], [R] the radius. *)
Definition onAnchorCap (anchor : Vector3) (off : R * R) (pos : Vector3) : Prop :=
  V3.lengthSq pos = SPHERE_RADIUS * SPHERE_RADIUS
  /\ V3.dot pos (V3.normalize anchor)
     = SPHERE_RADIUS * SPHERE_RADIUS
       / sqrt (fst off * fst off + snd off * snd off + SPHERE_RADIUS * SPHERE_RADIUS).

(** The cell of a number in the plane, as [loShuPoint] computes it. *)
Definition loShuCell (num : Z) : R * R :=
  ((if memZ num [3; 4; 8]%Z then -1 else if memZ num [7; 2; 6]%Z then 1 else 0)
   * LOSHU_GRID_SIZE,
   (if memZ num [9; 4; 2]%Z then 1 else if memZ num [1; 8; 6]%Z then -1 else 0)
   * LOSHU_GRID_SIZE).

(** * Properties *)

Example sortHeTuPoints_ids :
  List.map HeTuPoint.id (sortHeTuPoints generateHeTuPoints [2; 4]%Z)
  = ["earth-2-0"; "earth-2-1"; "earth-4-3"; "earth-4-2"; "earth-4-1"; "earth-4-0"].
Proof. vm_compute. reflexivity. Qed.

(** ** Sorting with a comparator *)

Section ArraySort.

Context {A : Type} (compareFn : A -> A -> Z) (P : A -> Prop).

Local Abbreviation cmpLe := (cmpLe compareFn).

Hypothesis compare_total :
  forall a b, P a -> P b -> (0 < compareFn a b)%Z -> (compareFn b a <= 0)%Z.

Hypothesis compare_trans :
  forall a b c, P a -> P b -> P c -> cmpLe a b -> cmpLe b c -> cmpLe a c.

Lemma sortInsert_perm (a : A) (l : list A) : Permutation (a :: l) (sortInsert compareFn a l).
Proof.
  induction l as [|b l IH]; simpl; [reflexivity|].
  destruct (compareFn a b <=? 0)%Z; [reflexivity|].
  rewrite perm_swap. now apply perm_skip.
Qed.

Lemma arraySort_perm (l : list A) : Permutation l (arraySort compareFn l).
Proof.
  induction l as [|a l IH]; simpl; [constructor|].
  etransitivity; [apply perm_skip, IH|apply sortInsert_perm].
Qed.

Lemma arraySort_Forall (Q : A -> Prop) (l : list A) :
  List.Forall Q l -> List.Forall Q (arraySort compareFn l).
Proof.
  intros H. rewrite List.Forall_forall in *. intros x Hx. apply H.
  eapply Permutation_in; [symmetry; apply arraySort_perm|exact Hx].
Qed.

Lemma sortInsert_sorted (a : A) (l : list A) :
  P a -> List.Forall P l -> StronglySorted cmpLe l ->
  StronglySorted cmpLe (sortInsert compareFn a l).
Proof using compare_total compare_trans.
  intros Pa. induction l as [|b l IH]; intros Pl Hs; simpl.
  - constructor; constructor.
  - inversion Pl as [|? ? Pb Pl']; subst. inversion Hs as [|? ? Hs' Hb]; subst.
    destruct (compareFn a b <=? 0)%Z eqn:E.
    + apply Z.leb_le in E. constructor; [exact Hs|].
      constructor; [exact E|].
      rewrite List.Forall_forall in *. intros c Hc.
      apply (compare_trans a b c); auto.
    + apply Z.leb_gt in E. constructor; [apply IH; assumption|].
      rewrite List.Forall_forall in *. intros c Hc.
      apply (Permutation_in _ (Permutation_sym (sortInsert_perm a l))) in Hc.
      destruct Hc as [<-|Hc]; [apply compare_total; assumption|auto].
Qed.

Lemma arraySort_sorted (l : list A) :
  List.Forall P l -> StronglySorted cmpLe (arraySort compareFn l).
Proof using compare_total compare_trans.
  induction l as [|a l IH]; intros Pl; simpl; [constructor|].
  inversion Pl; subst. apply sortInsert_sorted; auto.
  apply arraySort_Forall; assumption.
Qed.

(** Sorting an array that is already in order leaves it as it is. *)
Lemma arraySort_fixed (l : list A) : Sorted cmpLe l -> arraySort compareFn l = l.
Proof.
  induction l as [|a l IH]; intros Hs; simpl; [reflexivity|].
  inversion Hs as [|? ? Hs' Hhd]; subst. rewrite IH by assumption.
  destruct Hhd as [|b l' Hab]; simpl; [reflexivity|].
  unfold cmpLe in Hab. apply Z.leb_le in Hab. now rewrite Hab.
Qed.

End ArraySort.

(** ** Identifier order *)

Lemma String_compare_refl (a : string) : String.compare a a = Eq.
Proof.
  induction a as [|c a IH]; simpl; [reflexivity|].
  unfold Ascii.compare. now rewrite N.compare_refl.
Qed.

Lemma String_compare_lt_trans (a b c : string) :
  String.compare a b = Lt -> String.compare b c = Lt -> String.compare a c = Lt.
Proof.
  revert b c. induction a as [|x a IH]; intros [|y b] [|z c]; simpl; try congruence.
  destruct (Ascii.compare x y) eqn:Exy; try discriminate.
  - apply Ascii.compare_eq_iff in Exy. subst y.
    destruct (Ascii.compare x z); try congruence. apply IH.
  - intros _. destruct (Ascii.compare y z) eqn:Eyz; try discriminate.
    + apply Ascii.compare_eq_iff in Eyz. subst z. now rewrite Exy.
    + intros _. unfold Ascii.compare in *.
      rewrite N.compare_lt_iff in Exy, Eyz.
      assert (E : (N_of_ascii x ?= N_of_ascii z)%N = Lt)
        by (apply N.compare_lt_iff; lia).
      now rewrite E.
Qed.

Lemma localeCompare_antisym (a b : string) : localeCompare b a = (- localeCompare a b)%Z.
Proof.
  unfold localeCompare. rewrite (String.compare_antisym a b).
  now destruct (String.compare b a).
Qed.

Lemma localeCompare_eq (a b : string) : localeCompare a b = 0%Z -> a = b.
Proof.
  unfold localeCompare. destruct (String.compare a b) eqn:E; try discriminate.
  intros _. now apply String.compare_eq_iff.
Qed.

Lemma localeCompare_le_trans (a b c : string) :
  (localeCompare a b <= 0)%Z -> (localeCompare b c <= 0)%Z -> (localeCompare a c <= 0)%Z.
Proof.
  unfold localeCompare.
  destruct (String.compare a b) eqn:Eab; [| |lia].
  - apply String.compare_eq_iff in Eab. now subst b.
  - intros _. destruct (String.compare b c) eqn:Ebc; [| |lia].
    + apply String.compare_eq_iff in Ebc. subst c. now rewrite Eab.
    + now rewrite (String_compare_lt_trans a b c).
Qed.

Lemma localeCompare_lt (a b : string) :
  (localeCompare a b < 0)%Z <-> String.compare a b = Lt.
Proof. unfold localeCompare. destruct (String.compare a b); split; (lia || congruence). Qed.

Lemma localeCompare_gt (a b : string) :
  (0 < localeCompare a b)%Z <-> String.compare a b = Gt.
Proof. unfold localeCompare. destruct (String.compare a b); split; (lia || congruence). Qed.

(** ** [indexOf] and [includes] *)

Lemma indexOfFrom_range (l : list Z) (v k : Z) :
  indexOfFrom l v k = (-1)%Z \/ (k <= indexOfFrom l v k)%Z.
Proof.
  revert k. induction l as [|w l IH]; intros k; simpl; [now left|].
  destruct (w =? v)%Z; [right; lia|].
  destruct (IH (k + 1)%Z) as [E|E]; [now left|right; lia].
Qed.

Lemma indexOfFrom_includes (l : list Z) (v k : Z) :
  includes l v = true -> (k <= indexOfFrom l v k)%Z.
Proof.
  revert k. induction l as [|w l IH]; intros k; simpl; [discriminate|].
  rewrite (Z.eqb_sym v w). destruct (w =? v)%Z; simpl; [lia|].
  intros H. specialize (IH (k + 1)%Z H). lia.
Qed.

Lemma indexOfFrom_inj (l : list Z) (a b k : Z) :
  (0 <= k)%Z -> includes l a = true ->
  indexOfFrom l a k = indexOfFrom l b k -> a = b.
Proof.
  revert k. induction l as [|w l IH]; intros k Hk; simpl; [discriminate|].
  rewrite (Z.eqb_sym a w).
  destruct (w =? a)%Z eqn:Ea; simpl.
  - intros _. destruct (w =? b)%Z eqn:Eb.
    + intros _. apply Z.eqb_eq in Ea, Eb. congruence.
    + intros E. destruct (indexOfFrom_range l b (k + 1)%Z) as [F|F]; lia.
  - intros Ha. pose proof (indexOfFrom_includes l a (k + 1)%Z Ha) as Hr.
    destruct (w =? b)%Z; [lia|].
    apply IH; [lia|exact Ha].
Qed.

Lemma indexOf_inj (l : list Z) (a b : Z) :
  includes l a = true -> indexOf l a = indexOf l b -> a = b.
Proof. apply indexOfFrom_inj. lia. Qed.

(** ** The comparator of [sortHeTuPoints] *)

(** What the comparator decides, read off its three branches. *)
Lemma compareHeTuPoints_le (sequence : list Z) (a b : HeTuPoint) :
  inSequence sequence a ->
  (cmpLe (compareHeTuPoints sequence) a b <->
   (indexOf sequence (HeTuPoint.numberValue a) < indexOf sequence (HeTuPoint.numberValue b))%Z
   \/ (HeTuPoint.numberValue a = HeTuPoint.numberValue b
       /\ if includes descendingGroups (HeTuPoint.numberValue a)
          then (localeCompare (HeTuPoint.id b) (HeTuPoint.id a) <= 0)%Z
          else (localeCompare (HeTuPoint.id a) (HeTuPoint.id b) <= 0)%Z)).
Proof.
  intros Ha. unfold cmpLe, compareHeTuPoints.
  destruct (indexOf sequence (HeTuPoint.numberValue a)
            =? indexOf sequence (HeTuPoint.numberValue b))%Z eqn:E; cbn [negb].
  - apply Z.eqb_eq in E. pose proof (indexOf_inj _ _ _ Ha E) as Hv.
    destruct (includes descendingGroups (HeTuPoint.numberValue a));
      (split; [intros H; right; now split|intros [H|[_ H]]; [lia|exact H]]).
  - apply Z.eqb_neq in E. split.
    + intros H. left. lia.
    + intros [H|[H _]]; [lia|]. rewrite H in E. now contradiction E.
Qed.

Lemma compareHeTuPoints_total (sequence : list Z) (a b : HeTuPoint) :
  inSequence sequence a -> inSequence sequence b ->
  (0 < compareHeTuPoints sequence a b)%Z -> (compareHeTuPoints sequence b a <= 0)%Z.
Proof.
  intros Ha Hb. unfold compareHeTuPoints.
  rewrite (Z.eqb_sym (indexOf sequence (HeTuPoint.numberValue b))).
  destruct (indexOf sequence (HeTuPoint.numberValue a)
            =? indexOf sequence (HeTuPoint.numberValue b))%Z eqn:E; cbn [negb]; [|lia].
  apply Z.eqb_eq in E. rewrite <- (indexOf_inj _ _ _ Ha E).
  destruct (includes descendingGroups (HeTuPoint.numberValue a)).
  - rewrite (localeCompare_antisym (HeTuPoint.id b) (HeTuPoint.id a)). lia.
  - rewrite (localeCompare_antisym (HeTuPoint.id a) (HeTuPoint.id b)). lia.
Qed.

Lemma compareHeTuPoints_trans (sequence : list Z) (a b c : HeTuPoint) :
  inSequence sequence a -> inSequence sequence b -> inSequence sequence c ->
  cmpLe (compareHeTuPoints sequence) a b -> cmpLe (compareHeTuPoints sequence) b c ->
  cmpLe (compareHeTuPoints sequence) a c.
Proof.
  intros Ha Hb Hc.
  rewrite !compareHeTuPoints_le by assumption.
  intros [Hab|[Eab Hab]] [Hbc|[Ebc Hbc]].
  - left. lia.
  - left. rewrite <- Ebc. exact Hab.
  - left. rewrite Eab. exact Hbc.
  - right. split; [congruence|]. rewrite <- Eab in Hbc.
    destruct (includes descendingGroups (HeTuPoint.numberValue a)).
    + exact (localeCompare_le_trans _ _ _ Hbc Hab).
    + exact (localeCompare_le_trans _ _ _ Hab Hbc).
Qed.

(** ** [sortHeTuPoints] *)

Lemma filter_all {A : Type} (f : A -> bool) (l : list A) :
  List.Forall (fun x => f x = true) l -> List.filter f l = l.
Proof.
  induction 1 as [|x l Hx _ IH]; simpl; [reflexivity|]. now rewrite Hx, IH.
Qed.

Lemma keepInSequence_Forall (sequence : list Z) (points : list HeTuPoint) :
  List.Forall (inSequence sequence) (keepInSequence sequence points).
Proof.
  apply List.Forall_forall. intros p Hp. apply List.filter_In in Hp. apply Hp.
Qed.

Lemma sortHeTuPoints_perm (points : list HeTuPoint) (sequence : list Z) :
  Permutation (sortHeTuPoints points sequence) (keepInSequence sequence points).
Proof. symmetry. apply arraySort_perm. Qed.

Lemma sortHeTuPoints_Forall (points : list HeTuPoint) (sequence : list Z) :
  List.Forall (inSequence sequence) (sortHeTuPoints points sequence).
Proof. apply arraySort_Forall, keepInSequence_Forall. Qed.

Lemma sortHeTuPoints_sorted (points : list HeTuPoint) (sequence : list Z) :
  StronglySorted (cmpLe (compareHeTuPoints sequence)) (sortHeTuPoints points sequence).
Proof.
  apply (arraySort_sorted _ (inSequence sequence)).
  - apply compareHeTuPoints_total.
  - apply compareHeTuPoints_trans.
  - apply keepInSequence_Forall.
Qed.

Lemma sortHeTuPoints_idempotent (points : list HeTuPoint) (sequence : list Z) :
  sortHeTuPoints (sortHeTuPoints points sequence) sequence = sortHeTuPoints points sequence.
Proof.
  unfold sortHeTuPoints at 1.
  rewrite filter_all by apply sortHeTuPoints_Forall.
  apply arraySort_fixed, StronglySorted_Sorted, sortHeTuPoints_sorted.
Qed.

Lemma sortHeTuPoints_In (points : list HeTuPoint) (sequence : list Z) (p : HeTuPoint) :
  List.In p (sortHeTuPoints points sequence)
  <-> List.In p points /\ inSequence sequence p.
Proof.
  unfold inSequence. rewrite <- (List.filter_In (fun p => includes sequence (HeTuPoint.numberValue p))).
  split; apply Permutation_in; [|symmetry]; apply sortHeTuPoints_perm.
Qed.

Lemma StronglySorted_impl_on {A : Type} (R1 R2 : A -> A -> Prop) (Q : A -> Prop) (l : list A) :
  (forall a b, Q a -> Q b -> R1 a b -> R2 a b) ->
  List.Forall Q l -> StronglySorted R1 l -> StronglySorted R2 l.
Proof.
  intros Himp HQ Hs. induction Hs as [|a l Hs IH Ha]; constructor.
  - apply IH. now inversion HQ.
  - inversion HQ as [|? ? Qa Ql]; subst.
    rewrite List.Forall_forall in *. intros b Hb. apply Himp; auto.
Qed.

Lemma StronglySorted_filter' {A : Type} (R1 : A -> A -> Prop) (f : A -> bool) (l : list A) :
  StronglySorted R1 l -> StronglySorted R1 (List.filter f l).
Proof.
  induction 1 as [|a l Hs IH Ha]; simpl; [constructor|].
  destruct (f a); [|exact IH]. constructor; [exact IH|].
  rewrite List.Forall_forall in *. intros b Hb. apply List.filter_In in Hb. apply Ha, Hb.
Qed.

Lemma StronglySorted_map {A B : Type} (R1 : A -> A -> Prop) (R2 : B -> B -> Prop)
    (f : A -> B) (l : list A) :
  (forall a b, R1 a b -> R2 (f a) (f b)) ->
  StronglySorted R1 l -> StronglySorted R2 (List.map f l).
Proof.
  intros Himp. induction 1 as [|a l Hs IH Ha]; simpl; constructor; [exact IH|].
  rewrite List.Forall_forall in *. intros b Hb. apply List.in_map_iff in Hb.
  destruct Hb as [c [<- Hc]]. auto.
Qed.

(** In a list with pairwise different identifiers, an order on the points is
    an order on points with different identifiers. *)
Lemma StronglySorted_distinct {A B : Type} (R1 : A -> A -> Prop) (f : A -> B) (l : list A) :
  List.NoDup (List.map f l) -> StronglySorted R1 l ->
  StronglySorted (fun a b => R1 a b /\ f a <> f b) l.
Proof.
  intros Hnd Hs. induction Hs as [|a l Hs IH Ha]; simpl in *; constructor.
  - apply IH. now inversion Hnd.
  - inversion Hnd as [|? ? Hnotin _]; subst.
    rewrite List.Forall_forall in *. intros b Hb. split; [auto|].
    intros E. apply Hnotin. rewrite E. now apply List.in_map.
Qed.

Lemma NoDup_map_inj_on {A B : Type} (f : A -> B) (l : list A) (a b : A) :
  List.NoDup (List.map f l) -> List.In a l -> List.In b l -> f a = f b -> a = b.
Proof.
  induction l as [|c l IH]; simpl; intros Hnd Ha Hb E; [tauto|].
  inversion Hnd as [|? ? Hnotin Hnd']; subst.
  destruct Ha as [->|Ha], Hb as [->|Hb]; auto.
  - exfalso. apply Hnotin. rewrite E. now apply List.in_map.
  - exfalso. apply Hnotin. rewrite <- E. now apply List.in_map.
Qed.

Lemma NoDup_map_filter {A B : Type} (f : A -> B) (g : A -> bool) (l : list A) :
  List.NoDup (List.map f l) -> List.NoDup (List.map f (List.filter g l)).
Proof.
  induction l as [|a l IH]; simpl; intros H; [constructor|].
  inversion H as [|? ? Hnotin Hnd]; subst.
  destruct (g a); simpl; [|auto].
  constructor; [|auto]. intros Hin. apply Hnotin.
  apply List.in_map_iff in Hin. destruct Hin as [b [E Hb]].
  apply List.filter_In in Hb. rewrite <- E. apply List.in_map, Hb.
Qed.

Lemma sortHeTuPoints_NoDup (points : list HeTuPoint) (sequence : list Z) :
  List.NoDup (List.map HeTuPoint.id points) ->
  List.NoDup (List.map HeTuPoint.id (sortHeTuPoints points sequence)).
Proof.
  intros H.
  eapply Permutation_NoDup;
    [apply Permutation_map; symmetry; apply sortHeTuPoints_perm|].
  now apply NoDup_map_filter.
Qed.

Lemma sortHeTuPoints_positions (points : list HeTuPoint) (sequence : list Z) :
  StronglySorted (positionLe sequence) (sortHeTuPoints points sequence).
Proof.
  eapply StronglySorted_impl_on;
    [|apply sortHeTuPoints_Forall|apply sortHeTuPoints_sorted].
  intros a b Ha _ H. apply compareHeTuPoints_le in H; [|exact Ha].
  unfold positionLe. destruct H as [H|[H _]]; [lia|rewrite H; lia].
Qed.

Lemma sortHeTuPoints_groupIds (points : list HeTuPoint) (sequence : list Z) (v : Z) :
  List.NoDup (List.map HeTuPoint.id points) ->
  StronglySorted (idBefore v) (groupIds v (sortHeTuPoints points sequence)).
Proof.
  intros Hnd. unfold groupIds.
  pose proof (StronglySorted_distinct _ HeTuPoint.id _
                (sortHeTuPoints_NoDup points sequence Hnd)
                (sortHeTuPoints_sorted points sequence)) as Hs.
  apply (StronglySorted_filter' _ (fun p => (HeTuPoint.numberValue p =? v)%Z)) in Hs.
  set (grp := List.filter _ _) in *.
  assert (Hgrp : List.Forall (fun p => inSequence sequence p /\ HeTuPoint.numberValue p = v) grp).
  { apply List.Forall_forall. intros p Hp. apply List.filter_In in Hp.
    destruct Hp as [Hp Hv]. apply Z.eqb_eq in Hv. split; [|exact Hv].
    apply sortHeTuPoints_In in Hp. apply Hp. }
  apply (StronglySorted_map (fun a b =>
           (inSequence sequence a /\ HeTuPoint.numberValue a = v)
           /\ (inSequence sequence b /\ HeTuPoint.numberValue b = v)
           /\ cmpLe (compareHeTuPoints sequence) a b /\ HeTuPoint.id a <> HeTuPoint.id b)).
  - intros a b [[Ha Hva] [[Hb Hvb] [Hle Hne]]].
    apply compareHeTuPoints_le in Hle; [|exact Ha].
    rewrite Hva, Hvb in Hle. destruct Hle as [Hle|[_ Hle]]; [lia|].
    unfold idBefore. change [4; 6; 9]%Z with descendingGroups.
    destruct (includes descendingGroups v).
    + apply localeCompare_gt. rewrite localeCompare_antisym.
      assert (localeCompare (HeTuPoint.id b) (HeTuPoint.id a) <> 0%Z)
        by (intros E; apply localeCompare_eq in E; congruence).
      lia.
    + apply localeCompare_lt.
      assert (localeCompare (HeTuPoint.id a) (HeTuPoint.id b) <> 0%Z)
        by (intros E; apply localeCompare_eq in E; congruence).
      lia.
  - eapply StronglySorted_impl_on; [|exact Hgrp|exact Hs].
    intros a b Ha Hb [Hle Hne]. auto.
Qed.

(** Two arrangements of the same elements that are both in order are the
    same list, when no two different elements compare equal. *)
Lemma sorted_perm_unique {A : Type} (R1 : A -> A -> Prop) (l1 l2 : list A) :
  (forall a b, List.In a l1 -> List.In b l1 -> R1 a b -> R1 b a -> a = b) ->
  StronglySorted R1 l1 -> StronglySorted R1 l2 -> Permutation l1 l2 -> l1 = l2.
Proof.
  revert l2. induction l1 as [|a l1 IH]; intros l2 Hanti Hs1 Hs2 Hperm.
  - apply Permutation_nil in Hperm. now subst.
  - destruct l2 as [|b l2]; [apply Permutation_sym, Permutation_nil in Hperm; discriminate|].
    inversion Hs1 as [|? ? Hs1' Ha]; subst. inversion Hs2 as [|? ? Hs2' Hb]; subst.
    rewrite List.Forall_forall in Ha, Hb.
    assert (E : a = b).
    { assert (Hain : List.In a (b :: l2))
        by (eapply Permutation_in; [exact Hperm|now left]).
      assert (Hbin : List.In b (a :: l1))
        by (eapply Permutation_in; [symmetry; exact Hperm|now left]).
      destruct Hain as [->|Hain]; [reflexivity|].
      destruct Hbin as [->|Hbin]; [reflexivity|].
      apply Hanti; [now left|now right|now apply Ha|now apply Hb]. }
    subst b. f_equal. apply IH; auto.
    + intros x y Hx Hy. apply Hanti; now right.
    + now apply Permutation_cons_inv in Hperm.
Qed.

(** The result of [sortHeTuPoints] does not depend on the sorting algorithm:
    when the identifiers are pairwise different, it is the only arrangement of
    the kept points that is in the order of the comparator. *)
Lemma sortHeTuPoints_unique (points out : list HeTuPoint) (sequence : list Z) :
  List.NoDup (List.map HeTuPoint.id points) ->
  Permutation out (keepInSequence sequence points) ->
  StronglySorted (cmpLe (compareHeTuPoints sequence)) out ->
  out = sortHeTuPoints points sequence.
Proof.
  intros Hnd Hperm Hsorted. symmetry.
  apply (sorted_perm_unique (cmpLe (compareHeTuPoints sequence))).
  - intros a b Ha Hb Hab Hba.
    apply sortHeTuPoints_In in Ha, Hb. destruct Ha as [Ha Sa], Hb as [Hb Sb].
    apply compareHeTuPoints_le in Hab; [|exact Sa].
    apply compareHeTuPoints_le in Hba; [|exact Sb].
    apply (NoDup_map_inj_on HeTuPoint.id points); auto.
    destruct Hab as [Hab|[Ev Hab]], Hba as [Hba|[Ev' Hba]]; try lia;
      try (rewrite Ev in Hba; lia); try (rewrite Ev' in Hab; lia).
    rewrite <- Ev in Hba.
    destruct (includes descendingGroups (HeTuPoint.numberValue a)).
    + apply localeCompare_eq. rewrite localeCompare_antisym in Hab. lia.
    + apply localeCompare_eq. rewrite localeCompare_antisym in Hba. lia.
  - apply sortHeTuPoints_sorted.
  - exact Hsorted.
  - etransitivity; [apply sortHeTuPoints_perm|symmetry; exact Hperm].
Qed.

(** C2: [sortHeTuPoints] keeps exactly the points whose group value occurs in
    the sequence, orders them by the position of their group value in the
    sequence, and returns its own output unchanged when applied to it again,
    for every list of points and every sequence; and, for points taken from
    the catalog, each at most once, it lists the identifiers of a group in
    strictly descending lexicographic order for the groups 4, 6 and 9 and in
    strictly ascending order for every other group. *)
Theorem sortHeTuPoints_spec (points : list HeTuPoint) (sequence : list Z) :
  let sorted := sortHeTuPoints points sequence in
  Permutation sorted (keepInSequence sequence points)
  /\ StronglySorted (positionLe sequence) sorted
  /\ sortHeTuPoints sorted sequence = sorted
  /\ (List.incl points generateHeTuPoints ->
      List.NoDup (List.map HeTuPoint.id points) ->
      forall v, StronglySorted (idBefore v) (groupIds v sorted)).
Proof.
  intros sorted. split; [apply sortHeTuPoints_perm|].
  split; [apply sortHeTuPoints_positions|].
  split; [apply sortHeTuPoints_idempotent|].
  intros _ Hnd v. now apply sortHeTuPoints_groupIds.
Qed.

Lemma generateHeTuPoints_NoDup : List.NoDup (List.map HeTuPoint.id generateHeTuPoints).
Proof. apply NoDup_ListNoDup, (bool_decide_unpack _). vm_compute. exact I. Qed.

Lemma sortHeTuPoints_spec_witness :
  StronglySorted (idBefore 9)
    (groupIds 9 (sortHeTuPoints generateHeTuPoints yangSequenceValues)).
Proof.
  apply (sortHeTuPoints_spec generateHeTuPoints yangSequenceValues).
  - intros p Hp. exact Hp.
  - apply NoDup_ListNoDup, (bool_decide_unpack _). vm_compute. exact I.
Defined.

(** ** The point catalogs *)

Lemma CENTER_ROW_Y_pos : 0 < CENTER_ROW_Y.
Proof. unfold CENTER_ROW_Y, SPACING. lra. Qed.

(** C1: the generated catalogs have the traditional group sizes. In the He Tu
    catalog the heaven layer holds group 7 (south) with 7 points, group 1
    (north) with 1, group 9 (west) with 9 and group 3 (east) with 3; the earth
    layer holds group 2 (south) with 2, group 6 (north) with 6, group 8 (east)
    with 8 and group 4 (west) with 4; the center layer holds group 5 with 5
    points and group 10 with 10 points in two rows of 5. The Lo Shu catalog is
    generated, has the 9 groups 1..9, and its group k has k points. *)
Theorem catalog_group_cardinalities :
  (groupOnLayer generateHeTuPoints 7 7 Z_HEAVEN south
   /\ groupOnLayer generateHeTuPoints 1 1 Z_HEAVEN north
   /\ groupOnLayer generateHeTuPoints 9 9 Z_HEAVEN west
   /\ groupOnLayer generateHeTuPoints 3 3 Z_HEAVEN east)
  /\ (groupOnLayer generateHeTuPoints 2 2 Z_EARTH south
      /\ groupOnLayer generateHeTuPoints 6 6 Z_EARTH north
      /\ groupOnLayer generateHeTuPoints 8 8 Z_EARTH east
      /\ groupOnLayer generateHeTuPoints 4 4 Z_EARTH west)
  /\ (groupOnLayer generateHeTuPoints 5 5 Z_CENTER center
      /\ groupOnLayer generateHeTuPoints 10 10 Z_CENTER center
      /\ twoRows generateHeTuPoints 10 5 CENTER_ROW_Y
      /\ List.length generateHeTuPoints = 55%nat)
  /\ exists points : list LoShuPointData,
       generateLoShuPoints = Some points
       /\ loShuGroupValues points = [1; 2; 3; 4; 5; 6; 7; 8; 9]%Z
       /\ List.Forall (fun k => List.length (loShuGroupOf k points) = Z.to_nat k)
            [1; 2; 3; 4; 5; 6; 7; 8; 9]%Z.
Proof.
  assert (layer : forall v n zl g,
             List.length (heTuGroup v generateHeTuPoints) = n ->
             List.forallb (fun p => Group_eqb (HeTuPoint.group p) g)
               (heTuGroup v generateHeTuPoints) = true ->
             List.Forall (fun p => HeTuPoint.z p = zl) (heTuGroup v generateHeTuPoints) ->
             groupOnLayer generateHeTuPoints v n zl g).
  { intros v n zl g Hn Hg Hz. split; [exact Hn|].
    rewrite List.forallb_forall in Hg. rewrite List.Forall_forall in *.
    intros p Hp. split; [now apply Hz|].
    specialize (Hg p Hp). now destruct (HeTuPoint.group p), g. }
  assert (go : forall v n zl g,
             List.length (heTuGroup v generateHeTuPoints) = n ->
             List.forallb (fun p => Group_eqb (HeTuPoint.group p) g)
               (heTuGroup v generateHeTuPoints) = true ->
             List.Forall (fun p => HeTuPoint.z p = zl) (heTuGroup v generateHeTuPoints) ->
             groupOnLayer generateHeTuPoints v n zl g) by exact layer.
  clear layer.
  split; [|split; [|split]].
  - split; [|split; [|split]];
      (apply go; [reflexivity|reflexivity|repeat constructor]).
  - split; [|split; [|split]];
      (apply go; [reflexivity|reflexivity|repeat constructor]).
  - split; [|split; [|split]];
      [apply go; [reflexivity|reflexivity|repeat constructor]
      |apply go; [reflexivity|reflexivity|repeat constructor]
      | |reflexivity].
    exists (forPush 5 (fun i =>
      createPoint ("center-10-top-" +:+ showNat i) ((INR i - 2) * SPACING)
        CENTER_ROW_Y Z_CENTER YIN center 10)).
    exists (forPush 5 (fun i =>
      createPoint ("center-10-btm-" +:+ showNat i) ((INR i - 2) * SPACING)
        (- CENTER_ROW_Y) Z_CENTER YIN center 10)).
    split; [reflexivity|]. split; [reflexivity|]. split; [reflexivity|].
    split; repeat constructor.
  - exists (List.concat (List.map (fun num =>
              match loShuGroup num with Some g => g | None => [] end) loShuNumbers)).
    split; [reflexivity|]. split; [reflexivity|].
    repeat constructor.
Qed.

(** ** The blend of the interpolation engine *)

(** C3: for every point, mode config and time, the rendered position
    [static + (animated(t) - static) * b] is the static cube position when the
    blend factor is 0 and the position [getTargetPosition config t] when the
    blend factor is 1. *)
Theorem blendPosition_endpoints (pt : HeTuPoint) (gConfig : GalaxyPointConfig) (time : R) :
  blendPosition pt gConfig time 0
  = Vector3.mk (HeTuPoint.x pt) (HeTuPoint.y pt) (HeTuPoint.z pt)
  /\ blendPosition pt gConfig time 1 = getTargetPosition gConfig time.
Proof.
  unfold blendPosition. split.
  - f_equal; ring.
  - destruct (getTargetPosition gConfig time) as [tx ty tz]. simpl. f_equal; ring.
Qed.

(** ** Writing entries into a map, one after the other *)

Section InsertAll.

Context {V : Type}.

Lemma insertAll_app (a b : list (string * V)) (m : gmap string V) :
  insertAll (a ++ b) m = insertAll b (insertAll a m).
Proof. apply fold_left_app. Qed.

Lemma insertAll_notin (entries : list (string * V)) (m : gmap string V) (k : string) :
  ~ List.In k (List.map fst entries) -> insertAll entries m !! k = m !! k.
Proof.
  revert m. induction entries as [|[k' v'] entries IH]; intros m Hk; simpl in *; [reflexivity|].
  rewrite IH by tauto. apply lookup_insert_ne. tauto.
Qed.

Lemma insertAll_lookup (entries : list (string * V)) (m : gmap string V) (k : string) (v : V) :
  List.NoDup (List.map fst entries) -> List.In (k, v) entries ->
  insertAll entries m !! k = Some v.
Proof.
  revert m. induction entries as [|[k' v'] entries IH]; intros m Hnd Hin; simpl in *; [tauto|].
  inversion Hnd as [|? ? Hnotin Hnd']; subst.
  destruct Hin as [E|Hin].
  - inversion E; subst. rewrite insertAll_notin by exact Hnotin. apply lookup_insert_eq.
  - now apply IH.
Qed.

Lemma insertAll_is_Some (entries : list (string * V)) (m : gmap string V) (k : string) :
  List.In k (List.map fst entries) -> is_Some (insertAll entries m !! k).
Proof.
  revert m. induction entries as [|[k' v'] entries IH]; intros m Hin; simpl in *; [tauto|].
  destruct (in_dec string_dec k (List.map fst entries)) as [Hk|Hk]; [now apply IH|].
  destruct Hin as [->|Hin]; [|tauto].
  rewrite insertAll_notin by exact Hk. rewrite lookup_insert_eq. now eexists.
Qed.

(** An entry is read back when no later entry has its key. *)
Lemma insertAll_lookup_mid (pre mid post : list (string * V)) (m : gmap string V)
    (k : string) (v : V) :
  List.NoDup (List.map fst mid) -> List.In (k, v) mid ->
  ~ List.In k (List.map fst post) ->
  insertAll (pre ++ mid ++ post) m !! k = Some v.
Proof.
  intros Hnd Hin Hpost. rewrite !insertAll_app.
  rewrite insertAll_notin by exact Hpost. now apply insertAll_lookup.
Qed.

End InsertAll.

(** ** The two maps as lists of entries *)

Lemma forEach_core (l : list HeTuPoint) (yOffset : option R) (i : nat)
    (m : gmap string GalaxyPointConfig) :
  forEachFrom (fun map p (_ : nat) => <[HeTuPoint.id p := coreConfig p yOffset]> map) l i m
  = insertAll (List.map (fun p => (HeTuPoint.id p, coreConfig p yOffset)) l) m.
Proof. revert i m. induction l as [|p l IH]; intros i m; simpl; [reflexivity|apply IH]. Qed.

Lemma forEach_ring (count : nat) (l : list HeTuPoint) (yOffset : option R) (i : nat)
    (m : gmap string GalaxyPointConfig) :
  forEachFrom (fun map p i => <[HeTuPoint.id p := ringConfig count i yOffset]> map) l i m
  = insertAll (ringEntriesFrom count yOffset l i) m.
Proof. revert i m. induction l as [|p l IH]; intros i m; simpl; [reflexivity|apply IH]. Qed.

Lemma forEach_spiral (armOffsetAngle : R) (l : list HeTuPoint) (i : nat) (s : SpiralLoop) :
  sl_map (forEachFrom (spiralBody armOffsetAngle) l i s)
  = insertAll (traversalEntries (spiralConfig armOffsetAngle) l
                 (spiralPhisFrom l i (sl_currentPhi s) (sl_lastNumberVal s)))
              (sl_map s).
Proof.
  revert i s. induction l as [|p l IH]; intros i s; simpl; [reflexivity|].
  now rewrite IH.
Qed.

Lemma forEach_helix (totalH phaseOffset speedDir : R) (l : list HeTuPoint) (i : nat)
    (s : HelixLoop) :
  hl_map (forEachFrom (helixBody totalH phaseOffset speedDir) l i s)
  = insertAll (traversalEntries (helixConfig totalH phaseOffset speedDir) l
                 (helixHeightsFrom l (hl_currentH s) (hl_lastNumberVal s)))
              (hl_map s).
Proof.
  revert i s. induction l as [|p l IH]; intros i s; simpl; [reflexivity|].
  now rewrite IH.
Qed.

Lemma centerAssembly_entries (points : list HeTuPoint) (yOffset : option R)
    (m : gmap string GalaxyPointConfig) :
  centerAssembly points yOffset m
  = insertAll (coreEntries points yOffset ++ ringEntries points yOffset) m.
Proof.
  unfold centerAssembly, forEach. rewrite forEach_ring, forEach_core.
  now rewrite insertAll_app.
Qed.

(** [generateGalaxyMap] writes the entries of the core, of the ring, of the
    odd arm and of the even arm, in this order. *)
Lemma generateGalaxyMap_entries (points : list HeTuPoint) :
  generateGalaxyMap points = insertAll (galaxyEntries points) ∅.
Proof.
  unfold generateGalaxyMap, createSpiralArm, forEach, galaxyEntries.
  rewrite !forEach_spiral, centerAssembly_entries. simpl.
  now rewrite !insertAll_app.
Qed.

Lemma generateHelixMap_entries (points : list HeTuPoint) :
  generateHelixMap points = insertAll (helixMapEntries points) ∅.
Proof.
  unfold generateHelixMap, assignHelixPosition, forEach, helixMapEntries.
  rewrite !forEach_helix, centerAssembly_entries. simpl.
  now rewrite !insertAll_app.
Qed.

(** ** Reading the entries back *)

Lemma spiralPhisFrom_length (l : list HeTuPoint) (i : nat) (phi : R) (last : Z) :
  List.length (spiralPhisFrom l i phi last) = List.length l.
Proof. revert i phi last. induction l; intros; simpl; [reflexivity|now rewrite IHl]. Qed.

Lemma helixHeightsFrom_length (l : list HeTuPoint) (h : R) (last : Z) :
  List.length (helixHeightsFrom l h last) = List.length l.
Proof. revert h last. induction l; intros; simpl; [reflexivity|now rewrite IHl]. Qed.

Lemma traversalEntries_keys (config : R -> GalaxyPointConfig) (l : list HeTuPoint)
    (values : list R) :
  List.length values = List.length l ->
  List.map fst (traversalEntries config l values) = List.map HeTuPoint.id l.
Proof.
  unfold traversalEntries. revert values.
  induction l as [|p l IH]; intros [|v values]; simpl; try discriminate; [reflexivity|].
  intros E. f_equal. apply IH. now injection E.
Qed.

Lemma traversalEntries_nth (config : R -> GalaxyPointConfig) (l : list HeTuPoint)
    (values : list R) (i : nat) (p : HeTuPoint) (v : R) :
  List.nth_error l i = Some p -> List.nth_error values i = Some v ->
  List.nth_error (traversalEntries config l values) i = Some (HeTuPoint.id p, config v).
Proof.
  unfold traversalEntries. revert values i.
  induction l as [|q l IH]; intros [|w values] [|i]; simpl; try discriminate.
  - intros [= ->] [= ->]. reflexivity.
  - apply IH.
Qed.

Lemma ringEntriesFrom_keys (count : nat) (yOffset : option R) (l : list HeTuPoint) (i : nat) :
  List.map fst (ringEntriesFrom count yOffset l i) = List.map HeTuPoint.id l.
Proof. revert i. induction l; intros; simpl; [reflexivity|now rewrite IHl]. Qed.

Lemma ringEntriesFrom_nth (count : nat) (yOffset : option R) (l : list HeTuPoint)
    (i j : nat) (p : HeTuPoint) :
  List.nth_error l j = Some p ->
  List.nth_error (ringEntriesFrom count yOffset l i) j
  = Some (HeTuPoint.id p, ringConfig count (i + j) yOffset).
Proof.
  revert i j. induction l as [|q l IH]; intros i [|j]; simpl; try discriminate.
  - intros [= ->]. now rewrite Nat.add_0_r.
  - intros H. rewrite (IH (Datatypes.S i) j H). now rewrite Nat.add_succ_r.
Qed.

Lemma spiralEntries_keys (points : list HeTuPoint) (sequence : list Z) (off : R) :
  List.map fst (spiralEntries points sequence off)
  = List.map HeTuPoint.id (sortHeTuPoints points sequence).
Proof. apply traversalEntries_keys, spiralPhisFrom_length. Qed.

Lemma helixEntries_keys (points : list HeTuPoint) (sequence : list Z) (phase dir : R) :
  List.map fst (helixEntries points sequence phase dir)
  = List.map HeTuPoint.id (sortHeTuPoints points sequence).
Proof. apply traversalEntries_keys, helixHeightsFrom_length. Qed.

(** With pairwise different identifiers, the identifier of a point of one arm
    is not a key of the other arm. *)
Lemma arm_keys_disjoint (points : list HeTuPoint) (s1 s2 : list Z) (p : HeTuPoint) :
  List.NoDup (List.map HeTuPoint.id points) ->
  (forall v, includes s1 v = true -> includes s2 v = true -> False) ->
  List.In p (sortHeTuPoints points s1) ->
  ~ List.In (HeTuPoint.id p) (List.map HeTuPoint.id (sortHeTuPoints points s2)).
Proof.
  intros Hnd Hdis Hp Hin. apply List.in_map_iff in Hin. destruct Hin as [q [E Hq]].
  apply sortHeTuPoints_In in Hp, Hq. destruct Hp as [Hp Hp1], Hq as [Hq Hq2].
  assert (q = p) by (eapply NoDup_map_inj_on; eauto). subst q.
  exact (Hdis _ Hp1 Hq2).
Qed.

Lemma yang_yin_disjoint (v : Z) :
  includes yangSequenceValues v = true -> includes yinSequenceValues v = true -> False.
Proof.
  unfold includes, yangSequenceValues, yinSequenceValues. simpl.
  rewrite !orb_true_iff, !Z.eqb_eq. lia.
Qed.

Section ArmLookup.

Variable points : list HeTuPoint.

Hypothesis ids_distinct : List.NoDup (List.map HeTuPoint.id points).

(** An entry of the odd traversal is read back from a map that writes the
    even traversal after it, and conversely. *)
Lemma lookup_two_traversals (pre yang yin : list (string * GalaxyPointConfig))
    (k : string) (v : GalaxyPointConfig) :
  List.map fst yang = List.map HeTuPoint.id (sortHeTuPoints points yangSequenceValues) ->
  List.map fst yin = List.map HeTuPoint.id (sortHeTuPoints points yinSequenceValues) ->
  List.In (k, v) yang \/ List.In (k, v) yin ->
  insertAll (pre ++ yang ++ yin) ∅ !! k = Some v.
Proof using ids_distinct.
  intros Kyang Kyin [Hin|Hin].
  - apply insertAll_lookup_mid; [| exact Hin |].
    + rewrite Kyang. now apply sortHeTuPoints_NoDup.
    + rewrite Kyin. intros Hk.
      assert (Hk' : List.In k (List.map fst yang)) by (apply (List.in_map fst) in Hin; exact Hin).
      rewrite Kyang in Hk'. apply List.in_map_iff in Hk'. destruct Hk' as [p [<- Hp]].
      revert Hk. apply (arm_keys_disjoint points yangSequenceValues); auto.
      exact yang_yin_disjoint.
  - replace (pre ++ yang ++ yin) with ((pre ++ yang) ++ yin ++ [])
      by (now rewrite List.app_nil_r, List.app_assoc).
    apply insertAll_lookup_mid; [| exact Hin | simpl; tauto].
    rewrite Kyin. now apply sortHeTuPoints_NoDup.
Qed.


Lemma helix_strand_lookup (sequence : list Z) (phase : R) (i : nat) (p : HeTuPoint) (h : R) :
  (sequence, phase) = (yangSequenceValues, 0) \/ (sequence, phase) = (yinSequenceValues, PI) ->
  List.nth_error (sortHeTuPoints points sequence) i = Some p ->
  List.nth_error (helixHeights (sortHeTuPoints points sequence)) i = Some h ->
  generateHelixMap points !! HeTuPoint.id p
  = Some (helixConfig (helixTotalHeight (sortHeTuPoints points sequence)) phase (-1.0) h).
Proof using ids_distinct.
  intros Harm Hp Hh. rewrite generateHelixMap_entries. unfold helixMapEntries.
  apply lookup_two_traversals; try apply helixEntries_keys.
  pose proof (traversalEntries_nth
                (helixConfig (helixTotalHeight (sortHeTuPoints points sequence)) phase (-1.0))
                _ _ _ _ _ Hp Hh) as Hn.
  apply List.nth_error_In in Hn.
  destruct Harm as [[= -> ->]|[= -> ->]]; [left|right]; exact Hn.
Qed.

End ArmLookup.

(** ** The spiral arms *)








Lemma Forall2_nth_error {A B : Type} (P : A -> B -> Prop) (l1 : list A) (l2 : list B) :
  List.length l1 = List.length l2 ->
  (forall i a b, List.nth_error l1 i = Some a -> List.nth_error l2 i = Some b -> P a b) ->
  List.Forall2 P l1 l2.
Proof.
  revert l2. induction l1 as [|a l1 IH]; intros [|b l2]; simpl; try discriminate.
  - constructor.
  - intros E H. constructor.
    + apply (H 0%nat); reflexivity.
    + apply IH; [now injection E|]. intros i. apply (H (Datatypes.S i)).
Qed.

Lemma arm_validGroup (points : list HeTuPoint) (sequence : list Z) :
  includes sequence (-1) = false ->
  List.Forall validGroup (sortHeTuPoints points sequence).
Proof.
  intros Hseq. eapply List.Forall_impl; [|apply sortHeTuPoints_Forall].
  intros p Hp E. unfold inSequence in Hp. rewrite E in Hp. congruence.
Qed.







(** ** The helix strands *)

Lemma helixHeightsFrom_strandHeightsAfter (prev : HeTuPoint) (rest : list HeTuPoint) (h : R) :
  validGroup prev -> List.Forall validGroup rest ->
  helixHeightsFrom rest h (HeTuPoint.numberValue prev) = strandHeightsAfter prev h rest.
Proof.
  revert prev h. induction rest as [|q rest IH]; intros prev h Hprev Hrest; simpl;
    [reflexivity|].
  inversion Hrest as [|? ? Hq Hrest']; subst.
  assert (E : helixAdvance h (HeTuPoint.numberValue prev) q = h + strandStep prev q).
  { unfold helixAdvance, strandStep.
    unfold validGroup in Hprev. apply Z.eqb_neq in Hprev. rewrite Hprev. simpl.
    now destruct (HeTuPoint.numberValue q =? HeTuPoint.numberValue prev)%Z. }
  rewrite E. f_equal. now apply IH.
Qed.

Lemma helixHeights_strandHeights (strand : list HeTuPoint) :
  List.Forall validGroup strand -> helixHeights strand = strandHeights strand.
Proof.
  destruct strand as [|p rest]; [reflexivity|]. intros H. inversion H; subst.
  unfold helixHeights. simpl. unfold helixAdvance at 1. simpl. f_equal.
  unfold helixAdvance at 1. simpl. now apply helixHeightsFrom_strandHeightsAfter.
Qed.

Lemma last_cons {A : Type} (a d : A) (l : list A) : List.last (a :: l) d = List.last l a.
Proof.
  revert a d. induction l as [|b l IH]; intros a d; [reflexivity|].
  change (List.last (a :: b :: l) d) with (List.last (b :: l) d).
  now rewrite (IH b d), (IH b a).
Qed.

Lemma last_map {A B : Type} (f : A -> B) (l : list A) (d : A) :
  List.last (List.map f l) (f d) = f (List.last l d).
Proof.
  revert d. induction l as [|a l IH]; intros d; [reflexivity|].
  simpl List.map. now rewrite !last_cons.
Qed.

(** The first pass of [assignHelixPosition] ends on the height the second
    pass reaches at the last point. *)
Lemma helixTotalHeight_last (strandPoints : list HeTuPoint) :
  helixTotalHeight strandPoints = List.last (helixHeights strandPoints) 0.
Proof.
  unfold helixTotalHeight, forEach, helixHeights.
  generalize 0%nat as i. generalize 0 as h. generalize (-1)%Z as lastVal.
  induction strandPoints as [|p l IH]; intros lastVal h i; [reflexivity|].
  simpl forEachFrom. simpl helixHeightsFrom. rewrite last_cons. apply IH.
Qed.

Lemma strandHeights_length (strand : list HeTuPoint) :
  List.length (strandHeights strand) = List.length strand.
Proof.
  destruct strand as [|p rest]; simpl; [reflexivity|]. f_equal.
  generalize 0 as h. revert p. induction rest as [|q rest IH]; intros; simpl; auto.
Qed.

Lemma helix_strand_law (points : list HeTuPoint) (sequence : list Z) (phase : R) :
  List.NoDup (List.map HeTuPoint.id points) ->
  (sequence, phase) = (yangSequenceValues, 0) \/ (sequence, phase) = (yinSequenceValues, PI) ->
  strandLaw points sequence phase.
Proof.
  intros Hnd Harm.
  assert (Hvalid : List.Forall validGroup (sortHeTuPoints points sequence)).
  { apply arm_validGroup. destruct Harm as [[= -> _]|[= -> _]]; reflexivity. }
  pose proof (helixHeights_strandHeights _ Hvalid) as Hhs.
  pose proof (helixTotalHeight_last (sortHeTuPoints points sequence)) as Htotal.
  rewrite Hhs in Htotal.
  unfold strandLaw. split; [|split; [|split]].
  - apply Forall2_nth_error; [now rewrite strandHeights_length|].
    intros i p h Hp Hh. rewrite <- Hhs in Hh.
    pose proof (helix_strand_lookup points Hnd sequence phase i p h Harm Hp Hh) as Hlk.
    rewrite Htotal in Hlk. eexists. split; [exact Hlk|]. simpl. auto.
  - destruct (sortHeTuPoints points sequence); simpl; [reflexivity|lra].
  - destruct (sortHeTuPoints points sequence); simpl; [reflexivity|lra].
  - assert (Hhd : forall hs0, strandHeights (sortHeTuPoints points sequence) = hs0 ->
                   List.hd 0 hs0 = 0).
    { intros hs0 <-. now destruct (sortHeTuPoints points sequence). }
    specialize (Hhd _ eq_refl).
    destruct (strandHeights (sortHeTuPoints points sequence)) as [|h0 hs].
    + simpl. lra.
    + simpl in Hhd. subst h0. rewrite last_cons.
      set (T := List.last hs 0).
      simpl List.map. rewrite last_cons.
      rewrite (last_map (fun h => - T / 2 + h) hs 0). fold T.
      simpl. lra.
Qed.

(** C8: in [generateHelixMap], the odd strand has phase 0 and the even strand
    phase [PI], half a turn apart; every point of both strands is assigned
    the same speed factor [-1.0]; and the heights of a strand start at
    [- totalHeight / 2] and end at [+ totalHeight / 2], so that the strand is
    vertically centered on the pivot layer. *)
Theorem helix_strands (points : list HeTuPoint) :
  List.NoDup (List.map HeTuPoint.id points) ->
  strandLaw points [1; 3; 7; 9]%Z 0
  /\ strandLaw points [2; 4; 6; 8]%Z PI
  /\ PI - 0 = PI.
Proof.
  intros Hnd. split; [|split; [|lra]].
  - apply helix_strand_law; [exact Hnd|now left].
  - apply helix_strand_law; [exact Hnd|now right].
Qed.

Lemma helix_strands_witness :
  strandLaw generateHeTuPoints [1; 3; 7; 9]%Z 0
  /\ strandLaw generateHeTuPoints [2; 4; 6; 8]%Z PI
  /\ PI - 0 = PI.
Proof.
  apply (helix_strands generateHeTuPoints).
  apply NoDup_ListNoDup, (bool_decide_unpack _). vm_compute. exact I.
Defined.

(** ** Every point of the catalog has its entries *)

Section Cover.

Variable points : list HeTuPoint.

Hypothesis ids_distinct : List.NoDup (List.map HeTuPoint.id points).

Hypothesis faces_covered : armsCoverFaces points = true.

Variable yOffset : option R.

Variables yang yin : list (string * GalaxyPointConfig).

Hypothesis yang_keys :
  List.map fst yang = List.map HeTuPoint.id (sortHeTuPoints points yangSequenceValues).

Hypothesis yin_keys :
  List.map fst yin = List.map HeTuPoint.id (sortHeTuPoints points yinSequenceValues).

Hypothesis yang_arm : List.Forall (fun e => GalaxyPointConfig.type (snd e) = ARM) yang.

Hypothesis yin_arm : List.Forall (fun e => GalaxyPointConfig.type (snd e) = ARM) yin.

Let entries : list (string * GalaxyPointConfig) :=
  (coreEntries points yOffset ++ ringEntries points yOffset) ++ yang ++ yin.

Lemma covered_cases (p : HeTuPoint) :
  List.In p points ->
  (HeTuPoint.group p = center
   /\ inArm yangSequenceValues p = false /\ inArm yinSequenceValues p = false)
  \/ (isCenter YANG p = false /\ isCenter YIN p = false
      /\ (inArm yangSequenceValues p = true \/ inArm yinSequenceValues p = true)).
Proof using faces_covered.
  intros Hp. unfold armsCoverFaces in faces_covered.
  rewrite List.forallb_forall in faces_covered. specialize (faces_covered p Hp).
  unfold isCenter.
  destruct (HeTuPoint.group p); simpl in *;
    try (right; split; [reflexivity|split; [reflexivity|]];
         apply orb_true_iff in faces_covered; exact faces_covered).
  left. apply negb_true_iff, orb_false_iff in faces_covered. tauto.
Qed.

Lemma key_not_in_arm (sequence : list Z) (p : HeTuPoint) :
  List.In p points -> inArm sequence p = false ->
  ~ List.In (HeTuPoint.id p) (List.map HeTuPoint.id (sortHeTuPoints points sequence)).
Proof using ids_distinct.
  intros Hp Hout Hin. apply List.in_map_iff in Hin. destruct Hin as [q [E Hq]].
  apply sortHeTuPoints_In in Hq. destruct Hq as [Hq Hq'].
  assert (q = p) by (eapply NoDup_map_inj_on; eauto). subst q.
  unfold inSequence, inArm in *. congruence.
Qed.

Lemma key_not_in_filter (g : HeTuPoint -> bool) (p : HeTuPoint) :
  List.In p points -> g p = false ->
  ~ List.In (HeTuPoint.id p) (List.map HeTuPoint.id (List.filter g points)).
Proof using ids_distinct.
  intros Hp Hout Hin. apply List.in_map_iff in Hin. destruct Hin as [q [E Hq]].
  apply List.filter_In in Hq. destruct Hq as [Hq Hq'].
  assert (q = p) by (eapply NoDup_map_inj_on; eauto). subst q. congruence.
Qed.

Lemma coreEntries_keys :
  List.map fst (coreEntries points yOffset)
  = List.map HeTuPoint.id (List.filter (isCenter YANG) points).
Proof using Type. unfold coreEntries. rewrite List.map_map. reflexivity. Qed.

Lemma ringEntries_keys :
  List.map fst (ringEntries points yOffset)
  = List.map HeTuPoint.id (List.filter (isCenter YIN) points).
Proof using Type. apply ringEntriesFrom_keys. Qed.

Lemma entry_of_point (p : HeTuPoint) :
  List.In p points ->
  exists gConfig,
    insertAll entries ∅ !! HeTuPoint.id p = Some gConfig
    /\ GalaxyPointConfig.type gConfig = expectedType p.
Proof using All.
  intros Hp. unfold expectedType.
  destruct (covered_cases p Hp) as [[Hc [Hy1 Hy2]]|[Hn1 [Hn2 Harm]]].
  - (* a point of the center layer *)
    assert (Hpost : ~ List.In (HeTuPoint.id p) (List.map fst (yang ++ yin))).
    { rewrite List.map_app, List.in_app_iff, yang_keys, yin_keys.
      intros [H|H]; revert H; now apply key_not_in_arm. }
    destruct (isCenter YANG p) eqn:Ecore.
    + exists (coreConfig p yOffset). split; [|reflexivity].
      unfold entries. rewrite <- List.app_assoc.
      apply (insertAll_lookup_mid []).
      * rewrite coreEntries_keys. now apply NoDup_map_filter.
      * unfold coreEntries.
        apply (List.in_map (fun p => (HeTuPoint.id p, coreConfig p yOffset))).
        apply List.filter_In. now split.
      * rewrite List.map_app, List.in_app_iff, ringEntries_keys.
        intros [H|H]; [|now apply Hpost]. revert H. apply key_not_in_filter; [exact Hp|].
        unfold isCenter in *. destruct (HeTuPoint.polarity p); simpl in *;
          [now rewrite andb_false_r|now rewrite andb_false_r in Ecore].
    + assert (Ering : isCenter YIN p = true).
      { unfold isCenter in *. rewrite Hc in *. simpl in *.
        now destruct (HeTuPoint.polarity p). }
      rewrite Ering.
      assert (Hin : List.In p (List.filter (isCenter YIN) points))
        by (apply List.filter_In; now split).
      apply List.In_nth_error in Hin. destruct Hin as [i Hi].
      exists (ringConfig (List.length (List.filter (isCenter YIN) points)) (0 + i) yOffset).
      split; [|reflexivity].
      unfold entries. rewrite <- List.app_assoc.
      apply insertAll_lookup_mid.
      * rewrite ringEntries_keys. now apply NoDup_map_filter.
      * eapply List.nth_error_In. unfold ringEntries. now apply ringEntriesFrom_nth.
      * exact Hpost.
  - (* a point of a face *)
    rewrite Hn1, Hn2.
    assert (Hkey : List.In (HeTuPoint.id p) (List.map fst yang)
                   \/ List.In (HeTuPoint.id p) (List.map fst yin)).
    { rewrite yang_keys, yin_keys.
      destruct Harm as [H|H]; [left|right];
        apply List.in_map, sortHeTuPoints_In; now split. }
    assert (Hentry : exists c, (List.In (HeTuPoint.id p, c) yang
                                \/ List.In (HeTuPoint.id p, c) yin)
                               /\ GalaxyPointConfig.type c = ARM).
    { destruct Hkey as [H|H]; apply List.in_map_iff in H;
        destruct H as [[k c] [Ek Hin]]; simpl in Ek; subst k; exists c.
      - split; [now left|]. rewrite List.Forall_forall in yang_arm.
        exact (yang_arm _ Hin).
      - split; [now right|]. rewrite List.Forall_forall in yin_arm.
        exact (yin_arm _ Hin). }
    destruct Hentry as [c [Hin Hty]]. exists c. split; [|exact Hty].
    unfold entries. now apply (lookup_two_traversals points ids_distinct).
Qed.

End Cover.

Lemma traversalEntries_type (config : R -> GalaxyPointConfig) (l : list HeTuPoint)
    (values : list R) :
  (forall v, GalaxyPointConfig.type (config v) = ARM) ->
  List.Forall (fun e => GalaxyPointConfig.type (snd e) = ARM)
    (traversalEntries config l values).
Proof.
  intros H. apply List.Forall_forall. intros e He.
  unfold traversalEntries in He. apply List.in_map_iff in He.
  destruct He as [pv [<- _]]. apply H.
Qed.

Lemma spiralEntries_type (points : list HeTuPoint) (sequence : list Z) (off : R) :
  List.Forall (fun e => GalaxyPointConfig.type (snd e) = ARM)
    (spiralEntries points sequence off).
Proof. apply traversalEntries_type. reflexivity. Qed.

Lemma helixEntries_type (points : list HeTuPoint) (sequence : list Z) (phase dir : R) :
  List.Forall (fun e => GalaxyPointConfig.type (snd e) = ARM)
    (helixEntries points sequence phase dir).
Proof. apply traversalEntries_type. reflexivity. Qed.

(** Both maps have, for every point of a list with pairwise different
    identifiers whose face points lie in the arm sequences and whose center
    points do not, an entry of the expected kind. *)
Lemma maps_cover (points : list HeTuPoint) (p : HeTuPoint) :
  List.NoDup (List.map HeTuPoint.id points) -> armsCoverFaces points = true ->
  List.In p points ->
  exists galaxyConfig helixConfig,
    generateGalaxyMap points !! HeTuPoint.id p = Some galaxyConfig
    /\ generateHelixMap points !! HeTuPoint.id p = Some helixConfig
    /\ GalaxyPointConfig.type galaxyConfig = expectedType p
    /\ GalaxyPointConfig.type helixConfig = expectedType p.
Proof.
  intros Hnd Hcov Hp.
  destruct (entry_of_point points Hnd Hcov None
              (spiralEntries points yangSequenceValues (- PI / 2))
              (spiralEntries points yinSequenceValues (PI / 2))
              (spiralEntries_keys _ _ _) (spiralEntries_keys _ _ _)
              (spiralEntries_type _ _ _) (spiralEntries_type _ _ _) p Hp) as [g [Hg Tg]].
  destruct (entry_of_point points Hnd Hcov (Some 0)
              (helixEntries points [1; 3; 7; 9]%Z 0 (-1.0))
              (helixEntries points [2; 4; 6; 8]%Z PI (-1.0))
              (helixEntries_keys _ _ _ _) (helixEntries_keys _ _ _ _)
              (helixEntries_type _ _ _ _) (helixEntries_type _ _ _ _) p Hp) as [h [Hh Th]].
  exists g, h. rewrite generateGalaxyMap_entries, generateHelixMap_entries. auto.
Qed.

(** C10: for every point of [generateHeTuPoints], [generateGalaxyMap] and
    [generateHelixMap] have an entry under the identifier of the point, of
    type CORE for the center points of polarity YANG, RING for the center
    points of polarity YIN and ARM for the face points, all of which lie in
    one of the two arm sequences; so the lookups of the per-frame update find
    a config for every point, in every mode. *)
Theorem catalog_points_have_configs :
  List.Forall
    (fun pt => exists galaxyConfig helixConfig,
         generateGalaxyMap generateHeTuPoints !! HeTuPoint.id pt = Some galaxyConfig
         /\ generateHelixMap generateHeTuPoints !! HeTuPoint.id pt = Some helixConfig
         /\ GalaxyPointConfig.type galaxyConfig = expectedType pt
         /\ GalaxyPointConfig.type helixConfig = expectedType pt)
    generateHeTuPoints
  /\ armsCoverFaces generateHeTuPoints = true
  /\ forall (mode : Mode) (time morph : R),
       List.Forall
         (fun pt => is_Some (updatePoint mode (generateGalaxyMap generateHeTuPoints)
                               (generateHelixMap generateHeTuPoints) time morph pt))
         generateHeTuPoints.
Proof.
  assert (Hcov : armsCoverFaces generateHeTuPoints = true) by reflexivity.
  assert (Hall : forall pt, List.In pt generateHeTuPoints ->
            exists galaxyConfig helixConfig,
              generateGalaxyMap generateHeTuPoints !! HeTuPoint.id pt = Some galaxyConfig
              /\ generateHelixMap generateHeTuPoints !! HeTuPoint.id pt = Some helixConfig
              /\ GalaxyPointConfig.type galaxyConfig = expectedType pt
              /\ GalaxyPointConfig.type helixConfig = expectedType pt).
  { intros pt Hpt. apply maps_cover; [apply generateHeTuPoints_NoDup|exact Hcov|exact Hpt]. }
  split; [now apply List.Forall_forall|]. split; [exact Hcov|].
  intros mode time morph. apply List.Forall_forall. intros pt Hpt.
  destruct (Hall pt Hpt) as [g [h [Hg [Hh _]]]].
  unfold updatePoint. destruct mode; rewrite ?Hg, ?Hh; now eexists.
Qed.

(** ** The timed transitions of the state machine *)

Lemma elapse_animState (ms : nat) (app : App) :
  animState (elapse ms (app))
  = runDue (List.filter (isDue (clock app + ms)) (timers app)) (animState app).
Proof. reflexivity. Qed.

(** While the galaxy morph is under way, stale timers can only complete it. *)
Lemma runDue_morphing (due : list (nat * TimerCallback)) (s : AnimationState) :
  s = MORPHING \/ s = RUNNING ->
  runDue due s = MORPHING \/ runDue due s = RUNNING.
Proof.
  revert s. induction due as [|[t cb] due IH]; intros s Hs; [exact Hs|].
  apply IH. destruct Hs as [-> | ->], cb; simpl; auto.
Qed.

Lemma runDue_returning (due : list (nat * TimerCallback)) (s : AnimationState) :
  s = RETURNING \/ s = STATIC ->
  runDue due s = RETURNING \/ runDue due s = STATIC.
Proof.
  revert s. induction due as [|[t cb] due IH]; intros s Hs; [exact Hs|].
  apply IH. destruct Hs as [-> | ->], cb; simpl; auto.
Qed.

Lemma runDue_app (a b : list (nat * TimerCallback)) (s : AnimationState) :
  runDue (a ++ b) s = runDue b (runDue a s).
Proof. apply fold_left_app. Qed.

Lemma elapse_after_setTimeout (cb : TimerCallback) (app : App) (ms : nat) :
  (MORPH_MS <= ms)%nat ->
  animState (elapse ms (setTimeout cb MORPH_MS app))
  = runTimerCallback cb
      (runDue (List.filter (isDue (clock app + ms)) (timers app)) (animState app)).
Proof.
  intros Hms. rewrite elapse_animState.
  change (timers (setTimeout cb MORPH_MS app))
    with (timers app ++ [((clock app + MORPH_MS)%nat, cb)]).
  change (clock (setTimeout cb MORPH_MS app)) with (clock app).
  change (animState (setTimeout cb MORPH_MS app)) with (animState app).
  rewrite List.filter_app, runDue_app.
  assert (E : isDue (clock app + ms) ((clock app + MORPH_MS)%nat, cb) = true)
    by (apply Nat.leb_le; simpl; lia).
  cbn [List.filter]. rewrite E. reflexivity.
Qed.

Lemma handleGalaxyClick_static (app : App) :
  animState app = STATIC ->
  handleGalaxyClick app
  = setTimeout advanceToRunning MORPH_MS (setAnimState MORPHING (setLastMode LAST_GALAXY app)).
Proof. intros H. unfold handleGalaxyClick. now rewrite H. Qed.

(** C5: a select-galaxy intent in STATIC enters MORPHING and sets the
    1-second timer; the timer, when it fires, advances MORPHING to RUNNING and
    leaves every other state as it is; a reset intent in any state but STATIC
    enters RETURNING and sets the timer that advances RETURNING to STATIC and
    leaves every other state as it is; so, with no further input, select-galaxy
    in STATIC followed by the morph duration reaches RUNNING (and is still
    MORPHING before, no older timer pending), and reset followed by the return
    duration reaches STATIC. *)
Theorem timed_transitions :
  (forall app, animState app = STATIC ->
     animState (handleGalaxyClick app) = MORPHING
     /\ timers (handleGalaxyClick app)
        = timers app ++ [((clock app + 1000)%nat, advanceToRunning)])
  /\ (runTimerCallback advanceToRunning MORPHING = RUNNING
      /\ forall curr, curr <> MORPHING -> runTimerCallback advanceToRunning curr = curr)
  /\ (forall app, animState app <> STATIC ->
        animState (handleReset app) = RETURNING
        /\ timers (handleReset app)
           = timers app ++ [((clock app + 1000)%nat, advanceToStatic)])
  /\ (runTimerCallback advanceToStatic RETURNING = STATIC
      /\ forall curr, curr <> RETURNING -> runTimerCallback advanceToStatic curr = curr)
  /\ (forall app ms, animState app = STATIC -> (1000 <= ms)%nat ->
        animState (elapse ms (handleGalaxyClick app)) = RUNNING)
  /\ (forall app ms, animState app = STATIC -> timers app = [] -> (ms < 1000)%nat ->
        animState (elapse ms (handleGalaxyClick app)) = MORPHING)
  /\ (forall app ms, animState app <> STATIC -> (1000 <= ms)%nat ->
        animState (elapse ms (handleReset app)) = STATIC).
Proof.
  split; [|split; [|split; [|split; [|split; [|split]]]]].
  - intros app H. rewrite (handleGalaxyClick_static app H). auto.
  - split; [reflexivity|]. intros curr H. now destruct curr.
  - intros app H. unfold handleReset.
    destruct (animState app) eqn:E; try contradiction; simpl; auto.
  - split; [reflexivity|]. intros curr H. now destruct curr.
  - intros app ms H Hms. rewrite (handleGalaxyClick_static app H).
    rewrite elapse_after_setTimeout by exact Hms.
    change (animState (setAnimState MORPHING (setLastMode LAST_GALAXY app))) with MORPHING.
    match goal with
    | |- runTimerCallback _ (runDue ?due MORPHING) = _ =>
        destruct (runDue_morphing due MORPHING) as [-> | ->]; auto
    end.
  - intros app ms H Ht Hms. rewrite (handleGalaxyClick_static app H).
    rewrite elapse_animState. unfold setTimeout, setAnimState, setLastMode.
    cbn [timers clock animState]. rewrite Ht, List.app_nil_l. cbn [List.filter].
    assert (E : isDue (clock app + ms) ((clock app + MORPH_MS)%nat, advanceToRunning) = false)
      by (apply Nat.leb_gt; unfold MORPH_MS; simpl; lia).
    rewrite E. reflexivity.
  - intros app ms H Hms. unfold handleReset.
    assert (E : negb (AnimationState_eqb (animState app) STATIC) = true)
      by (destruct (animState app); try reflexivity; contradiction).
    rewrite E.
    assert (go : forall app', animState app' = RETURNING -> timers app' = timers app ->
                   clock app' = clock app ->
                   animState (elapse ms (setTimeout advanceToStatic MORPH_MS app')) = STATIC).
    { intros app' Hs Ht Hc. rewrite elapse_after_setTimeout by exact Hms.
      rewrite Hs.
      match goal with
      | |- runTimerCallback _ (runDue ?due RETURNING) = _ =>
          destruct (runDue_returning due RETURNING) as [-> | ->]; auto
      end. }
    destruct (isHelixState (animState app)); apply go; reflexivity.
Qed.

Lemma timed_transitions_witness :
  animState (elapse 1000 (handleGalaxyClick initialApp)) = RUNNING
  /\ animState (elapse 1000 (handleReset (handleHelixClick initialApp))) = STATIC.
Proof.
  split.
  - apply (proj1 (proj2 (proj2 (proj2 (proj2 timed_transitions))))); [reflexivity|lia].
  - apply (proj2 (proj2 (proj2 (proj2 (proj2 (proj2 timed_transitions))))));
      [simpl; discriminate|lia].
Defined.

(** ** Group 5 of the Lo Shu catalog *)

Lemma gap_pos : 0 < gap.
Proof. unfold gap. lra. Qed.

(** The second point of group 5 does not sit at the center of the sphere:
    its sphere position is its offset [(0, gap * 0.6)] in the plane [z = 0]. *)
Lemma loShu_group5_off_center :
  exists points p,
    generateLoShuPoints = Some points
    /\ List.nth_error (loShuGroupOf 5 points) 1 = Some p
    /\ LoShuPointData.id p = "ls-5-1"
    /\ LoShuPointData.spherePos p = (0, gap * 0.6, 0)
    /\ LoShuPointData.spherePos p <> (0, 0, 0).
Proof.
  eexists. eexists. split; [reflexivity|]. split; [reflexivity|].
  split; [reflexivity|]. split; [reflexivity|].
  simpl. intros E. injection E as E. pose proof gap_pos. lra.
Qed.

(** C4, as the code has it: group 5 of the Lo Shu catalog has exactly 5
    points, with the local offsets (0,0), (0, 0.6 gap), (0, -0.6 gap),
    (-0.6 gap, 0), (0.6 gap, 0); the group is special-cased, no rotation is
    applied, and the sphere position of the point of offset (ox, oy) is
    (ox, oy, 0): the group lies flat in the plane z = 0 around the center of
    the sphere, its first point at the center (0,0,0), the four others at
    distance 0.6 gap from it. *)
Theorem loShu_group5_flat :
  exists points,
    generateLoShuPoints = Some points
    /\ List.length (loShuGroupOf 5 points) = 5%nat
    /\ loShuOffsets 5
       = [(0, 0); (0, 0.6 * gap); (0, - (0.6 * gap)); (- (0.6 * gap), 0); (0.6 * gap, 0)]
    /\ groupSpherePositions 5 points
       = List.map (fun off => (fst off, snd off, 0)) (loShuOffsets 5)
    /\ List.hd_error (groupSpherePositions 5 points) = Some (0, 0, 0)
    /\ List.Forall (fun pos => pos <> (0, 0, 0) /\
                      fst (fst pos) * fst (fst pos) + snd (fst pos) * snd (fst pos)
                      = (0.6 * gap) * (0.6 * gap) /\ snd pos = 0)
         (List.tl (groupSpherePositions 5 points)).
Proof.
  eexists. split; [reflexivity|]. split; [reflexivity|].
  split; [|split; [reflexivity|split; [reflexivity|]]].
  - change (loShuOffsets 5)
      with [(0, 0); (0, gap * 0.6); (0, - gap * 0.6); (- gap * 0.6, 0); (gap * 0.6, 0)].
    repeat (f_equal; try ring).
  - pose proof gap_pos as Hg.
    repeat constructor; simpl; try ring;
      intros E; injection E; intros; lra.
Qed.

(** ** The energy path *)

Lemma lengthSq_neg (v : Vector3) : V3.lengthSq (v3neg v) = V3.lengthSq v.
Proof. unfold V3.lengthSq, v3neg. simpl. ring. Qed.

Lemma normalize_neg (v : Vector3) : V3.normalize (v3neg v) = v3neg (V3.normalize v).
Proof.
  unfold V3.normalize, V3.length. rewrite lengthSq_neg.
  destruct (Req_dec_T (sqrt (V3.lengthSq v)) 0);
    unfold V3.divideScalar, V3.multiplyScalar, v3neg; simpl; f_equal; ring.
Qed.

Lemma multiplyScalar_neg (v : Vector3) (s : R) :
  V3.multiplyScalar (v3neg v) s = v3neg (V3.multiplyScalar v s).
Proof. unfold V3.multiplyScalar, v3neg. simpl. f_equal; ring. Qed.

Lemma multiplyScalar_zero (s : R) : V3.multiplyScalar v3zero s = v3zero.
Proof. unfold V3.multiplyScalar, v3zero. simpl. f_equal; ring. Qed.

Lemma length_zero : V3.length v3zero = 0.
Proof.
  unfold V3.length, V3.lengthSq, v3zero. simpl.
  replace (0 * 0 + 0 * 0 + 0 * 0) with 0 by ring. apply sqrt_0.
Qed.

Lemma normalize_zero : V3.normalize v3zero = v3zero.
Proof.
  unfold V3.normalize. rewrite length_zero.
  destruct (Req_dec_T 0 0) as [_|H]; [|now contradiction H].
  apply multiplyScalar_zero.
Qed.

Lemma getPos_neg (radiusScale : R) (anchor : Vector3) :
  getPos radiusScale (v3neg anchor) = v3neg (getPos radiusScale anchor).
Proof.
  unfold getPos. rewrite lengthSq_neg.
  destruct (Rltb (V3.lengthSq anchor) 0.1).
  - unfold v3neg. simpl. f_equal; ring.
  - now rewrite normalize_neg, multiplyScalar_neg.
Qed.

(** Half-way between a direction and its opposite, the two weights of the
    spherical branch are the same number and the vector cancels; so does the
    vector of the linear branch. *)
Lemma slerpVec_antipodal_mid (n : Vector3) : slerpVec n (v3neg n) (1 / 2) = v3zero.
Proof.
  unfold slerpVec.
  set (theta := acos (Rmax (-1) (Rmin 1 (V3.dot n (v3neg n))))).
  destruct (Rltb (Rabs theta) 0.0001).
  - unfold V3.lerp, v3neg, v3zero. simpl. f_equal; field.
  - replace ((1 - 1 / 2) * theta) with (1 / 2 * theta) by field.
    unfold V3.add, V3.multiplyScalar, v3neg, v3zero. simpl. f_equal; ring.
Qed.

(** The sample half-way along a leg between a surface anchor and the opposite
    anchor is the center of the sphere. *)
Lemma legSample_antipodal_mid (anchor : Vector3) (radiusScale : R) (segmentsPerLeg j : nat) :
  Rltb (V3.lengthSq anchor) 0.1 = false ->
  INR j / INR segmentsPerLeg = 1 / 2 ->
  legSample anchor (v3neg anchor) radiusScale segmentsPerLeg j = v3zero.
Proof.
  intros Hsurface Hhalf. unfold legSample.
  rewrite lengthSq_neg, Hsurface. cbn [orb].
  rewrite getPos_neg, normalize_neg, Hhalf, slerpVec_antipodal_mid, normalize_zero.
  apply multiplyScalar_zero.
Qed.

Lemma legSample_9_1_mid :
  legSample anchor9 anchor1 defaultRadiusScale defaultSegmentsPerLeg 32 = v3zero.
Proof.
  replace anchor1 with (v3neg anchor9)
    by (unfold anchor1, anchor9, v3neg; simpl; f_equal; ring).
  apply legSample_antipodal_mid.
  - unfold Rltb, V3.lengthSq, anchor9, SPHERE_RADIUS. simpl.
    destruct (Rlt_dec _ _) as [H|H]; [lra|reflexivity].
  - unfold defaultSegmentsPerLeg. rewrite !INR_IZR_INZ.
    change (Z.of_nat 32) with 32%Z. change (Z.of_nat 64) with 64%Z. lra.
Qed.

(** C9 at the default arguments: the path is generated; its leg of index 8
    runs from anchor 9 to anchor 1, both on the surface; the sample of index
    32 of this leg, the point of index 8 * 64 + 32 of the path, is the center
    of the sphere, at distance 0 and not [SPHERE_RADIUS * radiusScale] from
    the origin. *)
Theorem energyPath_default_midpoint :
  exists path,
    generateLoShuEnergyPath defaultEnergySequence defaultRadiusScale defaultSegmentsPerLeg
    = Some path
    /\ List.nth_error defaultEnergySequence 8 = Some 9%Z
    /\ List.nth_error defaultEnergySequence 9 = Some 1%Z
    /\ LOSHU_ANCHORS 9 = Some anchor9 /\ LOSHU_ANCHORS 1 = Some anchor1
    /\ Rltb (V3.lengthSq anchor9) 0.1 = false /\ Rltb (V3.lengthSq anchor1) 0.1 = false
    /\ List.nth_error path (8 * 64 + 32) = Some v3zero
    /\ V3.length v3zero = 0
    /\ V3.length v3zero <> SPHERE_RADIUS * defaultRadiusScale.
Proof.
  eexists. split; [reflexivity|].
  split; [reflexivity|]. split; [reflexivity|].
  split; [reflexivity|]. split; [reflexivity|].
  assert (surface : forall y, y * y = 324 ->
            Rltb (V3.lengthSq (Vector3.mk 0 y 0)) 0.1 = false).
  { intros y Hy. unfold Rltb, V3.lengthSq. simpl.
    destruct (Rlt_dec _ _) as [H|H]; [lra|reflexivity]. }
  split; [apply surface; unfold SPHERE_RADIUS; lra|].
  split; [apply surface; unfold SPHERE_RADIUS; lra|].
  split; [|split; [apply length_zero|]].
  - rewrite <- legSample_9_1_mid. reflexivity.
  - rewrite length_zero. unfold SPHERE_RADIUS, defaultRadiusScale. lra.
Qed.

(** *** Legs between anchors that are not opposite stay on the sphere *)

Lemma lengthSq_nonneg (v : Vector3) : 0 <= V3.lengthSq v.
Proof. unfold V3.lengthSq. nra. Qed.

Lemma lengthSq_multiplyScalar (v : Vector3) (s : R) :
  V3.lengthSq (V3.multiplyScalar v s) = V3.lengthSq v * (s * s).
Proof. unfold V3.lengthSq, V3.multiplyScalar. simpl. ring. Qed.

Lemma normalize_isUnit (v : Vector3) : V3.lengthSq v <> 0 -> isUnit (V3.normalize v).
Proof.
  intros Hv. pose proof (lengthSq_nonneg v) as Hnn.
  assert (Hpos : 0 < sqrt (V3.lengthSq v)) by (apply sqrt_lt_R0; lra).
  unfold isUnit, V3.normalize, V3.length.
  destruct (Req_dec_T (sqrt (V3.lengthSq v)) 0) as [E|_]; [lra|].
  unfold V3.divideScalar. rewrite lengthSq_multiplyScalar.
  pose proof (sqrt_sqrt (V3.lengthSq v) Hnn) as Hsq.
  rewrite <- Hsq at 1. field. lra.
Qed.

Lemma length_scaled_unit (n : Vector3) (s : R) :
  isUnit n -> 0 <= s -> V3.length (V3.multiplyScalar n s) = s.
Proof.
  intros Hn Hs. unfold V3.length. rewrite lengthSq_multiplyScalar, Hn, Rmult_1_l.
  now apply sqrt_square.
Qed.

Lemma normalize_scaled_unit (n : Vector3) (s : R) :
  isUnit n -> 0 < s -> V3.normalize (V3.multiplyScalar n s) = n.
Proof.
  intros Hn Hs. unfold V3.normalize. rewrite (length_scaled_unit n s Hn (Rlt_le _ _ Hs)).
  destruct (Req_dec_T s 0) as [E|_]; [lra|].
  destruct n as [x y z]. unfold V3.divideScalar, V3.multiplyScalar. simpl.
  f_equal; field; lra.
Qed.

Lemma dot_le_1 (a b : Vector3) : isUnit a -> isUnit b -> V3.dot a b <= 1.
Proof.
  unfold isUnit, V3.lengthSq, V3.dot. destruct a as [ax ay az], b as [bx by' bz]. simpl.
  intros Ha Hb.
  pose proof (Rle_0_sqr (ax - bx)). pose proof (Rle_0_sqr (ay - by')).
  pose proof (Rle_0_sqr (az - bz)). unfold Rsqr in *. nra.
Qed.

Lemma lengthSq_lerp (a b : Vector3) (t : R) :
  V3.lengthSq (V3.lerp a b t)
  = (1 - t) * (1 - t) * V3.lengthSq a + t * t * V3.lengthSq b
    + 2 * t * (1 - t) * V3.dot a b.
Proof. unfold V3.lengthSq, V3.lerp, V3.dot. simpl. ring. Qed.

Lemma lengthSq_weighted (a b : Vector3) (w1 w2 : R) :
  V3.lengthSq (V3.add (V3.multiplyScalar a w1) (V3.multiplyScalar b w2))
  = w1 * w1 * V3.lengthSq a + w2 * w2 * V3.lengthSq b + 2 * w1 * w2 * V3.dot a b.
Proof. unfold V3.lengthSq, V3.add, V3.multiplyScalar, V3.dot. simpl. ring. Qed.

(** Between two unit directions that are not opposite, the vector of the
    interpolation does not vanish before the end of the leg. *)
Lemma slerpVec_nonzero (nStart nEnd : Vector3) (t : R) :
  isUnit nStart -> isUnit nEnd -> -1 < V3.dot nStart nEnd -> 0 <= t < 1 ->
  V3.lengthSq (slerpVec nStart nEnd t) <> 0.
Proof.
  intros Hs He Hd [Ht0 Ht1]. pose proof (dot_le_1 _ _ Hs He) as Hd1.
  unfold slerpVec. set (d := V3.dot nStart nEnd) in *.
  rewrite (Rmin_right 1 d) by exact Hd1. rewrite (Rmax_right (-1) d) by lra.
  unfold Rltb. destruct (Rlt_dec (Rabs (acos d)) 0.0001) as [Hsmall|Hbig].
  - rewrite lengthSq_lerp. fold d. unfold isUnit in Hs, He. rewrite Hs, He.
    replace ((1 - t) * (1 - t) * 1 + t * t * 1 + 2 * t * (1 - t) * d)
      with ((1 - 2 * t) * (1 - 2 * t) + 2 * (t * (1 - t) * (1 + d))) by ring.
    assert (HB : 0 <= t * (1 - t)) by (apply Rmult_le_pos; lra).
    assert (HBC : 0 <= t * (1 - t) * (1 + d)) by (apply Rmult_le_pos; lra).
    destruct (Req_dec_T t (1 / 2)) as [->|Hne].
    + replace ((1 - 2 * (1 / 2)) * (1 - 2 * (1 / 2))
               + 2 * (1 / 2 * (1 - 1 / 2) * (1 + d)))
        with ((1 + d) / 2) by field.
      lra.
    + assert (0 < (1 - 2 * t) * (1 - 2 * t)) by (apply Rsqr_pos_lt; lra).
      lra.
  - assert (Hd' : d < 1).
    { destruct (Req_dec_T d 1) as [E|Hne]; [|lra].
      exfalso. apply Hbig. rewrite E, acos_1, Rabs_R0. lra. }
    pose proof (acos_bound_lt d (conj Hd Hd')) as [Hth0 Hth1].
    set (theta := acos d) in *.
    assert (Hsin : 0 < sin theta) by (apply sin_gt_0; assumption).
    assert (Hw1 : 0 < sin ((1 - t) * theta) / sin theta).
    { apply Rdiv_lt_0_compat; [|exact Hsin]. apply sin_gt_0; nra. }
    assert (Hw2 : 0 <= sin (t * theta) / sin theta).
    { apply Rmult_le_pos; [|left; now apply Rinv_0_lt_compat].
      apply sin_ge_0; nra. }
    rewrite lengthSq_weighted. fold d. unfold isUnit in Hs, He. rewrite Hs, He.
    set (w1 := sin ((1 - t) * theta) / sin theta) in *.
    set (w2 := sin (t * theta) / sin theta) in *.
    replace (w1 * w1 * 1 + w2 * w2 * 1 + 2 * w1 * w2 * d)
      with ((w1 - w2) * (w1 - w2) + 2 * (w1 * w2 * (1 + d))) by ring.
    assert (HA : 0 <= (w1 - w2) * (w1 - w2)) by apply Rle_0_sqr.
    assert (HB : 0 <= w1 * w2) by (apply Rmult_le_pos; lra).
    destruct (Req_dec_T w2 0) as [E|Hne].
    + rewrite E. replace ((w1 - 0) * (w1 - 0) + 2 * (w1 * 0 * (1 + d))) with (w1 * w1) by ring.
      assert (0 < w1 * w1) by (apply Rmult_lt_0_compat; lra). lra.
    + assert (0 < w1 * w2) by (apply Rmult_lt_0_compat; lra).
      assert (0 < w1 * w2 * (1 + d)) by (apply Rmult_lt_0_compat; lra).
      lra.
Qed.

Lemma getPos_surface (radiusScale : R) (anchor : Vector3) :
  Rltb (V3.lengthSq anchor) 0.1 = false ->
  isUnit (V3.normalize anchor)
  /\ getPos radiusScale anchor
     = V3.multiplyScalar (V3.normalize anchor) (SPHERE_RADIUS * radiusScale).
Proof.
  intros H. unfold getPos. rewrite H. split; [|reflexivity].
  apply normalize_isUnit. unfold Rltb in H.
  destruct (Rlt_dec (V3.lengthSq anchor) 0.1); [discriminate|lra].
Qed.

(** Every sample of a leg between two surface anchors whose directions are
    not opposite lies at distance [SPHERE_RADIUS * radiusScale] from the
    origin. *)
Lemma legSample_on_sphere (startAnchor endAnchor : Vector3) (radiusScale : R)
    (segmentsPerLeg j : nat) :
  Rltb (V3.lengthSq startAnchor) 0.1 = false ->
  Rltb (V3.lengthSq endAnchor) 0.1 = false ->
  -1 < V3.dot (V3.normalize startAnchor) (V3.normalize endAnchor) ->
  0 < radiusScale -> (j < segmentsPerLeg)%nat ->
  V3.length (legSample startAnchor endAnchor radiusScale segmentsPerLeg j)
  = SPHERE_RADIUS * radiusScale.
Proof.
  intros Hs He Hdot Hscale Hj.
  destruct (getPos_surface radiusScale _ Hs) as [Us Ps].
  destruct (getPos_surface radiusScale _ He) as [Ue Pe].
  assert (Hrad : 0 < SPHERE_RADIUS * radiusScale) by (unfold SPHERE_RADIUS; nra).
  unfold legSample. rewrite Hs, He, Ps, Pe. cbn [orb].
  rewrite !normalize_scaled_unit by assumption.
  apply length_scaled_unit; [|lra].
  apply normalize_isUnit, slerpVec_nonzero; try assumption.
  assert (Hn : 0 < INR segmentsPerLeg) by (apply lt_0_INR; lia).
  assert (Hjn : INR j < INR segmentsPerLeg) by now apply lt_INR.
  pose proof (pos_INR j).
  split.
  - apply Rmult_le_pos; [assumption|left; now apply Rinv_0_lt_compat].
  - apply (Rmult_lt_reg_r (INR segmentsPerLeg)); [exact Hn|].
    unfold Rdiv. rewrite Rmult_assoc, Rinv_l by lra. lra.
Qed.

(** The components of a normalized vector are those of the vector, scaled by
    a positive factor. *)
Lemma normalize_components (v : Vector3) :
  V3.lengthSq v <> 0 ->
  exists k, 0 < k
    /\ V3.normalize v = Vector3.mk (Vector3.x v * k) (Vector3.y v * k) (Vector3.z v * k).
Proof.
  intros Hv. pose proof (lengthSq_nonneg v) as Hnn.
  assert (Hpos : 0 < sqrt (V3.lengthSq v)) by (apply sqrt_lt_R0; lra).
  exists (1 / sqrt (V3.lengthSq v)). split.
  - apply Rdiv_lt_0_compat; lra.
  - unfold V3.normalize, V3.length.
    destruct (Req_dec_T (sqrt (V3.lengthSq v)) 0) as [E|_]; [lra|reflexivity].
Qed.

Lemma sameSide_sum (p q k l : R) : 0 < k -> 0 < l -> sameSide p q -> p * k + q * l <> 0.
Proof.
  intros Hk Hl [[Hp Hq]|[[Hp Hq]|[[Hp Hq]|[Hp Hq]]]].
  - assert (0 <= p * k) by (apply Rmult_le_pos; lra).
    assert (0 < q * l) by (apply Rmult_lt_0_compat; lra). lra.
  - assert (0 < p * k) by (apply Rmult_lt_0_compat; lra).
    assert (0 <= q * l) by (apply Rmult_le_pos; lra). lra.
  - assert (0 <= (- p) * k) by (apply Rmult_le_pos; lra).
    assert (0 < (- q) * l) by (apply Rmult_lt_0_compat; lra). lra.
  - assert (0 < (- p) * k) by (apply Rmult_lt_0_compat; lra).
    assert (0 <= (- q) * l) by (apply Rmult_le_pos; lra). lra.
Qed.

(** Two directions that agree in side on one axis are not opposite. *)
Lemma dot_normalize_gt (a b : Vector3) :
  V3.lengthSq a <> 0 -> V3.lengthSq b <> 0 ->
  sameSide (Vector3.x a) (Vector3.x b) \/ sameSide (Vector3.y a) (Vector3.y b)
  \/ sameSide (Vector3.z a) (Vector3.z b) ->
  -1 < V3.dot (V3.normalize a) (V3.normalize b).
Proof.
  intros Ha Hb Hside.
  pose proof (normalize_isUnit a Ha) as Ua. pose proof (normalize_isUnit b Hb) as Ub.
  destruct (normalize_components a Ha) as [k [Hk Ea]].
  destruct (normalize_components b Hb) as [l [Hl Eb]].
  rewrite Ea, Eb in *. unfold isUnit, V3.lengthSq, V3.dot in *. simpl in *.
  destruct a as [ax ay az], b as [bx by' bz]. simpl in *.
  assert (Hsum : 0 < (ax * k + bx * l) * (ax * k + bx * l)
                     + (ay * k + by' * l) * (ay * k + by' * l)
                     + (az * k + bz * l) * (az * k + bz * l)).
  { pose proof (Rle_0_sqr (ax * k + bx * l)) as Hx.
    pose proof (Rle_0_sqr (ay * k + by' * l)) as Hy.
    pose proof (Rle_0_sqr (az * k + bz * l)) as Hz.
    unfold Rsqr in *.
    destruct Hside as [H|[H|H]]; apply (sameSide_sum _ _ k l Hk Hl) in H;
      apply Rsqr_pos_lt in H; unfold Rsqr in H; lra. }
  lra.
Qed.

(** *** The anchors of the table *)

Lemma LOSHU_ANCHORS_cases (n : Z) (a : Vector3) :
  LOSHU_ANCHORS n = Some a -> List.In (n, a) LOSHU_ANCHORS_entries.
Proof.
  unfold LOSHU_ANCHORS, lookupKey. intros H.
  destruct (List.find _ _) as [e|] eqn:E; [|discriminate]. injection H as <-.
  apply List.find_some in E. destruct E as [Hin He]. apply Z.eqb_eq in He.
  subst n. now destruct e.
Qed.

Ltac anchor_cases H :=
  apply LOSHU_ANCHORS_cases in H; unfold LOSHU_ANCHORS_entries in H; simpl in H;
  repeat (destruct H as [H|H]; [injection H as <- <-|]); try contradiction.

Ltac side_by_lra :=
  unfold sameSide;
  first [ left; split; lra | right; left; split; lra
        | right; right; left; split; lra | right; right; right; split; lra ].

Ltac axis_by_lra :=
  first [ left; side_by_lra | right; left; side_by_lra | right; right; side_by_lra ].

Lemma anchor_surface (n : Z) (a : Vector3) :
  LOSHU_ANCHORS n = Some a -> n <> 5%Z ->
  Rltb (V3.lengthSq a) 0.1 = false /\ V3.lengthSq a <> 0.
Proof.
  intros H Hn.
  assert (Hbig : 0.1 <= V3.lengthSq a).
  { anchor_cases H; try lia;
      unfold V3.lengthSq, D, D_CROSS, SPHERE_RADIUS; simpl; lra. }
  split; [|lra]. unfold Rltb. destruct (Rlt_dec _ _); [lra|reflexivity].
Qed.

Lemma anchor_center (a : Vector3) :
  LOSHU_ANCHORS 5 = Some a -> Rltb (V3.lengthSq a) 0.1 = true.
Proof.
  intros [= <-]. unfold Rltb, V3.lengthSq. simpl.
  destruct (Rlt_dec _ _) as [_|H]; [reflexivity|exfalso; apply H; lra].
Qed.

(** The anchors of two numbers that do not add up to 10 are not opposite. *)
Lemma anchors_not_opposite (m n : Z) (a b : Vector3) :
  LOSHU_ANCHORS m = Some a -> LOSHU_ANCHORS n = Some b ->
  m <> 5%Z -> n <> 5%Z -> (m + n)%Z <> 10%Z ->
  -1 < V3.dot (V3.normalize a) (V3.normalize b).
Proof.
  intros Ha Hb Hm Hn Hsum.
  pose proof (anchor_surface m a Ha Hm) as [_ Hla].
  pose proof (anchor_surface n b Hb Hn) as [_ Hlb].
  apply dot_normalize_gt; [exact Hla|exact Hlb|].
  clear Hla Hlb.
  anchor_cases Ha; anchor_cases Hb; try lia;
    unfold D, D_CROSS, SPHERE_RADIUS; simpl; axis_by_lra.
Qed.

(** The anchors of two numbers that add up to 10 are opposite. *)
Lemma anchors_opposite (m n : Z) (a b : Vector3) :
  LOSHU_ANCHORS m = Some a -> LOSHU_ANCHORS n = Some b ->
  (m + n)%Z = 10%Z -> b = v3neg a.
Proof.
  intros Ha Hb Hsum.
  anchor_cases Ha; anchor_cases Hb; try lia;
    unfold v3neg; simpl; f_equal; ring.
Qed.

(** *** The samples of a generated path *)

Lemma forPush_length {A : Type} (n : nat) (f : nat -> A) : List.length (forPush n f) = n.
Proof. unfold forPush. now rewrite List.length_map, List.length_seq. Qed.

Lemma forPush_nth {A : Type} (n : nat) (f : nat -> A) (j : nat) :
  (j < n)%nat -> List.nth_error (forPush n f) j = Some (f j).
Proof.
  intros Hj. unfold forPush. rewrite List.nth_error_map.
  rewrite List.nth_error_nth' with (d := 0%nat) by (now rewrite List.length_seq).
  now rewrite List.seq_nth.
Qed.

Lemma energyLegs_cons (startNum endNum : Z) (rest : list Z) (radiusScale : R)
    (segmentsPerLeg : nat) :
  energyLegs (startNum :: endNum :: rest) radiusScale segmentsPerLeg
  = match LOSHU_ANCHORS startNum, LOSHU_ANCHORS endNum with
    | Some startAnchor, Some endAnchor =>
        match energyLegs (endNum :: rest) radiusScale segmentsPerLeg with
        | Some more =>
            Some (forPush segmentsPerLeg
                    (legSample startAnchor endAnchor radiusScale segmentsPerLeg) ++ more)
        | None => None
        end
    | _, _ => None
    end.
Proof. reflexivity. Qed.

(** Leg [i] of a generated path contributes the samples
    [i * segmentsPerLeg + j], computed from the anchors of its two numbers. *)
Lemma energyLegs_sample (sequence : list Z) (radiusScale : R) (segmentsPerLeg : nat)
    (legs : list Vector3) (i j : nat) (startNum endNum : Z) :
  energyLegs sequence radiusScale segmentsPerLeg = Some legs ->
  List.nth_error sequence i = Some startNum ->
  List.nth_error sequence (Datatypes.S i) = Some endNum ->
  (j < segmentsPerLeg)%nat ->
  exists startAnchor endAnchor,
    LOSHU_ANCHORS startNum = Some startAnchor
    /\ LOSHU_ANCHORS endNum = Some endAnchor
    /\ List.nth_error legs (i * segmentsPerLeg + j)
       = Some (legSample startAnchor endAnchor radiusScale segmentsPerLeg j).
Proof.
  intros Hlegs Hs He Hj. revert legs i Hlegs Hs He.
  induction sequence as [|x rest IH]; intros legs i Hlegs Hs He; [now destruct i|].
  destruct rest as [|y rest']; [now destruct i as [|[|i]]|].
  rewrite energyLegs_cons in Hlegs.
  destruct (LOSHU_ANCHORS x) as [ax|] eqn:Ex; [|discriminate].
  destruct (LOSHU_ANCHORS y) as [ay|] eqn:Ey; [|discriminate].
  destruct (energyLegs (y :: rest') radiusScale segmentsPerLeg) as [more|] eqn:Emore;
    [|discriminate].
  injection Hlegs as <-.
  destruct i as [|i].
  - simpl in Hs, He. injection Hs as <-. injection He as <-.
    exists ax, ay. split; [exact Ex|split; [exact Ey|]].
    rewrite List.nth_error_app1 by (rewrite forPush_length; simpl; lia).
    now apply forPush_nth.
  - simpl in Hs. change (List.nth_error (y :: rest') (Datatypes.S i) = Some endNum) in He.
    destruct (IH more i eq_refl Hs He) as [a [b [Ha [Hb Hn]]]].
    exists a, b. split; [exact Ha|split; [exact Hb|]].
    rewrite List.nth_error_app2 by (rewrite forPush_length; simpl; lia).
    rewrite forPush_length.
    replace (Datatypes.S i * segmentsPerLeg + j - segmentsPerLeg)%nat
      with (i * segmentsPerLeg + j)%nat by (simpl; lia).
    exact Hn.
Qed.

Lemma energyPath_sample (sequence : list Z) (radiusScale : R) (segmentsPerLeg : nat)
    (path : list Vector3) (i j : nat) (startNum endNum : Z) :
  generateLoShuEnergyPath sequence radiusScale segmentsPerLeg = Some path ->
  List.nth_error sequence i = Some startNum ->
  List.nth_error sequence (Datatypes.S i) = Some endNum ->
  (j < segmentsPerLeg)%nat ->
  exists startAnchor endAnchor,
    LOSHU_ANCHORS startNum = Some startAnchor
    /\ LOSHU_ANCHORS endNum = Some endAnchor
    /\ List.nth_error path (i * segmentsPerLeg + j)
       = Some (legSample startAnchor endAnchor radiusScale segmentsPerLeg j).
Proof.
  unfold generateLoShuEnergyPath. intros Hpath Hs He Hj.
  destruct (energyLegs sequence radiusScale segmentsPerLeg) as [legs|] eqn:Elegs;
    [|discriminate].
  destruct (List.last _ _) as [lastAnchor|]; [|discriminate]. injection Hpath as <-.
  destruct (energyLegs_sample _ _ _ _ i j _ _ Elegs Hs He Hj) as [a [b [Ha [Hb Hn]]]].
  exists a, b. split; [exact Ha|split; [exact Hb|]].
  rewrite List.nth_error_app1; [exact Hn|].
  apply List.nth_error_Some. congruence.
Qed.

(** X1: The legs of a generated path, by kind. The samples of a leg between two
    numbers other than 5 that do not add up to 10 lie at distance
    [SPHERE_RADIUS * radiusScale] from the origin; the samples of a leg that
    starts or ends at 5 are the linear interpolation of its end positions;
    and half-way along a leg between two numbers other than 5 that add up to
    10 the sample is the center of the sphere. *)
Lemma energyPath_legs (sequence : list Z) (radiusScale : R) (segmentsPerLeg : nat)
    (path : list Vector3) (i j : nat) (startNum endNum : Z) :
  generateLoShuEnergyPath sequence radiusScale segmentsPerLeg = Some path ->
  List.nth_error sequence i = Some startNum ->
  List.nth_error sequence (Datatypes.S i) = Some endNum ->
  (j < segmentsPerLeg)%nat -> 0 < radiusScale ->
  exists startAnchor endAnchor v,
    LOSHU_ANCHORS startNum = Some startAnchor
    /\ LOSHU_ANCHORS endNum = Some endAnchor
    /\ List.nth_error path (i * segmentsPerLeg + j) = Some v
    /\ (startNum <> 5%Z -> endNum <> 5%Z -> (startNum + endNum)%Z <> 10%Z ->
        V3.length v = SPHERE_RADIUS * radiusScale)
    /\ (startNum = 5%Z \/ endNum = 5%Z ->
        v = V3.lerp (getPos radiusScale startAnchor) (getPos radiusScale endAnchor)
              (INR j / INR segmentsPerLeg))
    /\ (startNum <> 5%Z -> (startNum + endNum)%Z = 10%Z ->
        (2 * j)%nat = segmentsPerLeg -> v = v3zero).
Proof.
  intros Hpath Hs He Hj Hscale.
  destruct (energyPath_sample _ _ _ _ i j _ _ Hpath Hs He Hj) as [a [b [Ha [Hb Hn]]]].
  exists a, b, (legSample a b radiusScale segmentsPerLeg j).
  split; [exact Ha|]. split; [exact Hb|]. split; [exact Hn|].
  split; [|split].
  - intros Hs5 He5 Hsum.
    destruct (anchor_surface _ _ Ha Hs5) as [Hsa _].
    destruct (anchor_surface _ _ Hb He5) as [Hsb _].
    apply legSample_on_sphere; auto.
    now apply (anchors_not_opposite startNum endNum).
  - intros Hc. unfold legSample.
    assert (E : Rltb (V3.lengthSq a) 0.1 || Rltb (V3.lengthSq b) 0.1 = true).
    { apply orb_true_iff. destruct Hc as [-> | ->]; [left|right]; now apply anchor_center. }
    now rewrite E.
  - intros Hs5 Hsum Hhalf.
    rewrite (anchors_opposite _ _ _ _ Ha Hb Hsum).
    destruct (anchor_surface _ _ Ha Hs5) as [Hsa _].
    apply legSample_antipodal_mid; [exact Hsa|].
    rewrite <- Hhalf, mult_INR. simpl.
    assert (0 < INR j).
    { apply lt_0_INR. destruct j; [simpl in Hhalf; lia|lia]. }
    field. lra.
Qed.

Lemma energyPath_legs_witness :
  exists path v,
    generateLoShuEnergyPath defaultEnergySequence defaultRadiusScale defaultSegmentsPerLeg
    = Some path
    /\ List.nth_error path (0 * defaultSegmentsPerLeg + 10) = Some v
    /\ V3.length v = SPHERE_RADIUS * defaultRadiusScale.
Proof.
  eexists.
  destruct (energyPath_legs defaultEnergySequence defaultRadiusScale defaultSegmentsPerLeg
              _ 0 10 1%Z 2%Z eq_refl eq_refl eq_refl)
    as [a [b [v [_ [_ [Hn [Hon _]]]]]]].
  - unfold defaultSegmentsPerLeg. lia.
  - unfold defaultRadiusScale. lra.
  - exists v. split; [reflexivity|]. split; [exact Hn|].
    apply Hon; lia.
Defined.

(** * Further properties *)

(** ** The state machine: every handler, and time *)

Lemma runTimerCallback_settled (cb : TimerCallback) (s : AnimationState) :
  settled s = true -> runTimerCallback cb s = s.
Proof. now destruct s, cb. Qed.

Lemma runDue_settled (due : list (nat * TimerCallback)) (s : AnimationState) :
  settled s = true -> runDue due s = s.
Proof.
  induction due as [|t due IH]; intros Hs; [reflexivity|].
  simpl. rewrite runTimerCallback_settled by exact Hs. now apply IH.
Qed.

(** A timed transition that is still under way after the due timers have
    run was under way before, and its own timer was not among them. *)
Lemma runDue_pending (due : list (nat * TimerCallback)) (s : AnimationState)
    (cb : TimerCallback) :
  pendingCallback (runDue due s) = Some cb ->
  runDue due s = s /\ List.Forall (fun t => snd t <> cb) due.
Proof.
  revert s. induction due as [|[d c] due IH]; intros s H; [split; [reflexivity|constructor]|].
  simpl in H. destruct (IH _ H) as [E Hall].
  assert (H' : pendingCallback (runTimerCallback c s) = Some cb) by (now rewrite <- E).
  assert (Hc : runTimerCallback c s = s /\ c <> cb).
  { clear - H'. destruct s, c; simpl in *; try discriminate; split; try reflexivity;
      injection H' as <-; discriminate. }
  destruct Hc as [Es Hne]. split.
  - simpl. now rewrite E.
  - constructor; [exact Hne|exact Hall].
Qed.

Lemma pendingCallback_settled (s : AnimationState) :
  pendingCallback s = None <-> settled s = true.
Proof. destruct s; simpl; split; congruence. Qed.

Lemma elapse_after_enterTimed (cb : TimerCallback) (s : AnimationState) (m : LastMode)
    (app : App) (ms : nat) :
  (MORPH_MS <= ms)%nat ->
  animState (elapse ms (enterTimed cb s m app))
  = runTimerCallback cb (runDue (List.filter (isDue (clock app + ms)) (timers app)) s).
Proof. intros H. unfold enterTimed. now rewrite elapse_after_setTimeout. Qed.

Lemma handleHelixClick_enters (app : App) :
  isHelixState (animState app) = false ->
  handleHelixClick app = enterTimed advanceToHelixRunning HELIX_MORPHING LAST_HELIX app.
Proof. intros H. unfold handleHelixClick. now destruct (animState app). Qed.

Lemma handleGalaxyClick_enters (app : App) :
  isGalaxyState (animState app) = false ->
  handleGalaxyClick app = enterTimed advanceToRunning MORPHING LAST_GALAXY app.
Proof. intros H. unfold handleGalaxyClick. now destruct (animState app). Qed.

Lemma runDue_helix_morphing (due : list (nat * TimerCallback)) (s : AnimationState) :
  s = HELIX_MORPHING \/ s = HELIX_RUNNING ->
  runDue due s = HELIX_MORPHING \/ runDue due s = HELIX_RUNNING.
Proof.
  revert s. induction due as [|[t cb] due IH]; intros s Hs; [exact Hs|].
  apply IH. destruct Hs as [-> | ->], cb; simpl; auto.
Qed.

(** X2: The select-helix intent in any state outside the helix family (STATIC,
    RETURNING, and the three galaxy states, from which it crosses over without
    passing through STATIC) sets the last mode to HELIX, enters HELIX_MORPHING
    and, with no further input, has reached HELIX_RUNNING once the morph
    duration has passed, whatever older timers are pending. *)
Theorem helix_select_reaches_running (app : App) (ms : nat) :
  isHelixState (animState app) = false -> (1000 <= ms)%nat ->
  animState (handleHelixClick app) = HELIX_MORPHING
  /\ lastMode (handleHelixClick app) = LAST_HELIX
  /\ timers (handleHelixClick app)
     = timers app ++ [((clock app + 1000)%nat, advanceToHelixRunning)]
  /\ animState (elapse ms (handleHelixClick app)) = HELIX_RUNNING.
Proof.
  intros H Hms. rewrite (handleHelixClick_enters app H).
  split; [reflexivity|]. split; [reflexivity|]. split; [reflexivity|].
  rewrite elapse_after_enterTimed by exact Hms.
  match goal with
  | |- runTimerCallback _ (runDue ?due _) = _ =>
      destruct (runDue_helix_morphing due HELIX_MORPHING) as [-> | ->]; auto
  end.
Qed.

Lemma helix_select_reaches_running_witness :
  animState (elapse 1000 (handleHelixClick (handleGalaxyClick initialApp))) = HELIX_RUNNING.
Proof.
  apply (helix_select_reaches_running (handleGalaxyClick initialApp) 1000);
    [reflexivity|lia].
Defined.

(** X3: The select-galaxy intent in any state outside the galaxy family (STATIC,
    RETURNING, and the three helix states, from which it crosses over) sets
    the last mode to GALAXY, enters MORPHING and, with no further input, has
    reached RUNNING once the morph duration has passed, whatever older timers
    are pending. *)
Theorem galaxy_select_reaches_running (app : App) (ms : nat) :
  isGalaxyState (animState app) = false -> (1000 <= ms)%nat ->
  animState (handleGalaxyClick app) = MORPHING
  /\ lastMode (handleGalaxyClick app) = LAST_GALAXY
  /\ timers (handleGalaxyClick app)
     = timers app ++ [((clock app + 1000)%nat, advanceToRunning)]
  /\ animState (elapse ms (handleGalaxyClick app)) = RUNNING.
Proof.
  intros H Hms. rewrite (handleGalaxyClick_enters app H).
  split; [reflexivity|]. split; [reflexivity|]. split; [reflexivity|].
  rewrite elapse_after_enterTimed by exact Hms.
  match goal with
  | |- runTimerCallback _ (runDue ?due _) = _ =>
      destruct (runDue_morphing due MORPHING) as [-> | ->]; auto
  end.
Qed.

Lemma galaxy_select_reaches_running_witness :
  animState (elapse 1000 (handleGalaxyClick (handleHelixClick initialApp))) = RUNNING.
Proof.
  apply (galaxy_select_reaches_running (handleHelixClick initialApp) 1000);
    [reflexivity|lia].
Defined.

(** X4: Pausing is immediate and lasting. In RUNNING the galaxy button pauses
    and in PAUSED it resumes, in HELIX_RUNNING the helix button pauses and in
    HELIX_PAUSED it resumes; neither sets a timer; and a paused state stays
    paused however much time passes, whatever timers are pending. *)
Theorem pause_and_resume (app : App) (ms : nat) :
  (animState app = RUNNING ->
     animState (handleGalaxyClick app) = PAUSED
     /\ timers (handleGalaxyClick app) = timers app
     /\ animState (elapse ms (handleGalaxyClick app)) = PAUSED
     /\ animState (handleGalaxyClick (elapse ms (handleGalaxyClick app))) = RUNNING)
  /\ (animState app = HELIX_RUNNING ->
        animState (handleHelixClick app) = HELIX_PAUSED
        /\ timers (handleHelixClick app) = timers app
        /\ animState (elapse ms (handleHelixClick app)) = HELIX_PAUSED
        /\ animState (handleHelixClick (elapse ms (handleHelixClick app))) = HELIX_RUNNING).
Proof.
  split; intros H.
  - assert (E : handleGalaxyClick app = setAnimState PAUSED (setLastMode LAST_GALAXY app))
      by (unfold handleGalaxyClick; now rewrite H).
    rewrite E. split; [reflexivity|]. split; [reflexivity|].
    assert (Ep : animState (elapse ms (setAnimState PAUSED (setLastMode LAST_GALAXY app)))
                 = PAUSED) by (rewrite elapse_animState; now apply runDue_settled).
    split; [exact Ep|]. unfold handleGalaxyClick. now rewrite Ep.
  - assert (E : handleHelixClick app = setAnimState HELIX_PAUSED (setLastMode LAST_HELIX app))
      by (unfold handleHelixClick; now rewrite H).
    rewrite E. split; [reflexivity|]. split; [reflexivity|].
    assert (Ep : animState (elapse ms (setAnimState HELIX_PAUSED (setLastMode LAST_HELIX app)))
                 = HELIX_PAUSED) by (rewrite elapse_animState; now apply runDue_settled).
    split; [exact Ep|]. unfold handleHelixClick. now rewrite Ep.
Qed.

Lemma pause_and_resume_witness :
  animState (handleGalaxyClick
               (elapse 5000 (handleGalaxyClick (elapse 1000 (handleGalaxyClick initialApp)))))
  = RUNNING.
Proof.
  apply (pause_and_resume (elapse 1000 (handleGalaxyClick initialApp)) 5000).
  reflexivity.
Defined.

(** *** The timer queue of the reachable states *)

Lemma timersOk_initial : timersOk initialApp.
Proof.
  split; [constructor|]. split; [constructor|]. intros cb H. discriminate.
Qed.

Lemma StronglySorted_snoc {A : Type} (R1 : A -> A -> Prop) (l : list A) (x : A) :
  StronglySorted R1 l -> List.Forall (fun a => R1 a x) l -> StronglySorted R1 (l ++ [x]).
Proof.
  induction 1 as [|a l Hs IH Ha]; intros Hx; simpl.
  - repeat constructor.
  - inversion Hx; subst. constructor; [now apply IH|].
    apply List.Forall_app. split; [exact Ha|]. now constructor.
Qed.

Lemma timersOk_enterTimed (cb : TimerCallback) (s : AnimationState) (m : LastMode)
    (app : App) :
  pendingCallback s = Some cb -> timersOk app -> timersOk (enterTimed cb s m app).
Proof.
  intros Hcb [Hdue [Hsorted _]]. unfold timersOk, enterTimed, setTimeout. simpl.
  split; [|split].
  - apply List.Forall_app. split; [exact Hdue|]. constructor; [|constructor].
    simpl. unfold MORPH_MS. lia.
  - apply StronglySorted_snoc; [exact Hsorted|].
    eapply List.Forall_impl; [|exact Hdue]. intros t Ht. simpl in *. lia.
  - intros cb' Hcb'. rewrite Hcb in Hcb'. injection Hcb' as <-. eauto.
Qed.

Lemma timersOk_settle (s : AnimationState) (m : LastMode) (app : App) :
  settled s = true -> timersOk app -> timersOk (setAnimState s (setLastMode m app)).
Proof.
  intros Hs [Hdue [Hsorted _]]. split; [exact Hdue|]. split; [exact Hsorted|].
  intros cb Hcb. simpl in Hcb. apply pendingCallback_settled in Hs. congruence.
Qed.

Lemma timersOk_setLastMode (m : LastMode) (app : App) :
  timersOk app -> timersOk (setLastMode m app).
Proof. intros H. exact H. Qed.

Lemma timersOk_elapse (ms : nat) (app : App) : timersOk app -> timersOk (elapse ms app).
Proof.
  intros [Hdue [Hsorted Hpending]]. unfold timersOk. simpl.
  split; [|split].
  - rewrite List.Forall_forall in *. intros t Ht. apply List.filter_In in Ht.
    destruct Ht as [Ht Hnot]. specialize (Hdue t Ht).
    unfold isDue in Hnot. apply negb_true_iff, Nat.leb_gt in Hnot. lia.
  - now apply StronglySorted_filter'.
  - intros cb Hcb. fold (runDue (List.filter (isDue (clock app + ms)) (timers app))
                           (animState app)) in Hcb.
    destruct (runDue_pending _ _ _ Hcb) as [E Hnone]. rewrite E in Hcb.
    destruct (Hpending cb Hcb) as [q [d Eq]]. rewrite Eq.
    exists (List.filter (fun t => negb (isDue (clock app + ms) t)) q), d.
    rewrite List.filter_app. f_equal. simpl.
    destruct (isDue (clock app + ms) (d, cb)) eqn:Ed; [|reflexivity].
    exfalso. rewrite List.Forall_forall in Hnone.
    apply (Hnone (d, cb)); [|reflexivity].
    apply List.filter_In. split; [|exact Ed]. rewrite Eq.
    apply List.in_or_app. right. now left.
Qed.

Lemma timersOk_step (app : App) (e : Event) : timersOk app -> timersOk (step app e).
Proof.
  intros H.
  pose proof (timersOk_setLastMode LAST_GALAXY app H) as Hg.
  pose proof (timersOk_setLastMode LAST_HELIX app H) as Hh.
  destruct e as [| | |ms]; simpl.
  - unfold handleGalaxyClick.
    destruct (animState app); simpl;
      try (now apply (timersOk_enterTimed advanceToRunning MORPHING));
      try (now apply timersOk_settle); exact Hg.
  - unfold handleHelixClick.
    destruct (animState app); simpl;
      try (now apply (timersOk_enterTimed advanceToHelixRunning HELIX_MORPHING));
      try (now apply timersOk_settle); exact Hh.
  - unfold handleReset.
    destruct (animState app) eqn:E; simpl;
      try (now apply (timersOk_enterTimed advanceToStatic RETURNING)).
    clear Hg Hh. destruct H as [H1 [H2 H3]]. split; [exact H1|]. split; [exact H2|].
    intros cb Hcb. rewrite E in Hcb. discriminate.
  - now apply timersOk_elapse.
Qed.

(** In every state the component can reach, the timer queue is in order. *)
Lemma timersOk_reachable (events : list Event) : timersOk (runEvents events initialApp).
Proof.
  unfold runEvents. generalize timersOk_initial. generalize initialApp.
  induction events as [|e events IH]; intros app H; [exact H|].
  simpl. apply IH. now apply timersOk_step.
Qed.

Lemma filter_none {A : Type} (f : A -> bool) (l : list A) :
  List.Forall (fun x => f x = false) l -> List.filter f l = [].
Proof. induction 1 as [|x l Hx _ IH]; simpl; [reflexivity|]. now rewrite Hx. Qed.

(** In a queue that is in the order of the due times, the due timers are a
    prefix. *)
Lemma due_prefix (now : nat) (l : list (nat * TimerCallback)) :
  StronglySorted (fun a b => (fst a <= fst b)%nat) l ->
  List.filter (isDue now) l ++ List.filter (fun t => negb (isDue now t)) l = l.
Proof.
  induction 1 as [|t l Hs IH Ht]; [reflexivity|]. simpl.
  destruct (isDue now t) eqn:E; simpl; [now rewrite IH|].
  assert (Hnone : List.filter (isDue now) l = []).
  { apply filter_none. eapply List.Forall_impl; [|exact Ht].
    intros u Hu. unfold isDue in *. apply Nat.leb_gt in E. apply Nat.leb_gt. simpl in Hu. lia. }
  rewrite Hnone in *. simpl in *. now rewrite IH.
Qed.

Lemma filter_due_due (n m : nat) (l : list (nat * TimerCallback)) :
  (n <= m)%nat -> List.filter (isDue m) (List.filter (isDue n) l) = List.filter (isDue n) l.
Proof.
  intros Hnm. apply filter_all. apply List.Forall_forall. intros t Ht.
  apply List.filter_In in Ht. destruct Ht as [_ Ht]. unfold isDue in *.
  apply Nat.leb_le in Ht. apply Nat.leb_le. lia.
Qed.

Lemma filter_notdue_notdue (n m : nat) (l : list (nat * TimerCallback)) :
  (n <= m)%nat ->
  List.filter (fun t => negb (isDue m t)) (List.filter (fun t => negb (isDue n t)) l)
  = List.filter (fun t => negb (isDue m t)) l.
Proof.
  intros Hnm. induction l as [|t l IH]; [reflexivity|]. simpl.
  destruct (isDue n t) eqn:En; simpl.
  - assert (Em : isDue m t = true)
      by (unfold isDue in *; apply Nat.leb_le in En; apply Nat.leb_le; lia).
    rewrite Em. simpl. exact IH.
  - destruct (isDue m t); simpl; now rewrite IH.
Qed.

Lemma runDue_split (n m : nat) (l : list (nat * TimerCallback)) (s : AnimationState) :
  StronglySorted (fun a b => (fst a <= fst b)%nat) l -> (n <= m)%nat ->
  runDue (List.filter (isDue m) l) s
  = runDue (List.filter (isDue m) (List.filter (fun t => negb (isDue n t)) l))
      (runDue (List.filter (isDue n) l) s).
Proof.
  intros Hs Hnm. rewrite <- (due_prefix n l Hs) at 1.
  now rewrite List.filter_app, runDue_app, filter_due_due.
Qed.

(** X5: In every state the component can reach, time passing in two steps is
    time passing in one: the state, the last mode, the queue and the clock
    after [a] and then [b] milliseconds are those after [a + b]
    milliseconds. *)
Theorem elapse_additive (events : list Event) (a b : nat) :
  elapse b (elapse a (runEvents events initialApp))
  = elapse (a + b) (runEvents events initialApp).
Proof.
  destruct (timersOk_reachable events) as [_ [Hsorted _]].
  set (app := runEvents events initialApp) in *.
  unfold elapse at 1 3. simpl.
  rewrite Nat.add_assoc.
  rewrite filter_notdue_notdue by lia.
  f_equal. symmetry. apply (runDue_split (clock app + a) (clock app + a + b)); [exact Hsorted|lia].
Qed.

(** X6: No reachable state is stuck in a timed transition: from every state the
    component can reach, once the morph duration has passed with no input the
    state is one of STATIC, RUNNING, PAUSED, HELIX_RUNNING, HELIX_PAUSED, and
    no timer is pending any more. *)
Theorem reachable_settles (events : list Event) (ms : nat) :
  (1000 <= ms)%nat ->
  settled (animState (elapse ms (runEvents events initialApp))) = true
  /\ timers (elapse ms (runEvents events initialApp)) = [].
Proof.
  intros Hms. destruct (timersOk_reachable events) as [Hdue [_ Hpending]].
  set (app := runEvents events initialApp) in *.
  assert (Hall : List.filter (isDue (clock app + ms)) (timers app) = timers app).
  { apply filter_all. eapply List.Forall_impl; [|exact Hdue].
    intros t Ht. unfold isDue, MORPH_MS in *. apply Nat.leb_le. lia. }
  split.
  - rewrite elapse_animState, Hall. apply pendingCallback_settled.
    destruct (pendingCallback (runDue (timers app) (animState app))) as [cb|] eqn:E;
      [|reflexivity].
    exfalso. destruct (runDue_pending _ _ _ E) as [Es Hnone]. rewrite Es in E.
    destruct (Hpending cb E) as [q [d Eq]]. rewrite Eq in Hnone.
    rewrite List.Forall_forall in Hnone.
    apply (Hnone (d, cb)); [|reflexivity]. apply List.in_or_app. right. now left.
  - simpl. apply filter_none. eapply List.Forall_impl; [|exact Hdue].
    intros t Ht. unfold isDue, MORPH_MS in *. apply negb_false_iff, Nat.leb_le. lia.
Qed.

Lemma reachable_settles_witness :
  settled (animState (elapse 1000
             (runEvents [GalaxyClick; Wait 300; HelixClick; Wait 200; ResetClick] initialApp)))
  = true.
Proof.
  apply (reachable_settles [GalaxyClick; Wait 300; HelixClick; Wait 200; ResetClick] 1000).
  lia.
Defined.

(** While no timer is due, only the clock moves. *)
Lemma elapse_not_due (ms : nat) (app : App) :
  List.Forall (fun t => (clock app + ms < fst t)%nat) (timers app) ->
  elapse ms app = mkApp (animState app) (lastMode app) (timers app) (clock app + ms).
Proof.
  intros H. unfold elapse.
  assert (Hnone : List.filter (isDue (clock app + ms)) (timers app) = []).
  { apply filter_none. eapply List.Forall_impl; [|exact H].
    intros t Ht. now apply Nat.leb_gt. }
  assert (Hall : List.filter (fun t => negb (isDue (clock app + ms) t)) (timers app)
                 = timers app).
  { apply filter_all. eapply List.Forall_impl; [|exact H].
    intros t Ht. now apply negb_true_iff, Nat.leb_gt. }
  now rewrite Hnone, Hall.
Qed.

(** X7: The guard of a timer looks at the state, not at the timer. When the
    galaxy is selected, then the helix [d1] ms later, then the galaxy again
    [d2] ms later, all within one morph duration, the timer of the first
    selection finds the state MORPHING again and advances it: RUNNING is
    reached [1000 - d1 - d2] ms after the last selection, while the timer of
    that selection is still pending. *)
Theorem stale_timer_cuts_morph_short (app : App) (d1 d2 : nat) :
  animState app = STATIC -> timers app = [] ->
  (0 < d1)%nat -> (d1 + d2 < 1000)%nat ->
  let final :=
    runEvents [GalaxyClick; Wait d1; HelixClick; Wait d2; GalaxyClick;
               Wait (1000 - d1 - d2)] app in
  animState final = RUNNING
  /\ clock final = (clock app + 1000)%nat
  /\ timers final
     = [((clock app + d1 + 1000)%nat, advanceToHelixRunning);
        ((clock app + d1 + d2 + 1000)%nat, advanceToRunning)].
Proof.
  intros Hs Ht Hd1 Hd. destruct app as [s m q c]. simpl in Hs, Ht. subst s q.
  set (T1 := ((c + 1000)%nat, advanceToRunning)).
  set (T2 := ((c + d1 + 1000)%nat, advanceToHelixRunning)).
  set (T3 := ((c + d1 + d2 + 1000)%nat, advanceToRunning)).
  unfold runEvents. cbn [fold_left step].
  change (handleGalaxyClick (mkApp STATIC m [] c)) with (mkApp MORPHING LAST_GALAXY [T1] c).
  rewrite (elapse_not_due d1 (mkApp MORPHING LAST_GALAXY [T1] c))
    by (repeat constructor; simpl; lia).
  cbn [animState lastMode timers clock].
  change (handleHelixClick (mkApp MORPHING LAST_GALAXY [T1] (c + d1)))
    with (mkApp HELIX_MORPHING LAST_HELIX [T1; T2] (c + d1)).
  rewrite (elapse_not_due d2 (mkApp HELIX_MORPHING LAST_HELIX [T1; T2] (c + d1)))
    by (repeat constructor; simpl; lia).
  cbn [animState lastMode timers clock].
  change (handleGalaxyClick (mkApp HELIX_MORPHING LAST_HELIX [T1; T2] (c + d1 + d2)))
    with (mkApp MORPHING LAST_GALAXY [T1; T2; T3] (c + d1 + d2)).
  assert (E1 : isDue (c + d1 + d2 + (1000 - d1 - d2)) T1 = true)
    by (apply Nat.leb_le; simpl; lia).
  assert (E2 : isDue (c + d1 + d2 + (1000 - d1 - d2)) T2 = false)
    by (apply Nat.leb_gt; simpl; lia).
  assert (E3 : isDue (c + d1 + d2 + (1000 - d1 - d2)) T3 = false)
    by (apply Nat.leb_gt; simpl; lia).
  unfold elapse. cbn [animState lastMode timers clock List.filter].
  rewrite E1, E2, E3. cbn [negb fold_left snd].
  split; [reflexivity|]. split; [lia|reflexivity].
Qed.

Lemma stale_timer_cuts_morph_short_witness :
  animState (runEvents [GalaxyClick; Wait 400; HelixClick; Wait 400; GalaxyClick; Wait 200]
               initialApp) = RUNNING.
Proof.
  apply (stale_timer_cuts_morph_short initialApp 400 400); [reflexivity|reflexivity|lia|lia].
Defined.

(** X8: At most one of the two mode buttons shows an active label, in every
    state; and after a reset the label "returning" is on the galaxy button
    when the reset came in a galaxy state and on the helix button when it came
    in a helix state, the other button showing its idle label. A second reset
    while returning puts the label on the galaxy button, whichever mode is
    being left. *)
Theorem button_texts (app : App) :
  (getGalaxyButtonText app = "阴阳" \/ getHelixButtonText app = "双螺旋")
  /\ (isGalaxyState (animState app) = true ->
      getGalaxyButtonText (handleReset app) = "归位中..."
      /\ getHelixButtonText (handleReset app) = "双螺旋")
  /\ (isHelixState (animState app) = true ->
      getHelixButtonText (handleReset app) = "归位中..."
      /\ getGalaxyButtonText (handleReset app) = "阴阳"
      /\ getGalaxyButtonText (handleReset (handleReset app)) = "归位中..."
      /\ getHelixButtonText (handleReset (handleReset app)) = "双螺旋").
Proof.
  destruct app as [s m q c]. split; [|split].
  - destruct s, m; simpl; auto.
  - destruct s; simpl; try discriminate; auto.
  - destruct s; simpl; try discriminate; auto.
Qed.

Lemma button_texts_witness :
  getHelixButtonText (handleReset (handleHelixClick initialApp)) = "归位中...".
Proof.
  apply (button_texts (handleHelixClick initialApp)). reflexivity.
Defined.


(** ** The Lo Shu controls *)

Lemma runLoShuEvents_snoc (events : list LoShuEvent) (e : LoShuEvent) (s : LoShuApp) :
  runLoShuEvents (events ++ [e]) s = loShuStep (runLoShuEvents events s) e.
Proof. unfold runLoShuEvents. now rewrite fold_left_app. Qed.

(** X9: The morph state and the two run flags. Whatever is clicked, the morph
    state is PLANE or SPHERE, never PROJECTION, and a reset brings back the
    initial state. In PLANE the flying-star and the run button do nothing; but
    going back to PLANE keeps the two flags as they are, so that the state
    PLANE with both flags set is reached, by raising, starting both and
    lowering again. *)
Theorem loShu_controls (events : list LoShuEvent) :
  let s := runLoShuEvents events initialLoShuApp in
  lsMorph s <> PROJECTION
  /\ loShuStep s LoShuResetClick = initialLoShuApp
  /\ (lsMorph s = PLANE -> loShuStep s FlyingStarClick = s /\ loShuStep s RunClick = s)
  /\ (lsMorph s = SPHERE ->
      loShuStep s MorphClick
      = mkLoShuApp PLANE (lsRunning s) (lsSphereRotating s) (lsLayers s))
  /\ runLoShuEvents [MorphClick; FlyingStarClick; RunClick; MorphClick] initialLoShuApp
     = mkLoShuApp PLANE true true defaultLayers.
Proof.
  intros s. subst s. split; [|split; [|split; [|split]]].
  - induction events as [|e events IH] using List.rev_ind; [discriminate|].
    rewrite runLoShuEvents_snoc. revert IH.
    destruct (runLoShuEvents events initialLoShuApp) as [m r sr l].
    destruct e, m; simpl; congruence.
  - reflexivity.
  - intros H. simpl. now rewrite H.
  - intros H. unfold loShuStep, toggleMorph. now rewrite H.
  - reflexivity.
Qed.

(** X10: The layer switches. Switching a layer twice restores the state; the
    switches of two layers commute; a switch inverts its own layer and leaves
    the other layers, the morph state and the run flags as they are. *)
Theorem loShu_layer_toggles (s : LoShuApp) (key other : LayerKey) :
  toggleLayer key (toggleLayer key s) = s
  /\ toggleLayer key (toggleLayer other s) = toggleLayer other (toggleLayer key s)
  /\ getLayer (lsLayers (toggleLayer key s)) key = negb (getLayer (lsLayers s) key)
  /\ (other <> key ->
      getLayer (lsLayers (toggleLayer key s)) other = getLayer (lsLayers s) other)
  /\ lsMorph (toggleLayer key s) = lsMorph s
  /\ lsRunning (toggleLayer key s) = lsRunning s
  /\ lsSphereRotating (toggleLayer key s) = lsSphereRotating s.
Proof.
  destruct s as [m r sr [d n t di li]].
  split; [|split; [|split; [|split; [|auto]]]].
  - destruct key; unfold toggleLayer; simpl; now rewrite negb_involutive.
  - destruct key, other; reflexivity.
  - destruct key; reflexivity.
  - intros Hne. destruct key, other; try reflexivity; congruence.
Qed.

Lemma loShu_layer_toggles_witness :
  getLayer (lsLayers (toggleLayer lines initialLoShuApp)) dots
  = getLayer (lsLayers initialLoShuApp) dots.
Proof.
  apply (loShu_layer_toggles initialLoShuApp lines dots). discriminate.
Defined.

(** ** The targets of the interpolation engine *)

Lemma cos2_sin2 (a : R) : cos a * cos a + sin a * sin a = 1.
Proof. pose proof (sin2_cos2 a) as H. unfold Rsqr in H. lra. Qed.

Lemma polar_circle (r a : R) : r * cos a * (r * cos a) + r * sin a * (r * sin a) = r * r.
Proof.
  replace (r * cos a * (r * cos a) + r * sin a * (r * sin a))
    with (r * r * (cos a * cos a + sin a * sin a)) by ring.
  rewrite cos2_sin2. ring.
Qed.

(** X11: The orbits of [getTargetPosition]. A config with a vertical offset is
    placed at that height, at distance [r] from the y axis; a config without
    one is placed at distance [r] from the z axis, an ARM at a height of at
    most [|zAmp|], a CORE or a RING at height 0 and at the same position at
    every time. *)
Theorem target_orbits (gConfig : GalaxyPointConfig) (time : R) :
  let v := getTargetPosition gConfig time in
  match GalaxyPointConfig.yOffset gConfig with
  | Some yOffset =>
      distSqFromY v = GalaxyPointConfig.r gConfig * GalaxyPointConfig.r gConfig
      /\ Vector3.y v = yOffset
  | None =>
      distSqFromZ v = GalaxyPointConfig.r gConfig * GalaxyPointConfig.r gConfig
      /\ match GalaxyPointConfig.type gConfig with
         | ARM => Rabs (Vector3.z v) <= Rabs (GalaxyPointConfig.zAmp gConfig)
         | _ => Vector3.z v = 0 /\ v = getTargetPosition gConfig 0
         end
  end.
Proof.
  destruct gConfig as [ty r th sp za zf yo]. unfold getTargetPosition. simpl.
  destruct yo as [y|]; simpl.
  - split; [apply polar_circle|reflexivity].
  - destruct ty; simpl; (split; [apply polar_circle|]); try (split; reflexivity).
    rewrite Rabs_mult. rewrite <- (Rmult_1_l (Rabs za)) at 2.
    apply Rmult_le_compat_r; [apply Rabs_pos|].
    apply Rabs_le. apply SIN_bound.
Qed.

(** *** From Cartesian to polar and back *)

Lemma sqrt_sum_sq (x y : R) :
  x <> 0 -> sqrt (x * x + y * y) = Rabs x * sqrt (1 + (y / x)²).
Proof.
  intros Hx.
  replace (x * x + y * y) with (x² * (1 + (y / x)²)) by (unfold Rsqr; field; exact Hx).
  rewrite sqrt_mult_alt by apply Rle_0_sqr. now rewrite sqrt_Rsqr_abs.
Qed.

Lemma sqrt_1_plus_sq_pos (u : R) : 0 < sqrt (1 + u²).
Proof. apply sqrt_lt_R0. pose proof (Rle_0_sqr u). lra. Qed.

Lemma cos_minus_PI (a : R) : cos (a - PI) = - cos a.
Proof. rewrite cos_minus, cos_PI, sin_PI. ring. Qed.

Lemma sin_minus_PI (a : R) : sin (a - PI) = - sin a.
Proof. rewrite sin_minus, cos_PI, sin_PI. ring. Qed.

(** The radius and the angle [generateGalaxyMap] computes for a center point
    give its coordinates back. *)
Lemma polar_round_trip (x y : R) :
  sqrt (x * x + y * y) * cos (atan2 y x) = x
  /\ sqrt (x * x + y * y) * sin (atan2 y x) = y.
Proof.
  unfold atan2.
  destruct (Rlt_dec 0 x) as [Hpos|Hnpos]; [|destruct (Rlt_dec x 0) as [Hneg|Hnneg]].
  - pose proof (sqrt_1_plus_sq_pos (y / x)) as Hs.
    rewrite sqrt_sum_sq, cos_atan, sin_atan, Rabs_right by lra.
    split; field; lra.
  - pose proof (sqrt_1_plus_sq_pos (y / x)) as Hs.
    rewrite sqrt_sum_sq, Rabs_left by lra.
    destruct (Rle_dec 0 y).
    + rewrite neg_cos, neg_sin, cos_atan, sin_atan. split; field; lra.
    + rewrite cos_minus_PI, sin_minus_PI, cos_atan, sin_atan. split; field; lra.
  - assert (x = 0) by lra. subst x.
    replace (0 * 0 + y * y) with (y * y) by ring.
    destruct (Rlt_dec 0 y) as [Hy|Hy]; [|destruct (Rlt_dec y 0) as [Hy'|Hy']].
    + rewrite sqrt_square, cos_PI2, sin_PI2 by lra. split; ring.
    + rewrite cos_neg, sin_neg, cos_PI2, sin_PI2.
      replace (y * y) with ((- y) * (- y)) by ring.
      rewrite sqrt_square by lra. split; ring.
    + assert (y = 0) by lra. subst y.
      replace (0 * 0) with 0 by ring. rewrite sqrt_0. split; ring.
Qed.

(** *** The center points *)

Section CenterLookup.

Variable points : list HeTuPoint.

Hypothesis ids_distinct : List.NoDup (List.map HeTuPoint.id points).

Variable yOffset : option R.

Variables yang yin : list (string * GalaxyPointConfig).

Hypothesis yang_keys :
  List.map fst yang = List.map HeTuPoint.id (sortHeTuPoints points yangSequenceValues).

Hypothesis yin_keys :
  List.map fst yin = List.map HeTuPoint.id (sortHeTuPoints points yinSequenceValues).

Let entries : list (string * GalaxyPointConfig) :=
  (coreEntries points yOffset ++ ringEntries points yOffset) ++ yang ++ yin.

(** No arm writes an entry under the identifier of a point whose group value
    is in neither arm sequence. *)
Lemma outside_not_in_arms (p : HeTuPoint) :
  List.In p points -> outsideArms p = true ->
  ~ List.In (HeTuPoint.id p) (List.map fst (yang ++ yin)).
Proof using ids_distinct yang_keys yin_keys.
  intros Hp Hout. unfold outsideArms in Hout.
  apply negb_true_iff, orb_false_iff in Hout. destruct Hout as [Hy1 Hy2].
  rewrite List.map_app, List.in_app_iff, yang_keys, yin_keys.
  intros [H|H]; revert H; now apply key_not_in_arm.
Qed.

(** A core point reads back the config made from its own coordinates. *)
Lemma core_lookup (p : HeTuPoint) :
  List.In p points -> isCenter YANG p = true -> outsideArms p = true ->
  insertAll entries ∅ !! HeTuPoint.id p = Some (coreConfig p yOffset).
Proof using All.
  intros Hp Ecore Hout.
  unfold entries. rewrite <- List.app_assoc.
  apply (insertAll_lookup_mid []).
  - rewrite coreEntries_keys. now apply NoDup_map_filter.
  - unfold coreEntries.
    apply (List.in_map (fun p => (HeTuPoint.id p, coreConfig p yOffset))).
    apply List.filter_In. now split.
  - rewrite List.map_app, List.in_app_iff, ringEntries_keys.
    intros [H|H]; [|now apply (outside_not_in_arms p Hp Hout)].
    revert H. apply key_not_in_filter; [exact ids_distinct|exact Hp|].
    unfold isCenter in *. destruct (HeTuPoint.polarity p); simpl in *;
      [now rewrite andb_false_r|now rewrite andb_false_r in Ecore].
Qed.

(** A ring point reads back the config of its index among the ring points. *)
Lemma ring_lookup (p : HeTuPoint) :
  List.In p points -> isCenter YIN p = true -> outsideArms p = true ->
  exists i,
    List.nth_error (List.filter (isCenter YIN) points) i = Some p
    /\ insertAll entries ∅ !! HeTuPoint.id p
       = Some (ringConfig (List.length (List.filter (isCenter YIN) points)) i yOffset).
Proof using All.
  intros Hp Ering Hout.
  assert (Hin : List.In p (List.filter (isCenter YIN) points))
    by (apply List.filter_In; now split).
  apply List.In_nth_error in Hin. destruct Hin as [i Hi].
  exists i. split; [exact Hi|].
  unfold entries. rewrite <- List.app_assoc.
  apply insertAll_lookup_mid.
  - rewrite ringEntries_keys. now apply NoDup_map_filter.
  - eapply List.nth_error_In. unfold ringEntries.
    change i with (0 + i)%nat at 2. now apply ringEntriesFrom_nth.
  - now apply outside_not_in_arms.
Qed.

End CenterLookup.

Lemma getTargetPosition_still (gConfig : GalaxyPointConfig) (time : R) :
  GalaxyPointConfig.speedFactor gConfig = 0 ->
  getTargetPosition gConfig time = getTargetPosition gConfig 0.
Proof.
  destruct gConfig as [ty r th sp za zf yo]. simpl. intros ->.
  unfold getTargetPosition. simpl.
  replace (th + SPIN_SIGN * 0 * time) with (th + SPIN_SIGN * 0 * 0) by ring.
  reflexivity.
Qed.

Lemma getTargetPosition_core (p : HeTuPoint) (time : R) :
  getTargetPosition (coreConfig p None) time
  = Vector3.mk (HeTuPoint.x p) (HeTuPoint.y p) 0
  /\ getTargetPosition (coreConfig p (Some 0)) time
     = Vector3.mk (HeTuPoint.x p) 0 (HeTuPoint.y p).
Proof.
  destruct (polar_round_trip (HeTuPoint.x p) (HeTuPoint.y p)) as [Hx Hy].
  unfold getTargetPosition, coreConfig. simpl.
  replace (atan2 (HeTuPoint.y p) (HeTuPoint.x p) + SPIN_SIGN * 0 * time)
    with (atan2 (HeTuPoint.y p) (HeTuPoint.x p)) by ring.
  now rewrite Hx, Hy.
Qed.

Lemma center_lookups (points : list HeTuPoint) (p : HeTuPoint) :
  List.NoDup (List.map HeTuPoint.id points) ->
  List.In p points -> HeTuPoint.group p = center -> outsideArms p = true ->
  (HeTuPoint.polarity p = YANG
   /\ generateGalaxyMap points !! HeTuPoint.id p = Some (coreConfig p None)
   /\ generateHelixMap points !! HeTuPoint.id p = Some (coreConfig p (Some 0)))
  \/ (HeTuPoint.polarity p = YIN
      /\ exists i,
           List.nth_error (List.filter (isCenter YIN) points) i = Some p
           /\ generateGalaxyMap points !! HeTuPoint.id p
              = Some (ringConfig (List.length (List.filter (isCenter YIN) points)) i None)
           /\ generateHelixMap points !! HeTuPoint.id p
              = Some (ringConfig (List.length (List.filter (isCenter YIN) points)) i
                        (Some 0))).
Proof.
  intros Hnd Hp Hc Hout.
  rewrite generateGalaxyMap_entries, generateHelixMap_entries.
  unfold galaxyEntries, helixMapEntries.
  destruct (HeTuPoint.polarity p) eqn:Epol; [left|right]; (split; [reflexivity|]).
  - assert (Ecore : isCenter YANG p = true) by (unfold isCenter; now rewrite Hc, Epol).
    split; apply core_lookup; auto using spiralEntries_keys, helixEntries_keys.
  - assert (Ering : isCenter YIN p = true) by (unfold isCenter; now rewrite Hc, Epol).
    destruct (ring_lookup points Hnd None
                (spiralEntries points yangSequenceValues (- PI / 2))
                (spiralEntries points yinSequenceValues (PI / 2))
                (spiralEntries_keys _ _ _) (spiralEntries_keys _ _ _) p Hp Ering Hout)
      as [i [Hi Hg]].
    destruct (ring_lookup points Hnd (Some 0)
                (helixEntries points [1; 3; 7; 9]%Z 0 (-1.0))
                (helixEntries points [2; 4; 6; 8]%Z PI (-1.0))
                (helixEntries_keys _ _ _ _) (helixEntries_keys _ _ _ _) p Hp Ering Hout)
      as [j [Hj Hh]].
    assert (i = j).
    { assert (Hndf : List.NoDup (List.filter (isCenter YIN) points)).
      { apply (List.NoDup_map_inv HeTuPoint.id). now apply NoDup_map_filter. }
      apply (proj1 (List.NoDup_nth_error _) Hndf).
      - apply List.nth_error_Some. now rewrite Hi.
      - now rewrite Hi, Hj. }
    subst j. exists i. auto.
Qed.

(** X12: The center points stand still. For points with pairwise different
    identifiers, a point of the center group whose group value is in neither
    arm sequence (no arm then writes over its entry) is set to the same
    position at every time, in every mode; at full morph a core point
    (polarity YANG) is at [(x, y, 0)] in galaxy mode and at [(x, 0, y)] in
    helix mode, a ring point (polarity YIN) at distance [ringRadius] from the
    z axis resp. the y axis. *)
Theorem center_points_at_rest (points : list HeTuPoint) (p : HeTuPoint) (mode : Mode)
    (time morph : R) :
  List.NoDup (List.map HeTuPoint.id points) ->
  List.In p points -> HeTuPoint.group p = center -> outsideArms p = true ->
  let galaxyMap := generateGalaxyMap points in
  let helixMap := generateHelixMap points in
  updatePoint mode galaxyMap helixMap time morph p
  = updatePoint mode galaxyMap helixMap 0 morph p
  /\ match HeTuPoint.polarity p with
     | YANG =>
         updatePoint GALAXY galaxyMap helixMap time 1 p
         = Some (Vector3.mk (HeTuPoint.x p) (HeTuPoint.y p) 0)
         /\ updatePoint HELIX galaxyMap helixMap time 1 p
            = Some (Vector3.mk (HeTuPoint.x p) 0 (HeTuPoint.y p))
     | YIN =>
         exists vg vh,
           updatePoint GALAXY galaxyMap helixMap time 1 p = Some vg
           /\ updatePoint HELIX galaxyMap helixMap time 1 p = Some vh
           /\ distSqFromZ vg = ringRadius * ringRadius /\ Vector3.z vg = 0
           /\ distSqFromY vh = ringRadius * ringRadius /\ Vector3.y vh = 0
     end.
Proof.
  intros Hnd Hp Hc Hout galaxyMap helixMap. subst galaxyMap helixMap.
  destruct (center_lookups points p Hnd Hp Hc Hout)
    as [[Epol [Hg Hh]]|[Epol [i [_ [Hg Hh]]]]]; rewrite Epol.
  - destruct (getTargetPosition_core p time) as [Tg Th].
    split.
    + unfold updatePoint, blendPosition.
      destruct mode; rewrite ?Hg, ?Hh;
        now rewrite (getTargetPosition_still _ time) by reflexivity.
    + unfold updatePoint, blendPosition. rewrite Hg, Hh, Tg, Th. simpl.
      split; do 2 f_equal; ring.
  - split.
    + unfold updatePoint, blendPosition.
      destruct mode; rewrite ?Hg, ?Hh;
        now rewrite (getTargetPosition_still _ time) by reflexivity.
    + unfold updatePoint. rewrite Hg, Hh.
      eexists. eexists. split; [reflexivity|]. split; [reflexivity|].
      unfold blendPosition, getTargetPosition, distSqFromZ, distSqFromY. simpl.
      set (a := INR i / INR _ * PI * 2).
      replace (a + SPIN_SIGN * 0 * time) with a by ring.
      pose proof (polar_circle ringRadius a) as Hpc.
      repeat split; try ring.
      * rewrite <- Hpc. ring.
      * rewrite <- Hpc. ring.
Qed.

Lemma center_points_at_rest_witness :
  updatePoint GALAXY (generateGalaxyMap generateHeTuPoints)
    (generateHelixMap generateHeTuPoints) 7 1
    (createPoint "center-5-rgt" SPACING 0 Z_CENTER YANG center 5)
  = Some (Vector3.mk SPACING 0 0).
Proof.
  apply (center_points_at_rest generateHeTuPoints
           (createPoint "center-5-rgt" SPACING 0 Z_CENTER YANG center 5) GALAXY 7 1).
  - apply NoDup_ListNoDup, (bool_decide_unpack _). vm_compute. exact I.
  - unfold generateHeTuPoints. rewrite !List.in_app_iff.
    do 8 right. left. simpl. tauto.
  - reflexivity.
  - reflexivity.
Defined.

(** ** The connecting line *)

Lemma linkVertices_length (l : list HeTuPoint) :
  List.length (linkVertices l) = ((List.length l - 1) * SEGMENTS_PER_LINK)%nat.
Proof.
  induction l as [|a [|b rest] IH]; [reflexivity|reflexivity|].
  change (linkVertices (a :: b :: rest))
    with (forPush SEGMENTS_PER_LINK
            (fun j => mkLineVertex a b (INR j / INR SEGMENTS_PER_LINK))
          ++ linkVertices (b :: rest)).
  rewrite List.length_app, forPush_length, IH. simpl. lia.
Qed.

Lemma vertexMap_cons (a b : HeTuPoint) (rest : list HeTuPoint) :
  vertexMap (a :: b :: rest)
  = List.map Some (forPush SEGMENTS_PER_LINK
                     (fun j => mkLineVertex a b (INR j / INR SEGMENTS_PER_LINK)))
    ++ vertexMap (b :: rest).
Proof.
  unfold vertexMap.
  change (linkVertices (a :: b :: rest))
    with (forPush SEGMENTS_PER_LINK
            (fun j => mkLineVertex a b (INR j / INR SEGMENTS_PER_LINK))
          ++ linkVertices (b :: rest)).
  rewrite List.map_app, <- List.app_assoc. reflexivity.
Qed.

(** X13: The line is created with as many vertices as the frame callback writes,
    when the arm has a point. With no point the array length is -15 and the
    single entry of the vertex map holds no point. *)
Theorem line_vertex_count (sortedPoints : list HeTuPoint) :
  match sortedPoints with
  | [] => vertexMap sortedPoints = [None] /\ totalVertices sortedPoints = (-15)%Z
  | _ :: _ =>
      Z.of_nat (List.length (vertexMap sortedPoints)) = totalVertices sortedPoints
      /\ List.Forall (fun e => is_Some e) (vertexMap sortedPoints)
  end.
Proof.
  destruct sortedPoints as [|a rest]; [split; [reflexivity|reflexivity]|].
  split.
  - unfold vertexMap, totalVertices.
    rewrite List.length_app, List.length_map, linkVertices_length.
    cbn [List.length]. unfold SEGMENTS_PER_LINK. lia.
  - unfold vertexMap. apply List.Forall_app. split.
    + apply List.Forall_forall. intros e He. apply List.in_map_iff in He.
      destruct He as [v [<- _]]. now eexists.
    + constructor; [|constructor].
      assert (H : exists q, List.last (List.map Some (a :: rest)) None = Some q).
      { generalize a. induction rest as [|b rest IH]; intros a0; [now exists a0|].
        apply (IH b). }
      destruct H as [q ->]. now eexists.
Qed.

(** The vertex of index [i * SEGMENTS_PER_LINK] starts at the point of index
    [i]. *)
Lemma vertexMap_at_point (l : list HeTuPoint) (i : nat) (p : HeTuPoint) :
  List.nth_error l i = Some p ->
  exists v,
    List.nth_error (vertexMap l) (i * SEGMENTS_PER_LINK) = Some (Some v)
    /\ lv_pA v = p /\ lv_t v = 0 /\ List.In (lv_pB v) l.
Proof.
  revert i. induction l as [|a [|b rest] IH]; intros i Hi.
  - destruct i; discriminate.
  - destruct i as [|[|i]]; try discriminate. inversion Hi; subst.
    exists (mkLineVertex p p 0). simpl. auto.
  - rewrite vertexMap_cons. destruct i as [|i].
    + inversion Hi; subst.
      exists (mkLineVertex p b (INR 0 / INR SEGMENTS_PER_LINK)).
      split; [reflexivity|]. split; [reflexivity|]. split; [|simpl; auto].
      simpl lv_t. unfold Rdiv. change (INR 0) with 0. ring.
    + destruct (IH i Hi) as [v [Hv [HA [Ht HB]]]].
      exists v. split; [|split; [exact HA|split; [exact Ht|now right]]].
      rewrite List.nth_error_app2;
        rewrite List.length_map, forPush_length; [|unfold SEGMENTS_PER_LINK; lia].
      replace (Datatypes.S i * SEGMENTS_PER_LINK - SEGMENTS_PER_LINK)%nat
        with (i * SEGMENTS_PER_LINK)%nat by (unfold SEGMENTS_PER_LINK; lia).
      exact Hv.
Qed.

(** A vertex with [t = 0] is drawn where the dot of its first point is. *)
Lemma linePosition_at_point (mode : Mode) (galaxyMap helixMap : gmap string GalaxyPointConfig)
    (time morph : R) (v : LineVertex) :
  lv_t v = 0 ->
  is_Some (galaxyMap !! HeTuPoint.id (lv_pB v)) ->
  (exists c, helixMap !! HeTuPoint.id (lv_pA v) = Some c
             /\ is_Some (GalaxyPointConfig.yOffset c)) ->
  is_Some (helixMap !! HeTuPoint.id (lv_pB v)) ->
  linePosition (isHelixMode mode) galaxyMap helixMap time morph v
  = updatePoint mode galaxyMap helixMap time morph (lv_pA v).
Proof.
  destruct v as [pA pB t]. simpl. intros -> [gB HgB] [hA [HhA [y Hy]]] [hB HhB].
  unfold linePosition, updatePoint, blendPosition. simpl.
  assert (Hmix : forall a b : R, a + (b - a) * 0 = a) by (intros; ring).
  destruct mode; simpl.
  - rewrite HgB. destruct (galaxyMap !! HeTuPoint.id pA) as [gA|]; [|reflexivity].
    now rewrite !Hmix.
  - rewrite HhA, HhB, !Hmix.
    unfold getTargetPosition. rewrite Hy. simpl. reflexivity.
  - rewrite HgB. destruct (galaxyMap !! HeTuPoint.id pA) as [gA|]; [|reflexivity].
    now rewrite !Hmix.
Qed.


(** ** The keys of the two maps *)

Lemma insertAll_lookup_In {V : Type} (entries : list (string * V)) (m : gmap string V)
    (k : string) (v : V) :
  insertAll entries m !! k = Some v -> List.In (k, v) entries \/ m !! k = Some v.
Proof.
  revert m. induction entries as [|[k' v'] entries IH]; intros m H; simpl in *; [now right|].
  destruct (IH _ H) as [Hin|Hm]; [left; now right|].
  destruct (string_dec k' k) as [->|Hne].
  - rewrite lookup_insert_eq in Hm. inversion Hm; subst. left. now left.
  - rewrite lookup_insert_ne in Hm by exact Hne. now right.
Qed.

Lemma insertAll_empty_is_Some {V : Type} (entries : list (string * V)) (k : string) :
  is_Some (insertAll entries ∅ !! k) <-> List.In k (List.map fst entries).
Proof.
  split; [|apply insertAll_is_Some].
  intros [v Hv]. apply insertAll_lookup_In in Hv. destruct Hv as [Hin|He].
  - apply List.in_map_iff. now exists (k, v).
  - rewrite lookup_empty in He. discriminate.
Qed.

Lemma center_keys (points : list HeTuPoint) (k : string) :
  List.In k (List.map HeTuPoint.id (List.filter (isCenter YANG) points))
  \/ List.In k (List.map HeTuPoint.id (List.filter (isCenter YIN) points))
  <-> exists p, List.In p points /\ HeTuPoint.id p = k /\ HeTuPoint.group p = center.
Proof.
  rewrite !List.in_map_iff. split.
  - intros [[p [E Hp]]|[p [E Hp]]]; apply List.filter_In in Hp; destruct Hp as [Hp Hc];
      exists p; (split; [exact Hp|split; [exact E|]]);
      unfold isCenter in Hc; apply andb_true_iff in Hc; destruct Hc as [Hc _];
      now destruct (HeTuPoint.group p).
  - intros [p [Hp [E Hc]]].
    destruct (HeTuPoint.polarity p) eqn:Epol; [left|right]; exists p;
      (split; [exact E|]); apply List.filter_In; (split; [exact Hp|]);
      unfold isCenter; now rewrite Hc, Epol.
Qed.

Lemma arm_keys (points : list HeTuPoint) (sequence : list Z) (k : string) :
  List.In k (List.map HeTuPoint.id (sortHeTuPoints points sequence))
  <-> exists p, List.In p points /\ HeTuPoint.id p = k /\ inArm sequence p = true.
Proof.
  rewrite List.in_map_iff. split.
  - intros [p [E Hp]]. apply sortHeTuPoints_In in Hp. destruct Hp as [Hp Hs].
    exists p. auto.
  - intros [p [Hp [E Hs]]]. exists p. split; [exact E|].
    apply sortHeTuPoints_In. now split.
Qed.

Lemma configured_keys (points : list HeTuPoint) (k : string)
    (centerE yangE yinE : list (string * GalaxyPointConfig)) :
  (List.In k (List.map fst centerE)
   <-> exists p, List.In p points /\ HeTuPoint.id p = k /\ HeTuPoint.group p = center) ->
  List.map fst yangE = List.map HeTuPoint.id (sortHeTuPoints points yangSequenceValues) ->
  List.map fst yinE = List.map HeTuPoint.id (sortHeTuPoints points yinSequenceValues) ->
  List.In k (List.map fst (centerE ++ yangE ++ yinE)) <-> configuredId points k.
Proof.
  intros Hc Hyang Hyin.
  rewrite !List.map_app, !List.in_app_iff, Hc, Hyang, Hyin, !arm_keys.
  unfold configuredId, hasConfig. split.
  - intros [[p [Hp [E H]]]|[[p [Hp [E H]]]|[p [Hp [E H]]]]]; exists p;
      (split; [exact Hp|split; [exact E|]]); rewrite ?H, ?orb_true_r; reflexivity.
  - intros [p [Hp [E H]]].
    apply orb_true_iff in H. destruct H as [H|H]; [apply orb_true_iff in H; destruct H as [H|H]|].
    + left. exists p. split; [exact Hp|split; [exact E|]].
      now destruct (HeTuPoint.group p).
    + right. left. now exists p.
    + right. right. now exists p.
Qed.

Lemma centerEntries_keys (points : list HeTuPoint) (yOffset : option R) (k : string) :
  List.In k (List.map fst (coreEntries points yOffset ++ ringEntries points yOffset))
  <-> exists p, List.In p points /\ HeTuPoint.id p = k /\ HeTuPoint.group p = center.
Proof.
  rewrite List.map_app, List.in_app_iff, coreEntries_keys, ringEntries_keys.
  apply center_keys.
Qed.

Lemma galaxyEntries_yOffset (points : list HeTuPoint) (e : string * GalaxyPointConfig) :
  List.In e (galaxyEntries points) -> GalaxyPointConfig.yOffset (snd e) = None.
Proof.
  unfold galaxyEntries. rewrite !List.in_app_iff.
  intros [[H|H]|[H|H]].
  - unfold coreEntries in H. apply List.in_map_iff in H. now destruct H as [p [<- _]].
  - unfold ringEntries in H. revert H.
    generalize (List.length (List.filter (isCenter YIN) points)) 0%nat.
    induction (List.filter (isCenter YIN) points) as [|q l IH]; intros n i H;
      [destruct H|destruct H as [<-|H]];
      [reflexivity|now apply (IH n (Datatypes.S i))].
  - unfold spiralEntries, traversalEntries in H. apply List.in_map_iff in H.
    now destruct H as [pv [<- _]].
  - unfold spiralEntries, traversalEntries in H. apply List.in_map_iff in H.
    now destruct H as [pv [<- _]].
Qed.

Lemma helixMapEntries_yOffset (points : list HeTuPoint) (e : string * GalaxyPointConfig) :
  List.In e (helixMapEntries points) -> is_Some (GalaxyPointConfig.yOffset (snd e)).
Proof.
  unfold helixMapEntries. rewrite !List.in_app_iff.
  intros [[H|H]|[H|H]].
  - unfold coreEntries in H. apply List.in_map_iff in H. destruct H as [p [<- _]].
    now eexists.
  - unfold ringEntries in H. revert H.
    generalize (List.length (List.filter (isCenter YIN) points)) 0%nat.
    induction (List.filter (isCenter YIN) points) as [|q l IH]; intros n i H;
      [destruct H|destruct H as [<-|H]];
      [now eexists|now apply (IH n (Datatypes.S i))].
  - unfold helixEntries, traversalEntries in H. apply List.in_map_iff in H.
    destruct H as [pv [<- _]]. now eexists.
  - unfold helixEntries, traversalEntries in H. apply List.in_map_iff in H.
    destruct H as [pv [<- _]]. now eexists.
Qed.

Lemma galaxyMap_is_Some (points : list HeTuPoint) (k : string) :
  is_Some (generateGalaxyMap points !! k) <-> configuredId points k.
Proof.
  rewrite generateGalaxyMap_entries, insertAll_empty_is_Some. unfold galaxyEntries.
  apply configured_keys;
    [apply centerEntries_keys|apply spiralEntries_keys|apply spiralEntries_keys].
Qed.

Lemma helixMap_is_Some (points : list HeTuPoint) (k : string) :
  is_Some (generateHelixMap points !! k) <-> configuredId points k.
Proof.
  rewrite generateHelixMap_entries, insertAll_empty_is_Some. unfold helixMapEntries.
  apply configured_keys;
    [apply centerEntries_keys|apply helixEntries_keys|apply helixEntries_keys].
Qed.

Lemma galaxyMap_yOffset (points : list HeTuPoint) (k : string) (c : GalaxyPointConfig) :
  generateGalaxyMap points !! k = Some c -> GalaxyPointConfig.yOffset c = None.
Proof.
  rewrite generateGalaxyMap_entries. intros H. apply insertAll_lookup_In in H.
  destruct H as [H|H]; [|rewrite lookup_empty in H; discriminate].
  exact (galaxyEntries_yOffset points (k, c) H).
Qed.

Lemma helixMap_yOffset (points : list HeTuPoint) (k : string) (c : GalaxyPointConfig) :
  generateHelixMap points !! k = Some c -> is_Some (GalaxyPointConfig.yOffset c).
Proof.
  rewrite generateHelixMap_entries. intros H. apply insertAll_lookup_In in H.
  destruct H as [H|H]; [|rewrite lookup_empty in H; discriminate].
  exact (helixMapEntries_yOffset points (k, c) H).
Qed.

(** X14: The keys of the two maps. For any list of points whose identifiers are
    not property names inherited from [Object.prototype], and for every key
    that is not such a name, both maps have an entry under the key exactly
    when it is the identifier of a point that belongs to the center group or
    to one of the two arm sequences; the per-frame update of a point with
    such an identifier finds a config exactly when the identifier is such a
    key, in every mode; the entries of the galaxy map have no vertical offset
    and those of the helix map all have one, which is what
    [getTargetPosition] tells the two layouts apart by. *)
Theorem maps_domain (points : list HeTuPoint) :
  List.forallb (fun p => ownKey (HeTuPoint.id p)) points = true ->
  let galaxyMap := generateGalaxyMap points in
  let helixMap := generateHelixMap points in
  (forall k, ownKey k = true -> (is_Some (galaxyMap !! k) <-> configuredId points k))
  /\ (forall k, ownKey k = true -> (is_Some (helixMap !! k) <-> configuredId points k))
  /\ (forall mode time morph pt,
        ownKey (HeTuPoint.id pt) = true ->
        (is_Some (updatePoint mode galaxyMap helixMap time morph pt)
         <-> configuredId points (HeTuPoint.id pt)))
  /\ (forall k c, galaxyMap !! k = Some c -> GalaxyPointConfig.yOffset c = None)
  /\ (forall k c, helixMap !! k = Some c -> is_Some (GalaxyPointConfig.yOffset c)).
Proof.
  intros _ galaxyMap helixMap. subst galaxyMap helixMap.
  split; [intros k _; apply galaxyMap_is_Some|].
  split; [intros k _; apply helixMap_is_Some|].
  split; [|split; [apply galaxyMap_yOffset|apply helixMap_yOffset]].
  intros mode time morph pt _.
  assert (Hg := galaxyMap_is_Some points (HeTuPoint.id pt)).
  assert (Hh := helixMap_is_Some points (HeTuPoint.id pt)).
  unfold updatePoint.
  destruct mode.
  - rewrite <- Hg. destruct (generateGalaxyMap points !! HeTuPoint.id pt);
      split; intros [x Hx]; try discriminate; now eexists.
  - rewrite <- Hh. destruct (generateHelixMap points !! HeTuPoint.id pt);
      split; intros [x Hx]; try discriminate; now eexists.
  - rewrite <- Hg. destruct (generateGalaxyMap points !! HeTuPoint.id pt);
      split; intros [x Hx]; try discriminate; now eexists.
Qed.

Lemma maps_domain_witness :
  is_Some (generateGalaxyMap generateHeTuPoints !! "center-5-mid")
  <-> configuredId generateHeTuPoints "center-5-mid".
Proof.
  apply (maps_domain generateHeTuPoints); reflexivity.
Defined.

(** X15: The line of an arm passes through the dots of the arm. For any list of
    points and either of the two arm sequences the lines are drawn for, the
    vertex of index [i * SEGMENTS_PER_LINK] exists and is set, in every mode,
    at every time and morph level, to the position the dot of the [i]-th point
    of the sorted arm is set to. *)
Theorem line_through_dots (points : list HeTuPoint) (sequence : list Z) (mode : Mode)
    (time morph : R) (i : nat) (p : HeTuPoint) :
  sequence = yangSequenceValues \/ sequence = yinSequenceValues ->
  List.nth_error (sortHeTuPoints points sequence) i = Some p ->
  let galaxyMap := generateGalaxyMap points in
  let helixMap := generateHelixMap points in
  exists v position,
    List.nth_error (vertexMap (sortHeTuPoints points sequence)) (i * SEGMENTS_PER_LINK)
    = Some (Some v)
    /\ linePosition (isHelixMode mode) galaxyMap helixMap time morph v = Some position
    /\ updatePoint mode galaxyMap helixMap time morph p = Some position.
Proof.
  intros Hseq Hi galaxyMap helixMap. subst galaxyMap helixMap.
  assert (Hcfg : forall q, List.In q (sortHeTuPoints points sequence) ->
                   configuredId points (HeTuPoint.id q)).
  { intros q Hq. apply sortHeTuPoints_In in Hq. destruct Hq as [Hq Hs].
    exists q. split; [exact Hq|split; [reflexivity|]].
    unfold hasConfig, inArm. unfold inSequence in Hs.
    destruct Hseq; subst sequence; rewrite Hs; now rewrite ?orb_true_r. }
  destruct (vertexMap_at_point _ i p Hi) as [v [Hv [HA [Ht HB]]]].
  assert (HpIn : List.In p (sortHeTuPoints points sequence))
    by (eapply List.nth_error_In; exact Hi).
  assert (Hline : linePosition (isHelixMode mode) (generateGalaxyMap points)
                    (generateHelixMap points) time morph v
                  = updatePoint mode (generateGalaxyMap points)
                      (generateHelixMap points) time morph p).
  { rewrite <- HA. apply linePosition_at_point; [exact Ht| | |].
    - apply galaxyMap_is_Some. now apply Hcfg.
    - rewrite HA.
      destruct (proj2 (helixMap_is_Some points (HeTuPoint.id p)) (Hcfg p HpIn)) as [c Hc].
      exists c. split; [exact Hc|]. now apply helixMap_yOffset in Hc.
    - apply helixMap_is_Some. now apply Hcfg. }
  assert (Hdot : is_Some (updatePoint mode (generateGalaxyMap points)
                            (generateHelixMap points) time morph p)).
  { pose proof (proj2 (galaxyMap_is_Some points (HeTuPoint.id p)) (Hcfg p HpIn)) as [g Hg].
    pose proof (proj2 (helixMap_is_Some points (HeTuPoint.id p)) (Hcfg p HpIn)) as [h Hh].
    unfold updatePoint. destruct mode; rewrite ?Hg, ?Hh; now eexists. }
  destruct Hdot as [position Hpos].
  exists v, position. rewrite Hline. auto.
Qed.

Lemma line_through_dots_witness :
  exists v position,
    List.nth_error (vertexMap (sortHeTuPoints generateHeTuPoints yinSequenceValues))
      (3 * SEGMENTS_PER_LINK) = Some (Some v)
    /\ linePosition (isHelixMode HELIX) (generateGalaxyMap generateHeTuPoints)
         (generateHelixMap generateHeTuPoints) 2 1 v = Some position
    /\ updatePoint HELIX (generateGalaxyMap generateHeTuPoints)
         (generateHelixMap generateHeTuPoints) 2 1
         (createPoint "earth-4-2" RIGHT_X ((INR 2 - 1.5) * SPACING) Z_EARTH YIN west 4)
       = Some position.
Proof.
  apply (line_through_dots generateHeTuPoints yinSequenceValues HELIX 2 1 3).
  - right. reflexivity.
  - vm_compute. reflexivity.
Defined.


(** ** The frame loop *)

(** X16: The clock and the mode of the animation, whatever the easing function
    does. After any sequence of frames the orbit time has advanced by the
    deltas of the frames rendered in RUNNING or HELIX_RUNNING and by nothing
    else, and the mode is the one of the last frame rendered in a galaxy or
    helix state: STATIC and RETURNING frames keep it, so the points return to
    the cube from the layout they were in. *)
Theorem frames_time_and_mode (damp : R * R -> R -> R -> R -> R * R)
    (frames : list (AnimationState * R)) (refs : FrameRefs) :
  timeRef (runFrames damp frames refs) = timeRef refs + runningTime frames
  /\ modeRef (runFrames damp frames refs) = lastTargetedMode frames (modeRef refs).
Proof.
  revert refs. induction frames as [|[s d] frames IH]; intros refs.
  - simpl. split; [ring|reflexivity].
  - unfold runFrames, lastTargetedMode in *. cbn [fold_left].
    destruct (IH (frameStep damp refs (s, d))) as [Ht Hm]. rewrite Ht, Hm.
    split.
    + cbn [runningTime fst snd]. unfold frameStep. simpl.
      destruct (isRunningState s); unfold GLOBAL_SPEED; lra.
    + f_equal. unfold frameStep. simpl. now destruct s.
Qed.


(** ** Rotations *)

(** X17: [rotate2D] is the rotation of the plane: it keeps the distance from the
    origin, the angle 0 changes nothing, two rotations in a row are the
    rotation by the sum of the angles, and the opposite angle undoes a
    rotation. *)
Theorem rotate2D_rotation (x y a b : R) :
  let p := rotate2D x y a in
  fst p * fst p + snd p * snd p = x * x + y * y
  /\ rotate2D x y 0 = (x, y)
  /\ rotate2D (fst p) (snd p) b = rotate2D x y (a + b)
  /\ rotate2D (fst p) (snd p) (- a) = (x, y).
Proof.
  unfold rotate2D. cbn [fst snd].
  pose proof (cos2_sin2 a) as Ha.
  split; [|split; [|split]].
  - replace ((x * cos a - y * sin a) * (x * cos a - y * sin a)
             + (x * sin a + y * cos a) * (x * sin a + y * cos a))
      with ((x * x + y * y) * (cos a * cos a + sin a * sin a)) by ring.
    rewrite Ha. ring.
  - rewrite cos_0, sin_0. f_equal; ring.
  - rewrite cos_plus, sin_plus. f_equal; ring.
  - rewrite cos_neg, sin_neg. f_equal.
    + replace ((x * cos a - y * sin a) * cos a - (x * sin a + y * cos a) * - sin a)
        with (x * (cos a * cos a + sin a * sin a)) by ring.
      rewrite Ha. ring.
    + replace ((x * cos a - y * sin a) * - sin a + (x * sin a + y * cos a) * cos a)
        with (y * (cos a * cos a + sin a * sin a)) by ring.
      rewrite Ha. ring.
Qed.

Lemma arm_turnsAndSwings (gConfig : GalaxyPointConfig) :
  GalaxyPointConfig.type gConfig = ARM -> GalaxyPointConfig.yOffset gConfig = None ->
  GalaxyPointConfig.zFreq gConfig = 1 ->
  turnsAndSwings gConfig (SPIN_SIGN * GalaxyPointConfig.speedFactor gConfig).
Proof.
  destruct gConfig as [ty r th sp za zf yo]. simpl. intros -> -> -> time.
  unfold getTargetPosition, rotate2D. simpl.
  replace (th + SPIN_SIGN * sp * 0) with th by ring.
  rewrite cos_plus, sin_plus. split; [f_equal; ring|].
  rewrite Rmult_1_r, sin_plus. ring.
Qed.

(** An arm target with a height amplitude passes through height 0 and
    through height [zAmp]. *)
Lemma arm_heightVaries (gConfig : GalaxyPointConfig) (omega : R) :
  turnsAndSwings gConfig omega -> omega <> 0 -> GalaxyPointConfig.zAmp gConfig <> 0 ->
  heightVaries gConfig.
Proof.
  intros Hturn Homega Hamp.
  exists ((0 - GalaxyPointConfig.thetaStart gConfig) / omega),
         ((PI / 2 - GalaxyPointConfig.thetaStart gConfig) / omega).
  destruct (Hturn ((0 - GalaxyPointConfig.thetaStart gConfig) / omega)) as [_ ->].
  destruct (Hturn ((PI / 2 - GalaxyPointConfig.thetaStart gConfig) / omega)) as [_ ->].
  replace (GalaxyPointConfig.thetaStart gConfig
           + omega * ((0 - GalaxyPointConfig.thetaStart gConfig) / omega))
    with 0 by (field; exact Homega).
  replace (GalaxyPointConfig.thetaStart gConfig
           + omega * ((PI / 2 - GalaxyPointConfig.thetaStart gConfig) / omega))
    with (PI / 2) by (field; exact Homega).
  rewrite sin_0, sin_PI2. lra.
Qed.

Lemma offset_turnsAboutY (gConfig : GalaxyPointConfig) :
  is_Some (GalaxyPointConfig.yOffset gConfig) ->
  turnsAboutY gConfig (SPIN_SIGN * GalaxyPointConfig.speedFactor gConfig).
Proof.
  destruct gConfig as [ty r th sp za zf yo]. simpl. intros [y ->] time.
  unfold getTargetPosition, rotate2D. simpl.
  replace (th + SPIN_SIGN * sp * 0) with th by ring.
  rewrite cos_plus, sin_plus. split; [f_equal; ring|reflexivity].
Qed.

Lemma galaxyEntries_speed (points : list HeTuPoint) (e : string * GalaxyPointConfig) :
  List.In e (galaxyEntries points) ->
  GalaxyPointConfig.type (snd e) = ARM ->
  GalaxyPointConfig.speedFactor (snd e) = 0.8 /\ GalaxyPointConfig.zFreq (snd e) = 1.
Proof.
  unfold galaxyEntries. rewrite !List.in_app_iff.
  intros [[H|H]|[H|H]].
  - unfold coreEntries in H. apply List.in_map_iff in H. destruct H as [p [<- _]].
    discriminate.
  - unfold ringEntries in H. revert H.
    generalize (List.length (List.filter (isCenter YIN) points)) 0%nat.
    induction (List.filter (isCenter YIN) points) as [|q l IH]; intros n i H;
      [destruct H|destruct H as [<-|H]];
      [discriminate|now apply (IH n (Datatypes.S i))].
  - unfold spiralEntries, traversalEntries in H. apply List.in_map_iff in H.
    now destruct H as [pv [<- _]].
  - unfold spiralEntries, traversalEntries in H. apply List.in_map_iff in H.
    now destruct H as [pv [<- _]].
Qed.

Lemma helixMapEntries_speed (points : list HeTuPoint) (e : string * GalaxyPointConfig) :
  List.In e (helixMapEntries points) ->
  GalaxyPointConfig.type (snd e) = ARM -> GalaxyPointConfig.speedFactor (snd e) = -1.0.
Proof.
  unfold helixMapEntries. rewrite !List.in_app_iff.
  intros [[H|H]|[H|H]].
  - unfold coreEntries in H. apply List.in_map_iff in H. destruct H as [p [<- _]].
    discriminate.
  - unfold ringEntries in H. revert H.
    generalize (List.length (List.filter (isCenter YIN) points)) 0%nat.
    induction (List.filter (isCenter YIN) points) as [|q l IH]; intros n i H;
      [destruct H|destruct H as [<-|H]];
      [discriminate|now apply (IH n (Datatypes.S i))].
  - unfold helixEntries, traversalEntries in H. apply List.in_map_iff in H.
    now destruct H as [pv [<- _]].
  - unfold helixEntries, traversalEntries in H. apply List.in_map_iff in H.
    now destruct H as [pv [<- _]].
Qed.

(** X18: The motion of the arms. For any list of points: seen along the z axis,
    the target of every ARM entry of the galaxy map turns at [-0.8] radians
    per unit of time, its x and y being those at time 0 rotated, while its
    height z is [zAmp] times the sine of the angle it has reached and so is
    not constant unless [zAmp] is 0. The target of every ARM entry of the helix map is its
    target at time 0 rotated about the y axis by [1] radian per unit of time,
    at constant height: the strands turn as rigid bodies. *)
Theorem arms_turn_in_step (points : list HeTuPoint) :
  map_Forall (fun _ gConfig =>
                GalaxyPointConfig.type gConfig = ARM ->
                turnsAndSwings gConfig (- 0.8)
                /\ (GalaxyPointConfig.zAmp gConfig <> 0 -> heightVaries gConfig))
             (generateGalaxyMap points)
  /\ map_Forall (fun _ gConfig => GalaxyPointConfig.type gConfig = ARM ->
                                  turnsAboutY gConfig 1)
                (generateHelixMap points).
Proof.
  split; intros k c Hk Hty.
  - pose proof (galaxyMap_yOffset points k c Hk) as Hy.
    rewrite generateGalaxyMap_entries in Hk. apply insertAll_lookup_In in Hk.
    destruct Hk as [Hk|Hk]; [|rewrite lookup_empty in Hk; discriminate].
    destruct (galaxyEntries_speed points (k, c) Hk Hty) as [Hsp Hzf]. simpl in Hsp, Hzf.
    pose proof (arm_turnsAndSwings c Hty Hy Hzf) as Hturn. rewrite Hsp in Hturn.
    replace (SPIN_SIGN * 0.8) with (- 0.8) in Hturn by (unfold SPIN_SIGN; lra).
    split; [exact Hturn|].
    apply (arm_heightVaries c (- 0.8)); [exact Hturn|lra].
  - pose proof (helixMap_yOffset points k c Hk) as Hy.
    rewrite generateHelixMap_entries in Hk. apply insertAll_lookup_In in Hk.
    destruct Hk as [Hk|Hk]; [|rewrite lookup_empty in Hk; discriminate].
    pose proof (helixMapEntries_speed points (k, c) Hk Hty) as Hsp. simpl in Hsp.
    pose proof (offset_turnsAboutY c Hy) as Hturn. rewrite Hsp in Hturn.
    replace 1 with (SPIN_SIGN * -1.0) by (unfold SPIN_SIGN; lra). exact Hturn.
Qed.


(** ** The He Tu catalog *)

(** X19: The catalog satisfies what the map generators and the scene rely on: the
    identifiers of its 55 points are pairwise different; the points of the
    center group lie outside both arm sequences and all other points inside
    one; a point is YANG exactly when its group value is odd; and every point
    lies in the cube that is drawn around them. *)
Theorem hetu_catalog_wellformed :
  List.NoDup (List.map HeTuPoint.id generateHeTuPoints)
  /\ armsCoverFaces generateHeTuPoints = true
  /\ List.Forall
       (fun p =>
          HeTuPoint.polarity p = (if Z.odd (HeTuPoint.numberValue p) then YANG else YIN)
          /\ insideCube p)
       generateHeTuPoints.
Proof.
  split; [apply NoDup_ListNoDup, (bool_decide_unpack _); vm_compute; exact I|].
  split; [reflexivity|].
  unfold generateHeTuPoints, forPush. cbn [List.map seq List.app].
  repeat (apply List.Forall_cons || apply List.Forall_nil);
    (split; [reflexivity|]);
    unfold insideCube, createPoint, CUBE_SIZE, L, TOP_Y, BOTTOM_Y, LEFT_X, RIGHT_X,
      CENTER_ROW_Y, Z_HEAVEN, Z_EARTH, Z_CENTER, SPACING, EDGE_MARGIN, L;
    simpl; lra.
Qed.


(** ** The radii of the helix *)

Lemma strandStep_pos (prev q : HeTuPoint) : 0 < strandStep prev q.
Proof.
  unfold strandStep, HELIX_DOT_STEP, HELIX_GROUP_GAP.
  destruct (HeTuPoint.numberValue q =? HeTuPoint.numberValue prev)%Z; lra.
Qed.

Lemma strandHeightsAfter_increasing (prev : HeTuPoint) (h : R) (rest : list HeTuPoint) :
  StronglySorted Rlt (h :: strandHeightsAfter prev h rest).
Proof.
  revert prev h. induction rest as [|q rest IH]; intros prev h; simpl.
  - repeat constructor.
  - pose proof (strandStep_pos prev q) as Hstep.
    specialize (IH q (h + strandStep prev q)).
    constructor; [exact IH|].
    inversion IH as [|? ? _ Hall]; subst. constructor; [lra|].
    eapply List.Forall_impl; [|exact Hall]. intros x Hx. simpl in Hx. lra.
Qed.

Lemma strandHeights_increasing (strand : list HeTuPoint) :
  StronglySorted Rlt (strandHeights strand).
Proof.
  destruct strand as [|p rest]; simpl; [constructor|].
  apply strandHeightsAfter_increasing.
Qed.

Lemma strandHeights_hd (strand : list HeTuPoint) : List.hd 0 (strandHeights strand) = 0.
Proof. now destruct strand. Qed.

Lemma sorted_le_last (l : list R) (d : R) :
  StronglySorted Rlt l -> List.Forall (fun x => x <= List.last l d) l.
Proof.
  revert d. induction l as [|a l IH]; intros d Hs; [constructor|].
  inversion Hs as [|? ? Hs' Ha]; subst. rewrite last_cons.
  constructor.
  - destruct l as [|b l]; [simpl; lra|].
    specialize (IH a Hs'). inversion IH as [|? ? Hb _]; subst.
    inversion Ha; subst. lra.
  - exact (IH a Hs').
Qed.

Lemma radii_of_heights (hs : list R) (phase dir : R) :
  StronglySorted Rlt hs -> List.hd 0 hs = 0 ->
  let radii :=
    List.map (fun h => GalaxyPointConfig.r (helixConfig (List.last hs 0) phase dir h)) hs in
  StronglySorted Rlt radii
  /\ List.Forall (fun r => HELIX_R_BOTTOM <= r <= HELIX_R_TOP) radii
  /\ match radii with
     | [] => True
     | [r] => r = (HELIX_R_BOTTOM + HELIX_R_TOP) / 2
     | r :: _ => r = HELIX_R_BOTTOM /\ List.last radii 0 = HELIX_R_TOP
     end.
Proof.
  intros Hs Hhd radii. subst radii.
  destruct hs as [|h0 [|h1 hs']].
  - simpl. repeat constructor.
  - simpl in Hhd. subst h0. simpl.
    destruct (Rlt_dec 0 0) as [H|_]; [lra|].
    unfold HELIX_R_BOTTOM, HELIX_R_TOP.
    split; [repeat constructor|]. split; [|lra].
    constructor; [lra|constructor].
  - simpl in Hhd. subst h0. set (hs := 0 :: h1 :: hs') in *. set (T := List.last hs 0).
    pose proof (sorted_le_last hs 0 Hs) as Hle. fold T in Hle.
    assert (HT : 0 < T).
    { inversion Hs as [|? ? _ H0]; subst. inversion H0 as [|? ? H01 _]; subst.
      inversion Hle as [|? ? _ Hle']; subst. inversion Hle' as [|? ? H1T _]; subst. lra. }
    assert (Hge : List.Forall (fun x => 0 <= x) hs).
    { inversion Hs as [|? ? _ H0]; subst. constructor; [lra|].
      eapply List.Forall_impl; [|exact H0]. intros x Hx. simpl in Hx. lra. }
    assert (Hr : forall h, GalaxyPointConfig.r (helixConfig T phase dir h)
                           = HELIX_R_BOTTOM + (HELIX_R_TOP - HELIX_R_BOTTOM) * (h / T)).
    { intros h. unfold helixConfig. simpl. now destruct (Rlt_dec 0 T). }
    split; [|split].
    + apply (StronglySorted_map Rlt Rlt); [|exact Hs].
      intros a b Hab. rewrite !Hr. unfold HELIX_R_BOTTOM, HELIX_R_TOP.
      assert (a / T < b / T).
      { unfold Rdiv. apply Rmult_lt_compat_r; [now apply Rinv_0_lt_compat|exact Hab]. }
      lra.
    + apply List.Forall_forall. intros r Hin. apply List.in_map_iff in Hin.
      destruct Hin as [h [<- Hh]]. rewrite Hr.
      rewrite List.Forall_forall in Hle, Hge.
      specialize (Hle h Hh). specialize (Hge h Hh). simpl in Hle, Hge.
      assert (0 <= h / T) by (apply Rmult_le_pos; [exact Hge|left; now apply Rinv_0_lt_compat]).
      assert (h / T <= 1).
      { apply (Rmult_le_reg_r T); [exact HT|]. unfold Rdiv.
        rewrite Rmult_assoc, Rinv_l by lra. lra. }
      unfold HELIX_R_BOTTOM, HELIX_R_TOP. lra.
    + assert (ET : List.last (h1 :: hs') 0 = T) by reflexivity.
      set (f := fun h => GalaxyPointConfig.r (helixConfig T phase dir h)).
      change (List.map f hs) with (f 0 :: List.map f (h1 :: hs')).
      change (f 0 :: List.map f (h1 :: hs'))
        with (f 0 :: f h1 :: List.map f hs') at 1.
      split.
      * unfold f. rewrite Hr. unfold Rdiv. ring.
      * rewrite last_cons. unfold f.
        rewrite (last_map (fun h => GalaxyPointConfig.r (helixConfig T phase dir h))
                   (h1 :: hs') 0).
        rewrite ET, Hr. unfold HELIX_R_BOTTOM, HELIX_R_TOP. field. lra.
Qed.

Lemma helix_radius_law (points : list HeTuPoint) (sequence : list Z) (phase : R) :
  List.NoDup (List.map HeTuPoint.id points) ->
  (sequence, phase) = (yangSequenceValues, 0) \/ (sequence, phase) = (yinSequenceValues, PI) ->
  strandRadiusLaw points sequence.
Proof.
  intros Hnd Harm.
  assert (Hvalid : List.Forall validGroup (sortHeTuPoints points sequence)).
  { apply arm_validGroup. destruct Harm as [[= -> _]|[= -> _]]; reflexivity. }
  pose proof (helixHeights_strandHeights _ Hvalid) as Hhs.
  pose proof (helixTotalHeight_last (sortHeTuPoints points sequence)) as Htotal.
  rewrite Hhs in Htotal.
  set (hs := strandHeights (sortHeTuPoints points sequence)) in *.
  exists (List.map (fun h => GalaxyPointConfig.r
                               (helixConfig (List.last hs 0) phase (-1.0) h)) hs).
  split.
  - apply Forall2_nth_error; [unfold hs; now rewrite List.length_map, strandHeights_length|].
    intros i p r Hp Hr. rewrite List.nth_error_map in Hr.
    destruct (List.nth_error hs i) as [h|] eqn:Hh; [|discriminate].
    inversion Hr; subst r. subst hs. rewrite <- Hhs in Hh.
    pose proof (helix_strand_lookup points Hnd sequence phase i p h Harm Hp Hh) as Hlk.
    rewrite Htotal in Hlk. eexists. split; [exact Hlk|reflexivity].
  - apply radii_of_heights; [apply strandHeights_increasing|apply strandHeights_hd].
Qed.

(** X20: The helix is a funnel. For points with pairwise different identifiers,
    the points of each strand carry, from the bottom of the strand to its top,
    strictly increasing radii from [HELIX_R_BOTTOM] to [HELIX_R_TOP]; a strand
    of a single point has the radius half way between the two. *)
Theorem helix_radii (points : list HeTuPoint) :
  List.NoDup (List.map HeTuPoint.id points) ->
  strandRadiusLaw points yangSequenceValues /\ strandRadiusLaw points yinSequenceValues.
Proof.
  intros Hnd. split.
  - apply (helix_radius_law points yangSequenceValues 0); [exact Hnd|now left].
  - apply (helix_radius_law points yinSequenceValues PI); [exact Hnd|now right].
Qed.

Lemma helix_radii_witness :
  strandRadiusLaw generateHeTuPoints yangSequenceValues
  /\ strandRadiusLaw generateHeTuPoints yinSequenceValues.
Proof.
  apply (helix_radii generateHeTuPoints).
  apply NoDup_ListNoDup, (bool_decide_unpack _). vm_compute. exact I.
Defined.


(** ** The order of the input of [sortHeTuPoints] *)

Lemma Permutation_filter' {A : Type} (f : A -> bool) (l l' : list A) :
  Permutation l l' -> Permutation (List.filter f l) (List.filter f l').
Proof.
  induction 1 as [|a l l' _ IH|a b l|l l' l'' _ IH _ IH']; simpl.
  - constructor.
  - destruct (f a); [now constructor|exact IH].
  - destruct (f a), (f b); try reflexivity. apply perm_swap.
  - now transitivity (List.filter f l').
Qed.

(** X21: The sorted arm depends on the set of points only. For points taken from
    the catalog, each at most once, [sortHeTuPoints] returns the same list for
    every rearrangement of its input; and a sequence that names no group of
    the points, the empty one among them, gives the empty list. *)
Theorem sortHeTuPoints_canonical (points points' : list HeTuPoint) (sequence : list Z) :
  List.incl points generateHeTuPoints ->
  List.NoDup (List.map HeTuPoint.id points) -> Permutation points points' ->
  sortHeTuPoints points' sequence = sortHeTuPoints points sequence
  /\ ((forall p, List.In p points -> ~ List.In (HeTuPoint.numberValue p) sequence) ->
      sortHeTuPoints points' sequence = []).
Proof.
  intros _ Hnd Hperm. split.
  - apply sortHeTuPoints_unique; [exact Hnd| |apply sortHeTuPoints_sorted].
    etransitivity; [apply sortHeTuPoints_perm|].
    unfold keepInSequence. apply Permutation_filter'. now symmetry.
  - intros Hout.
    destruct (sortHeTuPoints points' sequence) as [|q l] eqn:E; [reflexivity|].
    assert (Hq : List.In q (sortHeTuPoints points' sequence)) by (rewrite E; now left).
    apply sortHeTuPoints_In in Hq. destruct Hq as [Hq Hs].
    exfalso. apply (Hout q).
    + eapply Permutation_in; [symmetry; exact Hperm|exact Hq].
    + unfold inSequence, includes in Hs. apply List.existsb_exists in Hs.
      destruct Hs as [v [Hv Ev]]. apply Z.eqb_eq in Ev. now subst v.
Qed.

Lemma sortHeTuPoints_canonical_witness :
  sortHeTuPoints (List.rev generateHeTuPoints) yinSequenceValues
  = sortHeTuPoints generateHeTuPoints yinSequenceValues.
Proof.
  apply (sortHeTuPoints_canonical generateHeTuPoints (List.rev generateHeTuPoints)).
  - intros p Hp. exact Hp.
  - apply NoDup_ListNoDup, (bool_decide_unpack _). vm_compute. exact I.
  - apply Permutation_rev.
Defined.


(** ** The shape of the energy path *)

Lemma anchors_defined (n : Z) : is_Some (LOSHU_ANCHORS n) <-> anchored n.
Proof.
  unfold anchored. split.
  - intros [a Ha]. anchor_cases Ha; lia.
  - intros H.
    assert (Hn : (n = 1 \/ n = 2 \/ n = 3 \/ n = 4 \/ n = 5 \/ n = 6 \/ n = 7 \/ n = 8
                  \/ n = 9)%Z) by lia.
    repeat (destruct Hn as [->|Hn]; [eexists; reflexivity|]). subst n. eexists. reflexivity.
Qed.

Lemma anchors_undefined (n : Z) : LOSHU_ANCHORS n = None -> ~ anchored n.
Proof.
  intros H Hn. apply anchors_defined in Hn. destruct Hn as [a Ha]. congruence.
Qed.

Lemma energyLegs_Some (sequence : list Z) (radiusScale : R) (segmentsPerLeg : nat)
    (legs : list Vector3) :
  energyLegs sequence radiusScale segmentsPerLeg = Some legs ->
  List.length legs = ((List.length sequence - 1) * segmentsPerLeg)%nat
  /\ ((2 <= List.length sequence)%nat -> List.Forall anchored sequence).
Proof.
  revert legs. induction sequence as [|x rest IH]; intros legs H.
  - injection H as <-. split; [reflexivity|simpl; lia].
  - destruct rest as [|y rest'].
    + injection H as <-. split; [reflexivity|simpl; lia].
    + rewrite energyLegs_cons in H.
      destruct (LOSHU_ANCHORS x) as [ax|] eqn:Ex; [|discriminate].
      destruct (LOSHU_ANCHORS y) as [ay|] eqn:Ey; [|discriminate].
      destruct (energyLegs (y :: rest') radiusScale segmentsPerLeg) as [more|] eqn:Emore;
        [|discriminate].
      injection H as <-. destruct (IH more eq_refl) as [Hlen Hall]. split.
      * rewrite List.length_app, forPush_length, Hlen. simpl. lia.
      * intros _. constructor; [apply anchors_defined; now exists ax|].
        destruct rest' as [|z rest'']; [|apply Hall; simpl; lia].
        constructor; [apply anchors_defined; now exists ay|constructor].
Qed.

Lemma energyLegs_None (sequence : list Z) (radiusScale : R) (segmentsPerLeg : nat) :
  energyLegs sequence radiusScale segmentsPerLeg = None ->
  List.Exists (fun n => ~ anchored n) sequence.
Proof.
  induction sequence as [|x rest IH]; intros H; [discriminate|].
  destruct rest as [|y rest']; [discriminate|].
  rewrite energyLegs_cons in H.
  destruct (LOSHU_ANCHORS x) as [ax|] eqn:Ex;
    [|apply List.Exists_cons_hd; now apply anchors_undefined].
  destruct (LOSHU_ANCHORS y) as [ay|] eqn:Ey;
    [|apply List.Exists_cons_tl, List.Exists_cons_hd; now apply anchors_undefined].
  destruct (energyLegs (y :: rest') radiusScale segmentsPerLeg) as [more|] eqn:Emore;
    [discriminate|].
  apply List.Exists_cons_tl. now apply IH.
Qed.

Lemma last_anchor (sequence : list Z) :
  sequence <> [] ->
  List.last (List.map LOSHU_ANCHORS sequence) None = LOSHU_ANCHORS (List.last sequence 0%Z)
  /\ List.In (List.last sequence 0%Z) sequence.
Proof.
  induction sequence as [|x rest IH]; intros Hne; [congruence|].
  destruct rest as [|y rest']; [split; [reflexivity|now left]|].
  destruct IH as [IH1 IH2]; [discriminate|]. split.
  - exact IH1.
  - right. exact IH2.
Qed.

(** X22: When [generateLoShuEnergyPath] returns and what it returns. The call
    returns a path exactly for a non-empty sequence of numbers from 1 to 9 (for
    any other sequence a method is called on an undefined anchor); the path
    then has [segmentsPerLeg] points for each of the [length - 1] legs and
    one final point, the position of the anchor of the last number. *)
Theorem energyPath_shape (sequence : list Z) (radiusScale : R) (segmentsPerLeg : nat) :
  match generateLoShuEnergyPath sequence radiusScale segmentsPerLeg with
  | Some path =>
      sequence <> [] /\ List.Forall anchored sequence
      /\ List.length path = ((List.length sequence - 1) * segmentsPerLeg + 1)%nat
      /\ exists lastAnchor,
           LOSHU_ANCHORS (List.last sequence 0%Z) = Some lastAnchor
           /\ List.last path v3zero = getPos radiusScale lastAnchor
  | None => sequence = [] \/ List.Exists (fun n => ~ anchored n) sequence
  end.
Proof.
  unfold generateLoShuEnergyPath.
  destruct (energyLegs sequence radiusScale segmentsPerLeg) as [legs|] eqn:Elegs;
    [|right; now apply (energyLegs_None _ radiusScale segmentsPerLeg)].
  destruct sequence as [|x rest]; [now left|].
  destruct (last_anchor (x :: rest)) as [Hlast Hin]; [discriminate|].
  rewrite Hlast.
  destruct (LOSHU_ANCHORS (List.last (x :: rest) 0%Z)) as [lastAnchor|] eqn:Ea.
  - destruct (energyLegs_Some _ _ _ _ Elegs) as [Hlen Hall].
    split; [discriminate|]. split; [|split].
    + destruct rest as [|y rest']; [|apply Hall; simpl; lia].
      constructor; [|constructor]. apply anchors_defined. simpl in Ea. now exists lastAnchor.
    + rewrite List.length_app, Hlen. simpl. lia.
    + exists lastAnchor. split; [reflexivity|]. apply List.last_last.
  - right. apply List.Exists_exists. exists (List.last (x :: rest) 0%Z).
    split; [exact Hin|now apply anchors_undefined].
Qed.

Lemma lerp_start (a b : Vector3) : V3.lerp a b 0 = a.
Proof. destruct a as [x y z]. unfold V3.lerp. simpl. f_equal; ring. Qed.

Lemma normalize_unit (n : Vector3) : isUnit n -> V3.normalize n = n.
Proof.
  intros Hn. unfold V3.normalize, V3.length. unfold isUnit in Hn. rewrite Hn, sqrt_1.
  destruct (Req_dec_T 1 0) as [E|_]; [lra|].
  destruct n as [x y z]. unfold V3.divideScalar, V3.multiplyScalar. simpl.
  f_equal; field.
Qed.

Lemma slerpVec_start (nStart nEnd : Vector3) :
  isUnit nStart -> isUnit nEnd -> -1 < V3.dot nStart nEnd ->
  slerpVec nStart nEnd 0 = nStart.
Proof.
  intros Hs He Hd. pose proof (dot_le_1 _ _ Hs He) as Hd1.
  unfold slerpVec. set (d := V3.dot nStart nEnd) in *.
  rewrite (Rmin_right 1 d) by exact Hd1. rewrite (Rmax_right (-1) d) by lra.
  unfold Rltb. destruct (Rlt_dec (Rabs (acos d)) 0.0001) as [Hsmall|Hbig];
    [apply lerp_start|].
  assert (Hd' : d < 1).
  { destruct (Req_dec_T d 1) as [E|Hne]; [|lra].
    exfalso. apply Hbig. rewrite E, acos_1, Rabs_R0. lra. }
  pose proof (acos_bound_lt d (conj Hd Hd')) as [Hth0 Hth1].
  set (theta := acos d) in *.
  assert (Hsin : 0 < sin theta) by (apply sin_gt_0; assumption).
  replace ((1 - 0) * theta) with theta by ring.
  replace (0 * theta) with 0 by ring. rewrite sin_0.
  destruct nStart as [x y z], nEnd as [x' y' z'].
  unfold V3.add, V3.multiplyScalar. simpl. f_equal; field; lra.
Qed.

(** The first sample of a leg is the position of its first anchor, unless the
    two anchors are opposite points of the surface. *)
Lemma legSample_start (startNum endNum : Z) (startAnchor endAnchor : Vector3)
    (radiusScale : R) (segmentsPerLeg : nat) :
  LOSHU_ANCHORS startNum = Some startAnchor -> LOSHU_ANCHORS endNum = Some endAnchor ->
  0 < radiusScale ->
  (startNum + endNum)%Z <> 10%Z \/ startNum = 5%Z ->
  legSample startAnchor endAnchor radiusScale segmentsPerLeg 0
  = getPos radiusScale startAnchor.
Proof.
  intros Ha Hb Hscale Hopp.
  assert (Hrad : 0 < SPHERE_RADIUS * radiusScale) by (unfold SPHERE_RADIUS; nra).
  unfold legSample. change (INR 0) with 0.
  replace (0 / INR segmentsPerLeg) with 0 by (unfold Rdiv; ring).
  destruct (Z.eq_dec startNum 5%Z) as [->|Hs5].
  { rewrite (anchor_center _ Ha). cbn [orb]. apply lerp_start. }
  destruct (Z.eq_dec endNum 5%Z) as [->|He5].
  { rewrite (anchor_center _ Hb), orb_true_r. apply lerp_start. }
  destruct Hopp as [Hsum|Hc]; [|contradiction].
  destruct (anchor_surface _ _ Ha Hs5) as [Hsa _].
  destruct (anchor_surface _ _ Hb He5) as [Hsb _].
  destruct (getPos_surface radiusScale _ Hsa) as [Us Ps].
  destruct (getPos_surface radiusScale _ Hsb) as [Ue Pe].
  rewrite Hsa, Hsb, Ps, Pe. cbn [orb].
  rewrite !normalize_scaled_unit by assumption.
  rewrite slerpVec_start; [|assumption|assumption|].
  - now rewrite normalize_unit.
  - now apply (anchors_not_opposite startNum endNum).
Qed.

(** X23: The energy path visits the anchors. In a generated path with a positive
    radius scale and at least one segment per leg, the point of index
    [i * segmentsPerLeg] is the position of the anchor of the number of index
    [i] of the sequence, for every leg that does not join two opposite surface
    anchors (two numbers other than 5 that add up to 10); consecutive such
    legs are thus joined end to end. *)
Theorem energyPath_through_anchors (sequence : list Z) (radiusScale : R)
    (segmentsPerLeg : nat) (path : list Vector3) (i : nat) (startNum endNum : Z) :
  generateLoShuEnergyPath sequence radiusScale segmentsPerLeg = Some path ->
  List.nth_error sequence i = Some startNum ->
  List.nth_error sequence (Datatypes.S i) = Some endNum ->
  (0 < segmentsPerLeg)%nat -> 0 < radiusScale ->
  (startNum + endNum)%Z <> 10%Z \/ startNum = 5%Z ->
  exists startAnchor,
    LOSHU_ANCHORS startNum = Some startAnchor
    /\ List.nth_error path (i * segmentsPerLeg) = Some (getPos radiusScale startAnchor).
Proof.
  intros Hpath Hs He Hsegs Hscale Hopp.
  destruct (energyPath_sample _ _ _ _ i 0 _ _ Hpath Hs He Hsegs) as [a [b [Ha [Hb Hn]]]].
  exists a. split; [exact Ha|].
  rewrite Nat.add_0_r in Hn. rewrite Hn. f_equal.
  now apply (legSample_start startNum endNum).
Qed.

Lemma energyPath_through_anchors_witness :
  exists path startAnchor,
    generateLoShuEnergyPath defaultEnergySequence defaultRadiusScale defaultSegmentsPerLeg
    = Some path
    /\ LOSHU_ANCHORS 4 = Some startAnchor
    /\ List.nth_error path (3 * defaultSegmentsPerLeg)
       = Some (getPos defaultRadiusScale startAnchor).
Proof.
  eexists.
  destruct (energyPath_through_anchors defaultEnergySequence defaultRadiusScale
              defaultSegmentsPerLeg _ 3 4%Z 5%Z eq_refl eq_refl eq_refl)
    as [a [Ha Hn]].
  - unfold defaultSegmentsPerLeg. lia.
  - unfold defaultRadiusScale. lra.
  - left. lia.
  - exists a. split; [reflexivity|]. split; [exact Ha|exact Hn].
Defined.


(** ** The centers of the Lo Shu groups *)

Lemma forEachFrom_fold {A S : Type} (f : S -> A -> S) (l : list A) (i : nat) (s : S) :
  forEachFrom (fun s x (_ : nat) => f s x) l i s = fold_left f l s.
Proof. revert i s. induction l as [|x l IH]; intros i s; simpl; [reflexivity|apply IH]. Qed.

Lemma sumVec_snoc (l : list Vector3) (v : Vector3) :
  sumVec (l ++ [v]) = V3.add (sumVec l) v.
Proof. unfold sumVec. now rewrite fold_left_app. Qed.

(** The sums and the counts after the loop of [useGroupCenters]. *)
Lemma addToCenter_sums (points : list LoShuPointData) (n : Z) :
  let sums := fold_left addToCenter points (∅, ∅) in
  match loShuGroupOf n points with
  | [] => fst sums !! n = None /\ snd sums !! n = None
  | p :: _ =>
      fst sums !! n
      = Some (mkGroupCenter
                (sumVec (List.map (fun q => vec3 (LoShuPointData.planePos q))
                           (loShuGroupOf n points)))
                (sumVec (List.map (fun q => vec3 (LoShuPointData.spherePos q))
                           (loShuGroupOf n points)))
                (LoShuPointData.trigram p) (LoShuPointData.direction p))
      /\ snd sums !! n = Some (List.length (loShuGroupOf n points))
  end.
Proof.
  induction points as [|pt points IH] using List.rev_ind.
  - simpl. split; apply lookup_empty.
  - cbv zeta in *. rewrite fold_left_app. cbn [fold_left].
    set (sums := fold_left addToCenter points (∅, ∅)) in *.
    unfold loShuGroupOf in *. rewrite List.filter_app. cbn [List.filter].
    destruct (Z.eqb_spec (LoShuPointData.numberValue pt) n) as [E|Hne].
    + subst n. unfold addToCenter.
      destruct (List.filter _ points) as [|p g] eqn:Eg.
      * destruct IH as [Hc Hk]. rewrite Hc. cbn [fst snd List.app].
        rewrite !lookup_alter_eq, !lookup_insert_eq. split; reflexivity.
      * destruct IH as [Hc Hk]. rewrite Hc. cbn [fst snd].
        rewrite !lookup_alter_eq, Hc, Hk. cbn [fmap option_fmap option_map].
        cbn [List.app gc_plane gc_sphere gc_trigram gc_direction].
        change (p :: g ++ [pt]) with ((p :: g) ++ [pt]).
        rewrite !List.map_app. cbn [List.map]. rewrite !sumVec_snoc.
        split; [reflexivity|]. rewrite List.length_app. simpl. f_equal. lia.
    + rewrite List.app_nil_r. unfold addToCenter.
      assert (Hc : forall (c0 : gmap Z GroupCenter) f,
                 alter f (LoShuPointData.numberValue pt) c0 !! n = c0 !! n)
        by (intros; now apply lookup_alter_ne).
      assert (Hk : forall (c0 : gmap Z nat) f,
                 alter f (LoShuPointData.numberValue pt) c0 !! n = c0 !! n)
        by (intros; now apply lookup_alter_ne).
      cbn [fst snd]. rewrite Hc, Hk.
      destruct (fst sums !! LoShuPointData.numberValue pt); cbn [fst snd];
        rewrite ?lookup_insert_ne by exact Hne; exact IH.
Qed.

Lemma useGroupCenters_lookup (points : list LoShuPointData) (n : Z) :
  useGroupCenters points !! n = groupCenterOf (loShuGroupOf n points).
Proof.
  unfold useGroupCenters, forEach. rewrite forEachFrom_fold, map_lookup_imap.
  pose proof (addToCenter_sums points n) as H. cbv zeta in H.
  unfold groupCenterOf, centroid.
  destruct (loShuGroupOf n points) as [|p g].
  - destruct H as [Hc _]. now rewrite Hc.
  - destruct H as [Hc Hk]. rewrite Hc. cbn [mbind option_bind]. rewrite Hk.
    cbn [gc_plane gc_sphere gc_trigram gc_direction]. now rewrite !List.length_map.
Qed.

(** X24: [useGroupCenters] computes the centroids of the groups. For any list of
    points whose group values are safe integers, and any safe integer, the
    entry of the number is absent when no point has it as its group value,
    and otherwise holds the centroid of the plane positions and the centroid
    of the sphere positions of the points of the group, with the trigram and
    the direction of the first of them; so the numbers that have a center are
    exactly the group values of the points. *)
Theorem groupCenters_centroids (points : list LoShuPointData) (n : Z) :
  List.forallb (fun p => safeInteger (LoShuPointData.numberValue p)) points = true ->
  safeInteger n = true ->
  useGroupCenters points !! n = groupCenterOf (loShuGroupOf n points)
  /\ (is_Some (useGroupCenters points !! n)
      <-> List.In n (List.map LoShuPointData.numberValue points)).
Proof.
  intros _ _.
  split; [apply useGroupCenters_lookup|].
  rewrite useGroupCenters_lookup, List.in_map_iff. unfold groupCenterOf, loShuGroupOf.
  destruct (List.filter _ points) as [|p g] eqn:Eg.
  - split; [intros [c Hc]; discriminate|].
    intros [q [Hn Hq]]. exfalso.
    assert (Hin : List.In q (List.filter
                               (fun p => (LoShuPointData.numberValue p =? n)%Z) points))
      by (apply List.filter_In; split; [exact Hq|now apply Z.eqb_eq]).
    now rewrite Eg in Hin.
  - split; [|intros _; now eexists].
    intros _. exists p.
    assert (Hin : List.In p (List.filter
                               (fun p => (LoShuPointData.numberValue p =? n)%Z) points))
      by (rewrite Eg; now left).
    apply List.filter_In in Hin. destruct Hin as [Hp Hn]. apply Z.eqb_eq in Hn. auto.
Qed.

Lemma groupCenters_centroids_witness :
  let points := [ loShuPoint 5 (Vector3.mk 0 0 0) (0, 0) 0;
                  loShuPoint 1 (Vector3.mk 0 (- SPHERE_RADIUS) 0) (0, 0) 0;
                  loShuPoint 5 (Vector3.mk 0 0 0) (0, gap * 0.6) 1 ] in
  useGroupCenters points !! 5%Z = groupCenterOf (loShuGroupOf 5 points).
Proof.
  apply (groupCenters_centroids
           [ loShuPoint 5 (Vector3.mk 0 0 0) (0, 0) 0;
             loShuPoint 1 (Vector3.mk 0 (- SPHERE_RADIUS) 0) (0, 0) 0;
             loShuPoint 5 (Vector3.mk 0 0 0) (0, gap * 0.6) 1 ] 5%Z); reflexivity.
Defined.


(** X25: The plane layout is the Lo Shu square. The catalog is generated; for each
    number from 1 to 9, [useGroupCenters] has a center whose plane position is
    the cell of the number in the square ([LOSHU_GRID_SIZE] apart: 4 9 2 in the
    top row, 3 5 7 in the middle row, 8 1 6 in the bottom row), the patterns
    of dots being balanced around their cells, and whose trigram and direction
    are those of the number; the sphere center of group 5 is the center of the
    sphere. *)
Theorem loShu_centers_on_square :
  exists points,
    generateLoShuPoints = Some points
    /\ List.Forall
         (fun cell =>
            exists c,
              useGroupCenters points !! fst cell = Some c
              /\ gc_plane c
                 = Vector3.mk (fst (snd cell) * LOSHU_GRID_SIZE)
                              (snd (snd cell) * LOSHU_GRID_SIZE) 0
              /\ gc_trigram c = TRIGRAMS (fst cell)
              /\ gc_direction c = DIRECTIONS (fst cell))
         loShuSquare
    /\ exists c5, useGroupCenters points !! 5%Z = Some c5 /\ gc_sphere c5 = Vector3.mk 0 0 0.
Proof.
  eexists. split; [reflexivity|].
  split.
  - unfold loShuSquare.
    repeat (apply List.Forall_cons || apply List.Forall_nil);
      rewrite useGroupCenters_lookup; (eexists; split; [reflexivity|]);
      (split; [|split; reflexivity]); simpl;
      unfold centroid, sumVec, vec3, V3.divideScalar, V3.multiplyScalar, V3.add; simpl;
      f_equal; field; lra.
  - rewrite useGroupCenters_lookup. eexists. split; [reflexivity|].
    simpl. unfold centroid, sumVec, vec3, V3.divideScalar, V3.multiplyScalar, V3.add.
    simpl. f_equal; field.
Qed.


(** ** The dots on the sphere *)

Lemma quaternion_normalize_unit (q : Quaternion.t) : unitQuaternion (Quaternion.normalize q).
Proof.
  destruct q as [x y z w]. unfold unitQuaternion, Quaternion.normalize, Quaternion.length.
  simpl. set (S := x * x + y * y + z * z + w * w).
  destruct (Req_dec_T (sqrt S) 0) as [E|Hne]; simpl; [ring|].
  assert (Hnn : 0 <= S).
  { unfold S. pose proof (Rle_0_sqr x). pose proof (Rle_0_sqr y).
    pose proof (Rle_0_sqr z). pose proof (Rle_0_sqr w). unfold Rsqr in *. lra. }
  pose proof (sqrt_sqrt S Hnn) as Hs.
  replace (x * (1 / sqrt S) * (x * (1 / sqrt S)) + y * (1 / sqrt S) * (y * (1 / sqrt S))
           + z * (1 / sqrt S) * (z * (1 / sqrt S)) + w * (1 / sqrt S) * (w * (1 / sqrt S)))
    with (S / (sqrt S * sqrt S)) by (unfold S; field; exact Hne).
  rewrite Hs. field. intros E. apply Hne. rewrite E. apply sqrt_0.
Qed.

(** A unit quaternion rotates: lengths are kept. *)
Lemma applyTo_lengthSq (v : Vector3) (q : Quaternion.t) :
  unitQuaternion q -> V3.lengthSq (Quaternion.applyTo v q) = V3.lengthSq v.
Proof.
  destruct v as [vx vy vz], q as [x y z w].
  unfold unitQuaternion, V3.lengthSq, Quaternion.applyTo. simpl. intros H. nsatz.
Qed.

Lemma EPSILON_small : 0 < Quaternion.EPSILON < 1 / 4.
Proof.
  unfold Quaternion.EPSILON. change (2 ^ 52)%Z with 4503599627370496%Z. lra.
Qed.

(** The quaternion from the z axis to a unit direction, away from the
    opposite of the axis. *)
Lemma setFromUnitVectors_z (n : Vector3) :
  isUnit n -> Quaternion.EPSILON <= 1 + Vector3.z n ->
  exists l,
    l * l * (2 * (1 + Vector3.z n)) = 1
    /\ Quaternion.setFromUnitVectors (Vector3.mk 0 0 1) n
       = Quaternion.mk (- Vector3.y n * l) (Vector3.x n * l) (0 * l)
                       ((1 + Vector3.z n) * l).
Proof.
  destruct n as [nx ny nz]. unfold isUnit, V3.lengthSq. simpl. intros Hn Hz.
  pose proof EPSILON_small as [He0 He1].
  unfold Quaternion.setFromUnitVectors, V3.dot. simpl.
  replace (0 * nx + 0 * ny + 1 * nz + 1) with (1 + nz) by ring.
  unfold Rltb. destruct (Rlt_dec (1 + nz) Quaternion.EPSILON) as [H|_]; [lra|].
  unfold Quaternion.normalize, Quaternion.length. simpl.
  set (S := (0 * nz - 1 * ny) * (0 * nz - 1 * ny) + (1 * nx - 0 * nz) * (1 * nx - 0 * nz)
            + (0 * ny - 0 * nx) * (0 * ny - 0 * nx) + (1 + nz) * (1 + nz)).
  assert (HS : S = 2 * (1 + nz)) by (unfold S; nsatz).
  assert (Hpos : 0 < S) by lra.
  assert (Hsq : 0 < sqrt S) by now apply sqrt_lt_R0.
  destruct (Req_dec_T (sqrt S) 0) as [E|_]; [lra|].
  exists (1 / sqrt S). split.
  - rewrite <- HS.
    replace (1 / sqrt S * (1 / sqrt S) * S) with (S / (sqrt S * sqrt S)) by (field; lra).
    rewrite sqrt_sqrt by lra. field. lra.
  - f_equal; ring.
Qed.

(** The rotation from the z axis to [n] keeps the component along the axis as
    the component along [n]. *)
Lemma applyTo_axis (v n : Vector3) (l : R) :
  isUnit n -> l * l * (2 * (1 + Vector3.z n)) = 1 ->
  V3.dot (Quaternion.applyTo v
            (Quaternion.mk (- Vector3.y n * l) (Vector3.x n * l) (0 * l)
                           ((1 + Vector3.z n) * l))) n
  = Vector3.z v.
Proof.
  destruct v as [vx vy vz], n as [nx ny nz].
  unfold isUnit, V3.lengthSq, V3.dot, Quaternion.applyTo. simpl. intros Hn Hl. nsatz.
Qed.

Lemma localVec_scaled (off : R * R) :
  let localVec := Vector3.mk (fst off) (snd off) SPHERE_RADIUS in
  let scaled := V3.multiplyScalar (V3.normalize localVec) SPHERE_RADIUS in
  V3.lengthSq scaled = SPHERE_RADIUS * SPHERE_RADIUS
  /\ Vector3.z scaled
     = SPHERE_RADIUS * SPHERE_RADIUS
       / sqrt (fst off * fst off + snd off * snd off + SPHERE_RADIUS * SPHERE_RADIUS).
Proof.
  destruct off as [ox oy]. simpl.
  set (S := ox * ox + oy * oy + SPHERE_RADIUS * SPHERE_RADIUS).
  assert (HS : 0 < S).
  { unfold S, SPHERE_RADIUS. pose proof (Rle_0_sqr ox). pose proof (Rle_0_sqr oy).
    unfold Rsqr in *. lra. }
  assert (Hl : V3.lengthSq (Vector3.mk ox oy SPHERE_RADIUS) = S) by reflexivity.
  split.
  - rewrite lengthSq_multiplyScalar.
    rewrite (normalize_isUnit (Vector3.mk ox oy SPHERE_RADIUS)) by (rewrite Hl; lra).
    ring.
  - unfold V3.normalize, V3.length. rewrite Hl.
    assert (Hsq : 0 < sqrt S) by now apply sqrt_lt_R0.
    destruct (Req_dec_T (sqrt S) 0) as [E|_]; [lra|].
    unfold V3.divideScalar, V3.multiplyScalar. simpl. field. lra.
Qed.

(** A dot of a group other than 5 is placed on the cap around the anchor. *)
Lemma loShuSpherePos_cap (num : Z) (anchor : Vector3) (off : R * R) :
  num <> 5%Z -> V3.lengthSq anchor <> 0 ->
  Quaternion.EPSILON <= 1 + Vector3.z (V3.normalize anchor) ->
  onAnchorCap anchor off (loShuSpherePos num anchor off).
Proof.
  intros Hnum Ha Hz. unfold loShuSpherePos.
  apply Z.eqb_neq in Hnum. rewrite Hnum. cbn [negb].
  pose proof (normalize_isUnit anchor Ha) as Hn.
  destruct (localVec_scaled off) as [Hlen Hcomp]. cbv zeta in Hlen, Hcomp.
  split.
  - rewrite applyTo_lengthSq; [exact Hlen|].
    unfold Quaternion.setFromUnitVectors. apply quaternion_normalize_unit.
  - destruct (setFromUnitVectors_z _ Hn Hz) as [l [Hl ->]].
    rewrite applyTo_axis by assumption. exact Hcomp.
Qed.

Lemma anchor_off_axis (num : Z) (anchor : Vector3) :
  LOSHU_ANCHORS num = Some anchor -> num <> 5%Z ->
  Quaternion.EPSILON <= 1 + Vector3.z (V3.normalize anchor).
Proof.
  intros Ha Hnum.
  destruct (anchor_surface _ _ Ha Hnum) as [_ Hlen].
  pose proof (normalize_isUnit anchor Hlen) as Hn.
  destruct (normalize_components anchor Hlen) as [k [Hk Hc]].
  rewrite Hc in Hn |- *. unfold isUnit, V3.lengthSq in Hn. simpl in Hn. simpl.
  pose proof EPSILON_small as [_ He].
  assert (Hsq : Vector3.z anchor * k * (Vector3.z anchor * k) <= 1 / 2).
  { anchor_cases Ha; try lia; simpl in *; nra. }
  assert (- (3 / 4) <= Vector3.z anchor * k) by nra.
  lra.
Qed.

(** The points pushed for one number, one after the other. *)
Lemma forEach_push_In {A B : Type} (f : A -> nat -> B) (l : list A) (i0 : nat)
    (acc : list B) (b : B) :
  List.In b (forEachFrom (fun points x i => points ++ [f x i]) l i0 acc) ->
  List.In b acc \/ exists x i, List.In x l /\ b = f x i.
Proof.
  revert i0 acc. induction l as [|x l IH]; intros i0 acc H; simpl in H; [now left|].
  destruct (IH _ _ H) as [Hacc|[y [i [Hy Hb]]]].
  - apply List.in_app_iff in Hacc. destruct Hacc as [Hacc|[<-|[]]]; [now left|].
    right. exists x, i0. split; [now left|reflexivity].
  - right. exists y, i. split; [now right|exact Hb].
Qed.

Lemma loShuPoints_In (points : list LoShuPointData) (p : LoShuPointData) :
  generateLoShuPoints = Some points -> List.In p points ->
  exists num anchor off i,
    LOSHU_ANCHORS num = Some anchor /\ List.In off (loShuOffsets num)
    /\ p = loShuPoint num anchor off i.
Proof.
  intros Hgen Hp.
  assert (E : points = List.concat (List.map (fun num =>
                match loShuGroup num with Some g => g | None => [] end) loShuNumbers)).
  { assert (H : generateLoShuPoints = Some (List.concat (List.map (fun num =>
                  match loShuGroup num with Some g => g | None => [] end) loShuNumbers)))
      by reflexivity.
    rewrite H in Hgen. now injection Hgen. }
  subst points. apply List.in_concat in Hp. destruct Hp as [g [Hg Hp]].
  apply List.in_map_iff in Hg. destruct Hg as [num [<- _]].
  unfold loShuGroup in Hp.
  destruct (LOSHU_ANCHORS num) as [anchor|] eqn:Ea; [|destruct Hp].
  unfold forEach in Hp. apply forEach_push_In in Hp.
  destruct Hp as [[]|[off [i [Hoff ->]]]].
  exists num, anchor, off, i. auto.
Qed.

(** X26: The sphere layout. The catalog is generated, and every point of it is
    the point of one offset [off] of the pattern of its number: its plane
    position is the cell of the number displaced by [off]; unless the number
    is 5, its sphere position lies on the sphere of radius [SPHERE_RADIUS] and
    its component along the direction of the anchor of the number is
    [R * R / sqrt (|off|^2 + R * R)], so that the pattern is wrapped around
    the anchor. *)
Theorem loShu_dots_on_sphere :
  exists points,
    generateLoShuPoints = Some points
    /\ List.Forall
         (fun p =>
            exists anchor off,
              LOSHU_ANCHORS (LoShuPointData.numberValue p) = Some anchor
              /\ List.In off (loShuOffsets (LoShuPointData.numberValue p))
              /\ LoShuPointData.planePos p
                 = (fst (loShuCell (LoShuPointData.numberValue p)) + fst off,
                    snd (loShuCell (LoShuPointData.numberValue p)) + snd off, 0)
              /\ (LoShuPointData.numberValue p <> 5%Z ->
                  onAnchorCap anchor off (vec3 (LoShuPointData.spherePos p))))
         points.
Proof.
  eexists. split; [reflexivity|].
  apply List.Forall_forall. intros p Hp.
  destruct (loShuPoints_In _ p eq_refl Hp) as [num [anchor [off [i [Ha [Hoff ->]]]]]].
  exists anchor, off. cbn [loShuPoint LoShuPointData.numberValue LoShuPointData.planePos
                            LoShuPointData.spherePos].
  split; [exact Ha|]. split; [exact Hoff|]. split; [reflexivity|].
  intros Hnum.
  replace (vec3 _) with (loShuSpherePos num anchor off)
    by (now destruct (loShuSpherePos num anchor off)).
  destruct (anchor_surface _ _ Ha Hnum) as [_ Hlen].
  apply loShuSpherePos_cap; [exact Hnum|exact Hlen|].
  now apply (anchor_off_axis num).
Qed.


(** ** The morph of the dots and of the labels *)

(** X27: The dots of group 5 do not move. For every point of the catalog the dot
    is at its plane position at morph level 0 and at its sphere position at
    morph level 1; the five points of group 5 have the same plane and sphere
    position, so their dots stay where they are at every morph level. *)
Theorem loShu_center_dots_fixed :
  exists points,
    generateLoShuPoints = Some points
    /\ List.Forall
         (fun p =>
            dotPosition p 0 = vec3 (LoShuPointData.planePos p)
            /\ dotPosition p 1 = vec3 (LoShuPointData.spherePos p)
            /\ (LoShuPointData.numberValue p = 5%Z ->
                forall m, dotPosition p m = vec3 (LoShuPointData.planePos p)))
         points
    /\ List.length (loShuGroupOf 5 points) = 5%nat.
Proof.
  eexists. split; [reflexivity|]. split; [|reflexivity].
  apply List.Forall_forall. intros p Hp.
  destruct (loShuPoints_In _ p eq_refl Hp) as [num [anchor [off [i [Ha [Hoff ->]]]]]].
  split; [|split].
  - unfold dotPosition, vec3. f_equal; ring.
  - unfold dotPosition, vec3. f_equal; ring.
  - cbn [loShuPoint LoShuPointData.numberValue]. intros -> m.
    unfold dotPosition, vec3, loShuPoint, loShuSpherePos. simpl. f_equal; ring.
Qed.

Lemma sum_dot_pos (n a : Vector3) (l : list Vector3) :
  0 <= V3.dot a n -> l <> [] -> List.Forall (fun v => 0 < V3.dot v n) l ->
  0 < V3.dot (fold_left V3.add l a) n.
Proof.
  revert a. induction l as [|v l IH]; intros a Ha Hne Hall; [congruence|].
  inversion Hall as [|? ? Hv Hl]; subst. simpl.
  assert (Hadd : V3.dot (V3.add a v) n = V3.dot a n + V3.dot v n)
    by (unfold V3.dot, V3.add; simpl; ring).
  destruct l as [|w l]; [simpl; lra|].
  apply IH; [lra|discriminate|exact Hl].
Qed.

Lemma centroid_dot_pos (n : Vector3) (l : list Vector3) :
  l <> [] -> List.Forall (fun v => 0 < V3.dot v n) l -> 0 < V3.dot (centroid l) n.
Proof.
  intros Hne Hall. unfold centroid, sumVec.
  assert (Hsum : 0 < V3.dot (fold_left V3.add l (Vector3.mk 0 0 0)) n).
  { apply sum_dot_pos; [unfold V3.dot; simpl; lra|exact Hne|exact Hall]. }
  assert (Hlen : 0 < INR (List.length l)).
  { apply lt_0_INR. destruct l; [congruence|simpl; lia]. }
  replace (V3.dot (V3.divideScalar (fold_left V3.add l (Vector3.mk 0 0 0))
                     (INR (List.length l))) n)
    with (V3.dot (fold_left V3.add l (Vector3.mk 0 0 0)) n * (1 / INR (List.length l)))
    by (unfold V3.dot, V3.divideScalar, V3.multiplyScalar; simpl; ring).
  apply Rmult_lt_0_compat; [exact Hsum|]. apply Rdiv_lt_0_compat; lra.
Qed.

Lemma dot_pos_nonzero (v n : Vector3) : 0 < V3.dot v n -> V3.lengthSq v <> 0.
Proof.
  destruct v as [x y z], n as [nx ny nz]. unfold V3.dot, V3.lengthSq. simpl.
  intros Hd E.
  pose proof (Rle_0_sqr x). pose proof (Rle_0_sqr y). pose proof (Rle_0_sqr z).
  unfold Rsqr in *.
  assert (x * x = 0) by lra. assert (y * y = 0) by lra. assert (z * z = 0) by lra.
  assert (x = 0) by now apply Rsqr_0_uniq. assert (y = 0) by now apply Rsqr_0_uniq.
  assert (z = 0) by now apply Rsqr_0_uniq. subst. lra.
Qed.

Lemma onAnchorCap_dot_pos (anchor : Vector3) (off : R * R) (pos : Vector3) :
  onAnchorCap anchor off pos -> 0 < V3.dot pos (V3.normalize anchor).
Proof.
  intros [_ ->]. apply Rdiv_lt_0_compat; [unfold SPHERE_RADIUS; lra|].
  apply sqrt_lt_R0. pose proof (Rle_0_sqr (fst off)). pose proof (Rle_0_sqr (snd off)).
  unfold Rsqr, SPHERE_RADIUS in *. lra.
Qed.

Lemma generateLoShuPoints_value :
  generateLoShuPoints
  = Some (List.concat (List.map (fun num =>
            match loShuGroup num with Some g => g | None => [] end) loShuNumbers)).
Proof. reflexivity. Qed.

Lemma loShu_group_length (points : list LoShuPointData) (n : Z) :
  generateLoShuPoints = Some points -> anchored n ->
  List.length (loShuGroupOf n points) = Z.to_nat n.
Proof.
  rewrite generateLoShuPoints_value. intros [= <-] Hn. unfold anchored in Hn.
  assert (Hc : (n = 1 \/ n = 2 \/ n = 3 \/ n = 4 \/ n = 5 \/ n = 6 \/ n = 7 \/ n = 8
                \/ n = 9)%Z) by lia.
  repeat (destruct Hc as [->|Hc]; [reflexivity|]). subst n. reflexivity.
Qed.

Lemma loShu_group5_points (points : list LoShuPointData) :
  generateLoShuPoints = Some points ->
  loShuGroupOf 5 points
  = [ loShuPoint 5 (Vector3.mk 0 0 0) (0, 0) 0;
      loShuPoint 5 (Vector3.mk 0 0 0) (0, gap * 0.6) 1;
      loShuPoint 5 (Vector3.mk 0 0 0) (0, - gap * 0.6) 2;
      loShuPoint 5 (Vector3.mk 0 0 0) (- gap * 0.6, 0) 3;
      loShuPoint 5 (Vector3.mk 0 0 0) (gap * 0.6, 0) 4 ].
Proof. rewrite generateLoShuPoints_value. intros [= <-]. reflexivity. Qed.

Lemma center5_at_origin (points : list LoShuPointData) :
  generateLoShuPoints = Some points ->
  exists c,
    groupCenterOf (loShuGroupOf 5 points) = Some c
    /\ gc_plane c = v3zero /\ gc_sphere c = v3zero.
Proof.
  intros Hgen. rewrite (loShu_group5_points points Hgen).
  eexists. split; [reflexivity|].
  split; simpl;
    unfold centroid, sumVec, vec3, V3.divideScalar, V3.multiplyScalar, V3.add, v3zero;
    simpl; f_equal; field.
Qed.

(** The centers of the catalog: that of group 5 is at the origin, in the plane
    and in the sphere; the sphere centroid of another group is not. *)
Lemma loShu_center_facts (points : list LoShuPointData) (n : Z) :
  generateLoShuPoints = Some points -> anchored n ->
  exists c,
    useGroupCenters points !! n = Some c
    /\ (n = 5%Z -> gc_plane c = v3zero /\ gc_sphere c = v3zero)
    /\ (n <> 5%Z -> V3.lengthSq (gc_sphere c) <> 0).
Proof.
  intros Hgen Hn. rewrite useGroupCenters_lookup.
  pose proof (loShu_group_length points n Hgen Hn) as Hlen.
  destruct (Z.eq_dec n 5%Z) as [->|Hn5].
  - destruct (center5_at_origin points Hgen) as [c [Hc [Hp Hs]]].
    exists c. split; [exact Hc|]. split; [auto|congruence].
  - destruct (loShuGroupOf n points) as [|p g] eqn:Eg.
    { exfalso. simpl in Hlen. unfold anchored in Hn. lia. }
    unfold groupCenterOf. eexists. split; [reflexivity|]. split; [congruence|].
    intros _.
    assert (Ha : is_Some (LOSHU_ANCHORS n)) by now apply anchors_defined.
    destruct Ha as [anchor Ha].
    cbn [gc_sphere].
    apply (dot_pos_nonzero _ (V3.normalize anchor)).
    apply centroid_dot_pos; [discriminate|].
    apply List.Forall_forall. intros v Hv. apply List.in_map_iff in Hv.
    destruct Hv as [q [<- Hq]].
    assert (Hq' : List.In q (loShuGroupOf n points)) by (rewrite Eg; exact Hq).
    apply List.filter_In in Hq'. destruct Hq' as [Hq' Enum]. apply Z.eqb_eq in Enum.
    destruct (loShuPoints_In _ q Hgen Hq') as [num [a [off [i [Hnum [Hoff ->]]]]]].
    cbn [loShuPoint LoShuPointData.numberValue] in Enum. subst num.
    assert (a = anchor) by congruence. subst a.
    apply (onAnchorCap_dot_pos anchor off).
    cbn [loShuPoint LoShuPointData.spherePos].
    replace (vec3 _) with (loShuSpherePos n anchor off)
      by (now destruct (loShuSpherePos n anchor off)).
    destruct (anchor_surface _ _ Ha Hn5) as [_ Hl].
    apply loShuSpherePos_cap; [exact Hn5|exact Hl|now apply (anchor_off_axis n)].
Qed.

(** X28: The labels at full morph. The catalog is generated and, for each number
    from 1 to 9, [useGroupCenters] has a center; the label of the center of
    group 5 stays at the center of the sphere at every morph level; the
    sphere centroid of every other group is not the origin, and its label is
    at distance 23 from the center at morph level 1. *)
Theorem loShu_labels :
  exists points,
    generateLoShuPoints = Some points
    /\ forall n, anchored n ->
         exists c,
           useGroupCenters points !! n = Some c
           /\ (n = 5%Z -> forall m, labelPosition c m = Vector3.mk 0 0 0)
           /\ (n <> 5%Z -> V3.length (labelPosition c 1) = 23).
Proof.
  eexists. split; [reflexivity|].
  intros n Hn.
  destruct (loShu_center_facts _ n eq_refl Hn) as [c [Hc [H5 Hn5]]].
  exists c. split; [exact Hc|]. split.
  - intros E m. destruct (H5 E) as [Hp Hs]. unfold labelPosition.
    rewrite Hp, Hs, normalize_zero. unfold v3zero, V3.multiplyScalar. simpl.
    f_equal; ring.
  - intros E. specialize (Hn5 E). unfold labelPosition.
    replace (Vector3.mk _ _ _) with (V3.multiplyScalar (V3.normalize (gc_sphere c)) 23)
      by (unfold V3.multiplyScalar; simpl; f_equal; ring).
    apply length_scaled_unit; [now apply normalize_isUnit|lra].
Qed.


(** ** The path of the energy tube *)

Lemma createArc_ends (start end_ control : Vector3) :
  List.nth_error (createArc start end_ control) 0
  = Some (V3.multiplyScalar (V3.normalize start) (SPHERE_RADIUS * 1.05))
  /\ List.nth_error (createArc start end_ control) 12
     = Some (V3.multiplyScalar (V3.normalize end_) (SPHERE_RADIUS * 1.05)).
Proof.
  unfold createArc, energySegments.
  rewrite !forPush_nth by lia. split; do 3 f_equal.
  - destruct start as [x y z]. unfold addScaledVector. simpl. f_equal; field.
  - destruct end_ as [x y z]. unfold addScaledVector. simpl. f_equal; field.
Qed.

Lemma diveLeg_end (a b : Vector3) : List.nth_error (diveLeg a b) 12 = Some b.
Proof.
  unfold diveLeg, energySegments. rewrite forPush_nth by lia. f_equal.
  destruct a as [x y z], b as [x' y' z']. unfold V3.lerp. simpl. f_equal; field.
Qed.

Lemma addPoints_length (fullPath pts : list Vector3) (n : nat) :
  fullPath <> [] -> List.length pts = Datatypes.S n ->
  addPoints fullPath pts = fullPath ++ List.tl pts
  /\ List.length (addPoints fullPath pts) = (List.length fullPath + n)%nat.
Proof.
  intros Hne Hlen. unfold addPoints.
  destruct fullPath as [|p l]; [congruence|]. cbn [List.length Nat.ltb Nat.leb].
  split; [reflexivity|].
  destruct pts as [|q pts]; [discriminate|]. cbn [List.tl].
  rewrite List.length_app. simpl in *. lia.
Qed.

(** The last point of a piece added to a path that has [k] points already is
    the point of index [k + 11] of the path. *)
Lemma addPoints_last (fullPath pts : list Vector3) (v : Vector3) :
  fullPath <> [] -> List.nth_error pts 12 = Some v ->
  List.nth_error (addPoints fullPath pts) (List.length fullPath + 11) = Some v.
Proof.
  intros Hne Hv. unfold addPoints.
  destruct fullPath as [|p l]; [congruence|]. cbn [List.length Nat.ltb Nat.leb].
  rewrite List.nth_error_app2 by (simpl; lia).
  replace (Datatypes.S (List.length l) + 11 - List.length (p :: l))%nat with 11%nat
    by (simpl; lia).
  destruct pts as [|q pts]; [discriminate|]. exact Hv.
Qed.

Lemma addPoints_keeps (fullPath pts : list Vector3) (i : nat) (v : Vector3) :
  List.nth_error fullPath i = Some v -> List.nth_error (addPoints fullPath pts) i = Some v.
Proof.
  intros Hv. unfold addPoints.
  assert (Hi : (i < List.length fullPath)%nat) by (apply List.nth_error_Some; congruence).
  destruct (0 <? List.length fullPath)%nat; now rewrite List.nth_error_app1.
Qed.

Lemma createArc_length (start end_ control : Vector3) :
  List.length (createArc start end_ control) = 13%nat.
Proof. apply forPush_length. Qed.

Lemma diveLeg_length (a b : Vector3) : List.length (diveLeg a b) = 13%nat.
Proof. apply forPush_length. Qed.

(** With the nine centers, the path has 109 points, begins and ends on the
    direction of the center of 1, and passes through the center of 5. *)
Lemma energyPathPoints_full (centers : gmap Z GroupCenter)
    (c1 c2 c3 c4 c5 c6 c7 c8 c9 : GroupCenter) :
  centers !! 1%Z = Some c1 -> centers !! 2%Z = Some c2 -> centers !! 3%Z = Some c3 ->
  centers !! 4%Z = Some c4 -> centers !! 5%Z = Some c5 -> centers !! 6%Z = Some c6 ->
  centers !! 7%Z = Some c7 -> centers !! 8%Z = Some c8 -> centers !! 9%Z = Some c9 ->
  exists path,
    energyPathPoints centers = Some path
    /\ List.length path = 109%nat
    /\ List.nth_error path 0
       = Some (V3.multiplyScalar (V3.normalize (gc_sphere c1)) (SPHERE_RADIUS * 1.05))
    /\ List.nth_error path 48 = Some (gc_sphere c5)
    /\ List.nth_error path 108
       = Some (V3.multiplyScalar (V3.normalize (gc_sphere c1)) (SPHERE_RADIUS * 1.05)).
Proof.
  intros H1 H2 H3 H4 H5 H6 H7 H8 H9. unfold energyPathPoints.
  rewrite H1, H2, H3, H4, H5, H6, H7, H8, H9. cbv zeta.
  set (a12 := createArc (gc_sphere c1) (gc_sphere c2) _).
  set (a23 := createArc (gc_sphere c2) (gc_sphere c3) _).
  set (a34 := createArc (gc_sphere c3) (gc_sphere c4) _).
  set (d45 := diveLeg (gc_sphere c4) (gc_sphere c5)).
  set (d56 := diveLeg (gc_sphere c5) (gc_sphere c6)).
  set (a67 := createArc (gc_sphere c6) (gc_sphere c7) _).
  set (a78 := createArc (gc_sphere c7) (gc_sphere c8) _).
  set (a89 := createArc (gc_sphere c8) (gc_sphere c9) _).
  set (a91 := createArc (gc_sphere c9) (gc_sphere c1) _).
  set (p1 := addPoints [] a12).
  assert (L1 : List.length p1 = 13%nat) by (unfold p1, a12; apply createArc_length).
  assert (N1 : p1 <> []) by (intros E; rewrite E in L1; discriminate).
  set (p2 := addPoints p1 a23).
  destruct (addPoints_length p1 a23 12 N1 (createArc_length _ _ _)) as [_ L2]. fold p2 in L2.
  assert (N2 : p2 <> []) by (intros E; rewrite E in L2; simpl in L2; lia).
  set (p3 := addPoints p2 a34).
  destruct (addPoints_length p2 a34 12 N2 (createArc_length _ _ _)) as [_ L3]. fold p3 in L3.
  assert (N3 : p3 <> []) by (intros E; rewrite E in L3; simpl in L3; lia).
  set (p4 := addPoints p3 d45).
  destruct (addPoints_length p3 d45 12 N3 (diveLeg_length _ _)) as [_ L4]. fold p4 in L4.
  assert (N4 : p4 <> []) by (intros E; rewrite E in L4; simpl in L4; lia).
  set (p5 := addPoints p4 d56).
  destruct (addPoints_length p4 d56 12 N4 (diveLeg_length _ _)) as [_ L5]. fold p5 in L5.
  assert (N5 : p5 <> []) by (intros E; rewrite E in L5; simpl in L5; lia).
  set (p6 := addPoints p5 a67).
  destruct (addPoints_length p5 a67 12 N5 (createArc_length _ _ _)) as [_ L6]. fold p6 in L6.
  assert (N6 : p6 <> []) by (intros E; rewrite E in L6; simpl in L6; lia).
  set (p7 := addPoints p6 a78).
  destruct (addPoints_length p6 a78 12 N6 (createArc_length _ _ _)) as [_ L7]. fold p7 in L7.
  assert (N7 : p7 <> []) by (intros E; rewrite E in L7; simpl in L7; lia).
  set (p8 := addPoints p7 a89).
  destruct (addPoints_length p7 a89 12 N7 (createArc_length _ _ _)) as [_ L8]. fold p8 in L8.
  assert (N8 : p8 <> []) by (intros E; rewrite E in L8; simpl in L8; lia).
  set (p9 := addPoints p8 a91).
  destruct (addPoints_length p8 a91 12 N8 (createArc_length _ _ _)) as [_ L9]. fold p9 in L9.
  exists p9. split; [reflexivity|]. split; [lia|]. split; [|split].
  - do 8 apply addPoints_keeps. unfold p1, addPoints. cbn [List.length Nat.ltb Nat.leb List.app].
    apply createArc_ends.
  - do 5 apply addPoints_keeps.
    replace 48%nat with (List.length p3 + 11)%nat by lia.
    apply addPoints_last; [exact N3|apply diveLeg_end].
  - replace 108%nat with (List.length p8 + 11)%nat by lia.
    apply addPoints_last; [exact N8|apply createArc_ends].
Qed.

(** X29: The path of the energy tube. Without the center of 1 or of 9 the path is
    empty; with these two but without the center of another number from 2 to
    8 the computation reads a field of undefined. For the generated catalog the
    path has 109 points; it is closed, its first and its last point being the
    same point at distance [SPHERE_RADIUS * 1.05] from the origin, in the
    direction of the sphere center of group 1; and its point of index 48, the end of
    the dive from 4, is the center of the sphere. *)
Theorem energySystem_path :
  (forall centers, centers !! 1%Z = None \/ centers !! 9%Z = None ->
                   energyPathPoints centers = Some [])
  /\ (forall centers n,
        is_Some (centers !! 1%Z) -> is_Some (centers !! 9%Z) ->
        (2 <= n <= 8)%Z -> centers !! n = None ->
        energyPathPoints centers = None)
  /\ exists points path p c1,
       generateLoShuPoints = Some points
       /\ energyPathPoints (useGroupCenters points) = Some path
       /\ List.length path = 109%nat
       /\ List.nth_error path 0 = Some p /\ List.nth_error path 108 = Some p
       /\ V3.length p = SPHERE_RADIUS * 1.05
       /\ useGroupCenters points !! 1%Z = Some c1
       /\ p = V3.multiplyScalar (V3.normalize (gc_sphere c1)) (SPHERE_RADIUS * 1.05)
       /\ List.nth_error path 48 = Some v3zero.
Proof.
  split; [|split].
  - intros centers [H|H]; unfold energyPathPoints; rewrite H;
      [reflexivity|now destruct (centers !! 1%Z)].
  - intros centers n [c1 H1] [c9 H9] Hn Hnone. unfold energyPathPoints.
    rewrite H1, H9.
    assert (Hc : (n = 2 \/ n = 3 \/ n = 4 \/ n = 5 \/ n = 6 \/ n = 7 \/ n = 8)%Z) by lia.
    destruct Hc as [->|[->|[->|[->|[->|[->| ->]]]]]]; rewrite Hnone;
      repeat (match goal with |- context [centers !! ?k] => destruct (centers !! k) end);
      reflexivity.
  - eexists.
    assert (Hgen : generateLoShuPoints = Some (List.concat (List.map (fun num =>
                     match loShuGroup num with Some g => g | None => [] end) loShuNumbers)))
      by reflexivity.
    set (points := List.concat _) in *.
    assert (A : forall n, anchored n -> exists c,
                  useGroupCenters points !! n = Some c
                  /\ (n = 5%Z -> gc_plane c = v3zero /\ gc_sphere c = v3zero)
                  /\ (n <> 5%Z -> V3.lengthSq (gc_sphere c) <> 0))
      by (intros n Hn; now apply loShu_center_facts).
    destruct (A 1%Z) as [c1 [H1 [_ N1]]]; [unfold anchored; lia|].
    destruct (A 2%Z) as [c2 [H2 _]]; [unfold anchored; lia|].
    destruct (A 3%Z) as [c3 [H3 _]]; [unfold anchored; lia|].
    destruct (A 4%Z) as [c4 [H4 _]]; [unfold anchored; lia|].
    destruct (A 5%Z) as [c5 [H5 [Z5 _]]]; [unfold anchored; lia|].
    destruct (A 6%Z) as [c6 [H6 _]]; [unfold anchored; lia|].
    destruct (A 7%Z) as [c7 [H7 _]]; [unfold anchored; lia|].
    destruct (A 8%Z) as [c8 [H8 _]]; [unfold anchored; lia|].
    destruct (A 9%Z) as [c9 [H9 _]]; [unfold anchored; lia|].
    destruct (energyPathPoints_full _ _ _ _ _ _ _ _ _ _ H1 H2 H3 H4 H5 H6 H7 H8 H9)
      as [path [Hp [Hlen [Hfirst [Hmid Hlast]]]]].
    exists path. eexists. exists c1.
    split; [exact Hgen|]. split; [exact Hp|]. split; [exact Hlen|].
    split; [exact Hfirst|]. split; [exact Hlast|]. split; [|split; [|split]].
    + apply length_scaled_unit; [apply normalize_isUnit, N1; lia|unfold SPHERE_RADIUS; lra].
    + exact H1.
    + reflexivity.
    + rewrite Hmid. f_equal. now apply Z5.
Qed.
